(** * A shallow embedding of the dataset pipeline engine

    Sources: [dataset/pipeline.py] (class [Pipeline]) and
    [dataset/decorators.py] ([ModelDirectory], [model], [inbatch_parallel]).

    Python objects that are mutated in place and shared (action lists, action
    dictionaries, pipelines, the model directory) live in explicit stores;
    exceptions are values of [exn] carried by [result]. *)

From stdpp Require Import base option list gmap strings fin_maps.
From Stdlib Require Import ZArith Lia.
From Stdlib Require QArith.

Open Scope string_scope.
Open Scope list_scope.

(** ** Exceptions and results *)

(** The exception classes the two modules raise or catch.  All of them derive
    from [Exception]; [OtherError] stands for whatever user code raises. *)
Inductive exn :=
| ValueError (msg : string)
| TypeError (msg : string)
| AttributeError (msg : string)
| KeyError (key : string)
| IndexError
| RuntimeError (msg : string)
| UnboundLocalError (var : string)
| SkipBatchException
| OtherError (tag : nat).

Inductive result (A : Type) :=
| Return (a : A)
| Raise (e : exn).
Arguments Return {A} a.
Arguments Raise {A} e.

#[global] Instance exn_eq_dec : EqDecision exn.
Proof. solve_decision. Defined.

Definition is_skip (e : exn) : bool :=
  match e with SkipBatchException => true | _ => false end.

(** ** The prefetch scheduler: consumer stage ([Pipeline._run_batches_from_queue]) *)

Module Scheduler.
Section Consumer.
Context {Batch : Type}.

(** An item of [_prefetch_queue]: [None] once the source is exhausted,
    otherwise a future whose [result()] returns the executed batch or raises
    what [_exec] raised. *)
Inductive handle :=
| EndOfStream
| Future (outcome : result Batch).

Inductive output :=
| Print (e : exn)
| PrintTb (e : exn).

(** The consumer's locals and what it has done so far.  [batch] is [None]
    while the local variable is still unbound; [_batch_queue] lists the items
    put on the delivery queue, oldest first (the caller loop takes them in
    that order). *)
Record consumer := Consumer {
  skip_batch : bool;
  batch : option Batch;
  _batch_queue : list (option Batch);
  tasks_done : nat;
  stdout : list output }.

Definition start : consumer := Consumer false None [] 0 [].

(** How the worker leaves the function: [break] after the end marker, blocked
    in [get(block=True)] on an empty queue, or killed by an exception that
    nothing catches. *)
Inductive exit :=
| Finished
| Waiting
| Died (e : exn).

(** The [try] statement's handlers (lines 563-570). *)
Definition handlers (outcome : result Batch) (c : consumer) : consumer :=
  match outcome with
  | Return b =>
      Consumer (skip_batch c) (Some b) (_batch_queue c) (tasks_done c) (stdout c)
  | Raise e =>
      if is_skip e
      then Consumer true (batch c) (_batch_queue c) (tasks_done c) (stdout c)
      else Consumer (skip_batch c) (batch c) (_batch_queue c) (tasks_done c)
                    (stdout c ++ [Print e; PrintTb e])
  end.

(** The [finally] clause (lines 571-575).  Reading the local [batch] before
    any assignment raises [UnboundLocalError]. *)
Definition finally_clause (c : consumer) : result consumer :=
  if skip_batch c
  then Return (Consumer true (batch c) (_batch_queue c) (S (tasks_done c)) (stdout c))
  else match batch c with
       | None => Raise (UnboundLocalError "batch")
       | Some b =>
           Return (Consumer false (Some b) (_batch_queue c ++ [Some b])
                            (S (tasks_done c)) (stdout c))
       end.

(** The loop, for a run in which [_stop_flag] stays false: the argument is
    what the producer puts on [_prefetch_queue], in order. *)
Fixpoint _run_batches_from_queue (_prefetch_queue : list handle) (c : consumer)
  : exit * consumer :=
  match _prefetch_queue with
  | [] => (Waiting, c)
  | EndOfStream :: _ =>
      (Finished,
       Consumer (skip_batch c) (batch c) (_batch_queue c ++ [None])
                (S (tasks_done c)) (stdout c))
  | Future outcome :: rest =>
      let c1 := handlers outcome c in
      match finally_clause c1 with
      | Return c2 => _run_batches_from_queue rest c2
      | Raise e => (Died e, c1)
      end
  end.

(** What the specification asks the consumer to deliver: every unit whose
    execution returned, in order, nothing for a unit that raised, and the end
    marker last. *)
Fixpoint delivery_by_spec (_prefetch_queue : list handle) : list (option Batch) :=
  match _prefetch_queue with
  | [] => []
  | EndOfStream :: _ => [None]
  | Future (Return b) :: rest => Some b :: delivery_by_spec rest
  | Future (Raise _) :: rest => delivery_by_spec rest
  end.

Definition all_returned (q : list handle) : Prop :=
  Forall (λ h, match h with Future (Raise _) => False | _ => True end) q.

(** While no unit raises, the loop delivers what it has delivered plus the
    specified sequence. *)
Lemma run_all_returned q c :
  all_returned q → skip_batch c = false →
  _batch_queue (_run_batches_from_queue q c).2 = _batch_queue c ++ delivery_by_spec q.
Proof.
  intros Hq. revert c. induction Hq as [|h q Hh _ IH]; intros c Hc; simpl.
  - by rewrite app_nil_r.
  - destruct h as [|[b|e]]; [done| |done].
    unfold finally_clause; simpl. rewrite Hc. rewrite IH by done.
    simpl. by rewrite <- app_assoc.
Qed.

(** A unit that raises anything but the skip signal, after some unit has been
    delivered: the exception is printed and the last delivered batch is put on
    the delivery queue once more. *)
Lemma failed_unit_redelivers e b rest c :
  is_skip e = false → skip_batch c = false → batch c = Some b →
  _run_batches_from_queue (Future (Raise e) :: rest) c
  = _run_batches_from_queue rest
      (Consumer false (Some b) (_batch_queue c ++ [Some b]) (S (tasks_done c))
                (stdout c ++ [Print e; PrintTb e])).
Proof.
  intros He Hs Hb. simpl. unfold handlers, finally_clause. rewrite He. simpl.
  by rewrite Hs, Hb.
Qed.

(** The same before any unit has been delivered: the worker dies. *)
Lemma failed_first_unit_dies e rest c :
  is_skip e = false → skip_batch c = false → batch c = None →
  (_run_batches_from_queue (Future (Raise e) :: rest) c).1
  = Died (UnboundLocalError "batch").
Proof.
  intros He Hs Hb. simpl. unfold handlers, finally_clause. rewrite He. simpl.
  by rewrite Hs, Hb.
Qed.

(** Once the skip flag is set it stays set, and nothing but the end marker
    reaches the delivery queue. *)
Lemma skip_flag_sticks q c :
  skip_batch c = true →
  ∃ tail, _batch_queue (_run_batches_from_queue q c).2 = _batch_queue c ++ tail
          ∧ (tail = [] ∨ tail = [None]).
Proof.
  revert c. induction q as [|h q IH]; intros c Hs; simpl.
  - exists []. rewrite app_nil_r. eauto.
  - destruct h as [|outcome]; simpl; [eauto|].
    assert (skip_batch (handlers outcome c) = true) as Hs'.
    { unfold handlers. destruct outcome as [b|e]; simpl; [done|].
      by destruct (is_skip e). }
    unfold finally_clause. rewrite Hs'.
    destruct (IH (Consumer true (batch (handlers outcome c))
                           (_batch_queue (handlers outcome c))
                           (S (tasks_done (handlers outcome c)))
                           (stdout (handlers outcome c))) eq_refl)
      as (tail & Ht & Hcase).
    exists tail. rewrite Ht. simpl. split; [|done].
    unfold handlers. destruct outcome as [b|e]; simpl; [done|].
    by destruct (is_skip e).
Qed.

End Consumer.

Arguments handle : clear implicits.
Arguments consumer : clear implicits.

(** C1 (the code departs from the specification).  A unit that raises something other
    than the skip signal is logged, but the [finally] clause then puts the
    local [batch] on the delivery queue all the same: the previous unit is
    delivered a second time, or, when no unit has succeeded yet, the worker
    dies of [UnboundLocalError] and delivers nothing more, not even the end
    marker.  After one skip signal the flag stays set, and no later unit is
    delivered. *)
Theorem consumer_redelivers_or_dies :
  let boom := Future (Raise (OtherError 0)) in
  let skip := Future (Raise SkipBatchException) in
  let unit n := Future (Return n) in
  (* a failed unit after a good one: the good one is delivered twice *)
  _run_batches_from_queue [unit 1; boom; unit 2; EndOfStream] start
    = (Finished,
       Consumer false (Some 2) [Some 1; Some 1; Some 2; None] 4
                [Print (OtherError 0); PrintTb (OtherError 0)])
  ∧ delivery_by_spec [unit 1; boom; unit 2; EndOfStream] = [Some 1; Some 2; None]
  (* a failed unit first: the worker dies, the later unit is never delivered *)
  ∧ _run_batches_from_queue [boom; unit 2; EndOfStream] start
    = (Died (UnboundLocalError "batch"),
       Consumer false None [] 0 [Print (OtherError 0); PrintTb (OtherError 0)])
  (* a skipped unit: every later unit is dropped too *)
  ∧ _run_batches_from_queue [unit 1; skip; unit 2; unit 3; EndOfStream] start
    = (Finished, Consumer true (Some 3) [Some 1; None] 5 []).
Proof. repeat split. Qed.

End Scheduler.

(** ** The prefetch scheduler: resources ([Pipeline.gen_batch], lines 653-670) *)

Module GenBatch.

Inductive executor :=
| ThreadPoolExecutor (max_workers : Z)
| ProcessPoolExecutor (max_workers : Z).

(** One field per resource the prefetching branch creates; a queue is given
    by its [maxsize]. *)
Record resources := Resources {
  _executor : executor;
  _prefetch_count : Z;
  _prefetch_queue : Z;
  _batch_queue : Z;
  _service_executor : executor }.

Definition pool_for (target : string) : option (Z → executor) :=
  if (target =? "threads")%string || (target =? "t")%string
  then Some ThreadPoolExecutor
  else if (target =? "mpc")%string || (target =? "m")%string
  then Some ProcessPoolExecutor
  else None.

(** What [gen_batch] sets up before it yields anything: [Return None] on the
    sequential path ([prefetch <= 0]). *)
Definition gen_batch (prefetch : Z) (target : string) : result (option resources) :=
  if (0 <? prefetch)%Z then
    let prefetch := Z.min prefetch 62 in
    match pool_for target with
    | Some pool =>
        Return (Some (Resources (pool (prefetch + 1)%Z) (prefetch + 1)%Z prefetch 1
                                (ThreadPoolExecutor 2)))
    | None => Raise (ValueError "target should be one of ['threads', 'mpc']")
    end
  else Return None.

(** C10.  A requested look-ahead above 62 is capped: the call sets up exactly
    what a request of 62 sets up, and with a pool target that is an admission
    queue of capacity 63, a result-handle queue of capacity 62 and a pool of
    63 workers (any other target raises before anything is created). *)
Theorem gen_batch_capped (prefetch : Z) (target : string) :
  (62 < prefetch)%Z →
  gen_batch prefetch target = gen_batch 62 target
  ∧ match pool_for target with
    | Some pool =>
        gen_batch prefetch target
        = Return (Some (Resources (pool 63%Z) 63 62 1 (ThreadPoolExecutor 2)))
    | None =>
        gen_batch prefetch target
        = Raise (ValueError "target should be one of ['threads', 'mpc']")
    end.
Proof.
  intros Hp. unfold gen_batch.
  assert ((0 <? prefetch)%Z = true) as -> by (apply Z.ltb_lt; lia).
  rewrite Z.min_r by lia. simpl.
  destruct (pool_for target); done.
Qed.

Lemma gen_batch_capped_witness :
  (62 < 1000)%Z
  ∧ gen_batch 1000 "threads"
    = Return (Some (Resources (ThreadPoolExecutor 63) 63 62 1 (ThreadPoolExecutor 2))).
Proof.
  split; [lia|].
  exact (proj2 (gen_batch_capped 1000 "threads" ltac:(lia))).
Defined.

End GenBatch.

(** ** Building action chains ([Pipeline.__init__] to [Pipeline.append_pipeline]) *)

Module Chain.

Abbreviation loc := nat (only parsing).

Definition PIPELINE_ID : string := "#_pipeline".

Section Pipeline.
Context {Dataset Config Args Kwargs Proba : Type} `{!EqDecision Dataset}.

(** [Baseset] and [BaseBatch] are imported from modules that are not among the
    sources: the truth value of a dataset object (what [a or b] tests) and the
    test for a batch method are parameters, and so is the product of two
    probabilities (a float multiplication). *)
Variable truthy : Dataset → bool.
Variable _is_batch_method : string → bool.
Variable proba_mul : Proba → Proba → Proba.

(** An action dictionary.  An outer [None] is a key that is absent; the inner
    option of [proba] and [repeat] is Python's [None]. *)
Record action := Action {
  name : string;
  args : option Args;
  kwargs : option Kwargs;
  proba : option (option Proba);
  repeat : option (option Z);
  pipeline : option loc }.

(** A pipeline object, by the attributes that chain building reads and
    writes; [_action_list] refers to a list object.  [_variables],
    [_lazy_run], the import of static models and [reset_iter] are left out:
    they do not touch the action list or the dataset binding. *)
Record pipeline_obj := Pipeline {
  dataset : option Dataset;
  config : option Config;
  _action_list : loc }.

(** The store: list objects (of references to action dictionaries), action
    dictionaries and pipeline objects, each by identity. *)
Record heap := Heap {
  lists : gmap nat (list nat);
  dicts : gmap nat action;
  pipes : gmap nat pipeline_obj }.

Definition empty_heap : heap := Heap ∅ ∅ ∅.

Definition M (A : Type) : Type := heap → result A * heap.

Definition ret {A} (a : A) : M A := λ h, (Return a, h).
Definition raise {A} (e : exn) : M A := λ h, (Raise e, h).
Definition bind {A B} (m : M A) (k : A → M B) : M B :=
  λ h, match m h with
       | (Return a, h') => k a h'
       | (Raise e, h') => (Raise e, h')
       end.

Notation "'let*' x := m 'in' k" := (bind m (λ x, k))
  (at level 10, x name, m at level 100, k at level 200).

Definition new_list (l : list nat) : M loc :=
  λ h, let r := fresh (dom (lists h)) in
       (Return r, Heap (<[r := l]> (lists h)) (dicts h) (pipes h)).

Definition read_list (r : loc) : M (list nat) :=
  λ h, match lists h !! r with
       | Some l => (Return l, h)
       | None => (Raise (RuntimeError "no such list"), h)
       end.

Definition write_list (r : loc) (l : list nat) : M unit :=
  λ h, (Return (), Heap (<[r := l]> (lists h)) (dicts h) (pipes h)).

Definition new_dict (a : action) : M loc :=
  λ h, let r := fresh (dom (dicts h)) in
       (Return r, Heap (lists h) (<[r := a]> (dicts h)) (pipes h)).

Definition read_dict (r : loc) : M action :=
  λ h, match dicts h !! r with
       | Some a => (Return a, h)
       | None => (Raise (RuntimeError "no such dict"), h)
       end.

Definition write_dict (r : loc) (a : action) : M unit :=
  λ h, (Return (), Heap (lists h) (<[r := a]> (dicts h)) (pipes h)).

Definition new_pipe (p : pipeline_obj) : M loc :=
  λ h, let r := fresh (dom (pipes h)) in
       (Return r, Heap (lists h) (dicts h) (<[r := p]> (pipes h))).

Definition read_pipe (r : loc) : M pipeline_obj :=
  λ h, match pipes h !! r with
       | Some p => (Return p, h)
       | None => (Raise (RuntimeError "no such pipeline"), h)
       end.

Definition write_pipe (r : loc) (p : pipeline_obj) : M unit :=
  λ h, (Return (), Heap (lists h) (dicts h) (<[r := p]> (pipes h))).

(** [a * b if a is not None and b is not None else a if a is not None else b] *)
Definition mult_option {A} (mul : A → A → A) (a b : option A) : option A :=
  match a, b with
  | Some x, Some y => Some (mul x y)
  | Some x, None => Some x
  | None, _ => b
  end.

(** [a or b] on two dataset attributes. *)
Definition or_dataset (a b : option Dataset) : option Dataset :=
  match a with
  | Some d => if truthy d then a else b
  | None => b
  end.

(** [self._action_list[-1]] *)
Definition last_action (self : loc) : M loc :=
  let* p := read_pipe self in
  let* l := read_list (_action_list p) in
  match last l with
  | Some d => ret d
  | None => raise IndexError
  end.

Definition get_last_action_proba (self : loc) : M (option Proba) :=
  let* d := last_action self in
  let* a := read_dict d in
  match proba a with
  | Some v => ret v
  | None => raise (KeyError "proba")
  end.

Definition get_last_action_repeat (self : loc) : M (option Z) :=
  let* d := last_action self in
  let* a := read_dict d in
  match repeat a with
  | Some v => ret v
  | None => raise (KeyError "repeat")
  end.

Definition num_actions (self : loc) : M nat :=
  let* p := read_pipe self in
  let* l := read_list (_action_list p) in
  ret (length l).

Definition set_last_proba (self : loc) (v : option Proba) : M unit :=
  let* d := last_action self in
  let* a := read_dict d in
  write_dict d (Action (name a) (args a) (kwargs a) (Some v) (repeat a) (pipeline a)).

Definition set_last_repeat (self : loc) (v : option Z) : M unit :=
  let* d := last_action self in
  let* a := read_dict d in
  write_dict d (Action (name a) (args a) (kwargs a) (proba a) (Some v) (pipeline a)).

(** [Pipeline(dataset, config, pipeline, proba, repeat)]: the new object's
    reference.  Copying [pipeline._action_list[:]] makes a new list object
    holding the same dictionaries. *)
Definition __init__ (ds : option Dataset) (cfg : option Config)
    (src : option loc) (pr : option Proba) (rep : option Z) : M loc :=
  match src with
  | None =>
      let* l := new_list [] in
      new_pipe (Pipeline ds cfg l)
  | Some src =>
      let* p := read_pipe src in
      let* acts := read_list (_action_list p) in
      let* l := new_list acts in
      let* self := new_pipe (Pipeline (dataset p) (config p) l) in
      let* n := num_actions self in
      let* _ :=
        if (n =? 1)%nat then
          match pr, rep with
          | Some x, _ =>
              let* r := get_last_action_repeat self in
              match r with
              | None =>
                  let* q := get_last_action_proba self in
                  set_last_proba self (mult_option proba_mul (Some x) q)
              | Some _ => ret ()
              end
          | None, Some k =>
              let* q := get_last_action_proba self in
              match q with
              | None =>
                  let* r := get_last_action_repeat self in
                  set_last_repeat self (mult_option Z.mul (Some k) r)
              | Some _ => ret ()
              end
          | None, None => ret ()
          end
        else ret () in
      ret self
  end.

(** [self._action_list.append({'name': PIPELINE_ID, ...})] *)
Definition append_pipeline (self nested : loc) (pr : option Proba) (rep : option Z)
  : M unit :=
  let* p := read_pipe self in
  let* d := new_dict (Action PIPELINE_ID None None (Some pr) (Some rep) (Some nested)) in
  let* l := read_list (_action_list p) in
  write_list (_action_list p) (l ++ [d]).

Definition nest (src : loc) (pr : option Proba) (rep : option Z) : M loc :=
  let* new_p := __init__ None None None None None in
  let* _ := append_pipeline new_p src pr rep in
  ret new_p.

Definition from_pipeline (src : loc) (pr : option Proba) (rep : option Z) : M loc :=
  match pr with
  | None =>
      match rep with
      | None => __init__ None None (Some src) None None
      | Some k =>
          let* n := num_actions src in
          if (n =? 1)%nat then
            let* q := get_last_action_proba src in
            match q with
            | None => __init__ None None (Some src) None (Some k)
            | Some _ => nest src None (Some k)
            end
          else nest src None (Some k)
      end
  | Some x =>
      let* n := num_actions src in
      if (n =? 1)%nat then
        let* r := get_last_action_repeat src in
        match r with
        | None => __init__ None None (Some src) (Some x) None
        | Some _ => nest src (Some x) None
        end
      else nest src (Some x) None
  end.

Definition conflicting (a b : option Dataset) : bool :=
  bool_decide (a ≠ b) && bool_decide (a ≠ None) && bool_decide (b ≠ None).

Definition concat (pipe1 pipe2 : loc) : M loc :=
  let* p1 := read_pipe pipe1 in
  let* p2 := read_pipe pipe2 in
  if conflicting (dataset p1) (dataset p2)
  then raise (ValueError "Cannot add pipelines with different datasets")
  else
    let* new_p1 := from_pipeline pipe1 None None in
    let* new_p2 := from_pipeline pipe2 None None in
    let* n1 := read_pipe new_p1 in
    let* n2 := read_pipe new_p2 in
    let* l2 := read_list (_action_list n2) in
    let* copy := new_list l2 in
    let* l2 := read_list copy in
    let* l1 := read_list (_action_list n1) in
    let* _ := write_list (_action_list n1) (l1 ++ l2) in
    let* _ := write_pipe new_p1
                (Pipeline (or_dataset (dataset p1) (dataset p2)) (config n1)
                          (_action_list n1)) in
    ret new_p1.

(** [pipeline.name]: the attribute lookup already appends [{'name': name}] to
    the list object in place and hands back [append_action]. *)
Definition __getattr__ (self : loc) (nm : string) : M unit :=
  if _is_batch_method nm then
    let* p := read_pipe self in
    let* d := new_dict (Action nm None None None None None) in
    let* l := read_list (_action_list p) in
    write_list (_action_list p) (l ++ [d])
  else raise (AttributeError nm).

Definition append_action (self : loc) (a : Args) (k : Kwargs) : M loc :=
  let* d := last_action self in
  let* r := read_dict d in
  let* _ := write_dict d (Action (name r) (Some a) (Some k) (Some None) (Some None)
                                 (pipeline r)) in
  let* new_p := from_pipeline self None None in
  let* p := read_pipe self in
  let* l := read_list (_action_list p) in
  let* shorter := new_list (removelast l) in
  let* _ := write_pipe self (Pipeline (dataset p) (config p) shorter) in
  ret new_p.

(** [pipeline.name(...)] with positional and keyword arguments *)
Definition call_action (self : loc) (nm : string) (a : Args) (k : Kwargs) : M loc :=
  let* _ := __getattr__ self nm in
  append_action self a k.

(** [pipeline * other] for an [int]. *)
Definition __mul__ (self : loc) (other : Z) : M loc :=
  if (other <? 0)%Z
  then raise (ValueError "Repeat count cannot be negative. Use as pipeline * positive_number")
  else from_pipeline self None (Some other).

(** The actions of a pipeline, read through the store. *)
Definition actions_of (h : heap) (self : loc) : option (list nat) :=
  p ← pipes h !! self; lists h !! _action_list p.

(** *** Facts about the store *)

Lemma fresh_unused {V} (m : gmap nat V) : m !! fresh (dom m) = None.
Proof. apply not_elem_of_dom, is_fresh. Qed.

Lemma fresh_differs {V} (m : gmap nat V) (r : nat) (v : V) :
  m !! r = Some v → fresh (dom m) ≠ r.
Proof. intros Hr Heq. rewrite <- Heq, fresh_unused in Hr. done. Qed.

Lemma bind_run {A B} (m : M A) (k : A → M B) h a h' :
  m h = (Return a, h') → bind m k h = k a h'.
Proof. unfold bind. by intros ->. Qed.

Lemma read_pipe_run h r p : pipes h !! r = Some p → read_pipe r h = (Return p, h).
Proof. unfold read_pipe. by intros ->. Qed.

Lemma read_list_run h r l : lists h !! r = Some l → read_list r h = (Return l, h).
Proof. unfold read_list. by intros ->. Qed.

Lemma read_dict_run h r a : dicts h !! r = Some a → read_dict r h = (Return a, h).
Proof. unfold read_dict. by intros ->. Qed.

Lemma num_actions_run h self p l :
  pipes h !! self = Some p → lists h !! _action_list p = Some l →
  num_actions self h = (Return (length l), h).
Proof.
  intros Hp Hl. unfold num_actions.
  rewrite (bind_run _ _ _ _ _ (read_pipe_run _ _ _ Hp)).
  by rewrite (bind_run _ _ _ _ _ (read_list_run _ _ _ Hl)).
Qed.

(** Copying a pipeline with no probability and no repeat count: one new list
    object with the same content, one new pipeline object, nothing else
    touched. *)
Lemma copy_run h src p l :
  pipes h !! src = Some p → lists h !! _action_list p = Some l →
  let r := fresh (dom (lists h)) in
  let np := fresh (dom (pipes h)) in
  from_pipeline src None None h
  = (Return np,
     Heap (<[r := l]> (lists h)) (dicts h)
          (<[np := Pipeline (dataset p) (config p) r]> (pipes h))).
Proof.
  intros Hp Hl r np. unfold from_pipeline, __init__.
  rewrite (bind_run _ _ _ _ _ (read_pipe_run _ _ _ Hp)).
  rewrite (bind_run _ _ _ _ _ (read_list_run _ _ _ Hl)).
  unfold bind at 1, new_list at 1. fold r.
  unfold bind at 1, new_pipe at 1. simpl. fold np.
  erewrite bind_run; last first.
  { apply num_actions_run with (p := Pipeline (dataset p) (config p) r) (l := l); simpl.
    - apply lookup_insert_eq.
    - apply lookup_insert_eq. }
  by destruct (length l =? 1)%nat.
Qed.

(** The whole effect of a permitted concatenation on the store. *)
Lemma concat_run h pipe1 pipe2 p1 p2 l1 l2 :
  pipes h !! pipe1 = Some p1 → lists h !! _action_list p1 = Some l1 →
  pipes h !! pipe2 = Some p2 → lists h !! _action_list p2 = Some l2 →
  conflicting (dataset p1) (dataset p2) = false →
  let ra := fresh (dom (lists h)) in
  let na := fresh (dom (pipes h)) in
  let lists1 := <[ra := l1]> (lists h) in
  let pipes1 := <[na := Pipeline (dataset p1) (config p1) ra]> (pipes h) in
  let rb := fresh (dom lists1) in
  let nb := fresh (dom pipes1) in
  let lists2 := <[rb := l2]> lists1 in
  let pipes2 := <[nb := Pipeline (dataset p2) (config p2) rb]> pipes1 in
  let rc := fresh (dom lists2) in
  concat pipe1 pipe2 h
  = (Return na,
     Heap (<[ra := l1 ++ l2]> (<[rc := l2]> lists2)) (dicts h)
          (<[na := Pipeline (or_dataset (dataset p1) (dataset p2)) (config p1) ra]>
             pipes2)).
Proof.
  intros Hp1 Hl1 Hp2 Hl2 Hok ra na lists1 pipes1 rb nb lists2 pipes2 rc.
  assert (na ≠ pipe2) as Hna2 by (eapply fresh_differs; done).
  assert (ra ≠ _action_list p2) as Hra2 by (eapply fresh_differs; done).
  assert (nb ≠ na) as Hnba.
  { eapply fresh_differs. subst pipes1. apply lookup_insert_eq. }
  assert (rb ≠ ra) as Hrba.
  { eapply fresh_differs. subst lists1. apply lookup_insert_eq. }
  assert (rc ≠ ra) as Hrca.
  { eapply fresh_differs. subst lists2. rewrite lookup_insert_ne by done.
    subst lists1. apply lookup_insert_eq. }
  unfold concat.
  rewrite (bind_run _ _ _ _ _ (read_pipe_run _ _ _ Hp1)).
  rewrite (bind_run _ _ _ _ _ (read_pipe_run _ _ _ Hp2)).
  rewrite Hok.
  rewrite (bind_run _ _ _ _ _ (copy_run _ _ _ _ Hp1 Hl1)).
  fold ra na lists1 pipes1.
  erewrite bind_run; last first.
  { apply copy_run with (p := p2) (l := l2); simpl.
    - subst pipes1. by rewrite lookup_insert_ne.
    - subst lists1. by rewrite lookup_insert_ne. }
  simpl. fold rb nb lists2 pipes2.
  erewrite bind_run; last first.
  { apply read_pipe_run. simpl. subst pipes2. rewrite lookup_insert_ne by done.
    subst pipes1. apply lookup_insert_eq. }
  erewrite bind_run; last first.
  { apply read_pipe_run. simpl. subst pipes2. apply lookup_insert_eq. }
  simpl.
  erewrite bind_run; last first.
  { apply read_list_run. simpl. subst lists2. apply lookup_insert_eq. }
  unfold bind at 1, new_list at 1. simpl. fold rc.
  erewrite bind_run; last first.
  { apply read_list_run. simpl. apply lookup_insert_eq. }
  erewrite bind_run; last first.
  { apply read_list_run. simpl. rewrite lookup_insert_ne by done.
    subst lists2. rewrite lookup_insert_ne by done.
    subst lists1. apply lookup_insert_eq. }
  reflexivity.
Qed.

(** The whole effect of [pipeline.name(args)] on the store. *)
Lemma call_action_run h self p l nm a k :
  pipes h !! self = Some p → lists h !! _action_list p = Some l →
  _is_batch_method nm = true →
  let d := fresh (dom (dicts h)) in
  let record := Action nm (Some a) (Some k) (Some None) (Some None) None in
  let lists1 := <[_action_list p := l ++ [d]]> (lists h) in
  let r' := fresh (dom lists1) in
  let np := fresh (dom (pipes h)) in
  let lists2 := <[r' := l ++ [d]]> lists1 in
  let r'' := fresh (dom lists2) in
  call_action self nm a k h
  = (Return np,
     Heap (<[r'' := l]> lists2)
          (<[d := record]> (<[d := Action nm None None None None None]> (dicts h)))
          (<[self := Pipeline (dataset p) (config p) r'']>
             (<[np := Pipeline (dataset p) (config p) r']> (pipes h)))).
Proof.
  intros Hp Hl Hnm d record lists1 r' np lists2 r''.
  assert (np ≠ self) as Hnp by (eapply fresh_differs; done).
  assert (r' ≠ _action_list p) as Hr'.
  { eapply fresh_differs. subst lists1. apply lookup_insert_eq. }
  unfold call_action, __getattr__. rewrite Hnm.
  erewrite bind_run; last first.
  { rewrite (bind_run _ _ _ _ _ (read_pipe_run _ _ _ Hp)).
    unfold bind at 1, new_dict at 1. fold d.
    erewrite bind_run; last by apply read_list_run.
    reflexivity. }
  simpl. fold lists1. unfold append_action, last_action.
  erewrite bind_run; last first.
  { erewrite bind_run; last by apply read_pipe_run.
    erewrite bind_run; last first.
    { apply read_list_run. simpl. subst lists1. apply lookup_insert_eq. }
    rewrite last_snoc. reflexivity. }
  erewrite bind_run; last first.
  { apply read_dict_run. simpl. apply lookup_insert_eq. }
  unfold bind at 1, write_dict at 1. simpl.
  erewrite bind_run; last first.
  { apply copy_run with (p := p) (l := l ++ [d]); simpl; [done|].
    subst lists1. apply lookup_insert_eq. }
  simpl. fold r' np lists2.
  erewrite bind_run; last first.
  { apply read_pipe_run. simpl. by rewrite lookup_insert_ne. }
  erewrite bind_run; last first.
  { apply read_list_run. simpl. subst lists2. rewrite lookup_insert_ne by done.
    subst lists1. apply lookup_insert_eq. }
  unfold bind at 1, new_list at 1. simpl. fold r''.
  rewrite removelast_last. reflexivity.
Qed.

(** C7.  Concatenating two pipelines that may be concatenated returns a new
    pipeline whose action list is the first list followed by the second, so
    its length is the sum of the two lengths; both operands keep their list
    object with its content, no action dictionary is touched, and the new
    list is an object that did not exist before. *)
Theorem concat_adds_lengths h pipe1 pipe2 p1 p2 l1 l2 :
  pipes h !! pipe1 = Some p1 → lists h !! _action_list p1 = Some l1 →
  pipes h !! pipe2 = Some p2 → lists h !! _action_list p2 = Some l2 →
  conflicting (dataset p1) (dataset p2) = false →
  ∃ new_p h' obj l,
    concat pipe1 pipe2 h = (Return new_p, h')
    ∧ pipes h' !! new_p = Some obj
    ∧ lists h' !! _action_list obj = Some l
    ∧ l = l1 ++ l2
    ∧ length l = length l1 + length l2
    ∧ pipes h' !! pipe1 = Some p1 ∧ lists h' !! _action_list p1 = Some l1
    ∧ pipes h' !! pipe2 = Some p2 ∧ lists h' !! _action_list p2 = Some l2
    ∧ lists h !! _action_list obj = None
    ∧ dicts h' = dicts h.
Proof.
  intros Hp1 Hl1 Hp2 Hl2 Hok.
  pose proof (concat_run h pipe1 pipe2 p1 p2 l1 l2 Hp1 Hl1 Hp2 Hl2 Hok) as Hrun.
  cbv zeta in Hrun.
  set (ra := fresh (dom (lists h))) in *.
  set (na := fresh (dom (pipes h))) in *.
  set (lists1 := <[ra := l1]> (lists h)) in *.
  set (pipes1 := <[na := Pipeline (dataset p1) (config p1) ra]> (pipes h)) in *.
  set (rb := fresh (dom lists1)) in *.
  set (nb := fresh (dom pipes1)) in *.
  set (lists2 := <[rb := l2]> lists1) in *.
  set (rc := fresh (dom lists2)) in *.
  assert (lists h !! ra = None) as Hra by apply fresh_unused.
  assert (pipes h !! na = None) as Hna by apply fresh_unused.
  assert (lists1 !! rb = None) as Hrb by apply fresh_unused.
  assert (pipes1 !! nb = None) as Hnb by apply fresh_unused.
  assert (lists2 !! rc = None) as Hrc by apply fresh_unused.
  assert (∀ r l0, lists h !! r = Some l0 →
            (<[ra := l1 ++ l2]> (<[rc := l2]> lists2)) !! r = Some l0) as Hlists.
  { intros r l0 Hr.
    assert (ra ≠ r) by (intros ->; congruence).
    assert (lists1 !! r = Some l0) as H1 by (subst lists1; by rewrite lookup_insert_ne).
    assert (rb ≠ r) by (intros ->; congruence).
    assert (lists2 !! r = Some l0) as H2 by (subst lists2; by rewrite lookup_insert_ne).
    assert (rc ≠ r) by (intros ->; congruence).
    by rewrite !lookup_insert_ne. }
  assert (∀ r p0, pipes h !! r = Some p0 →
            (<[na := Pipeline (or_dataset (dataset p1) (dataset p2)) (config p1) ra]>
               (<[nb := Pipeline (dataset p2) (config p2) rb]> pipes1)) !! r = Some p0)
    as Hpipes.
  { intros r p0 Hr.
    assert (na ≠ r) by (intros ->; congruence).
    assert (pipes1 !! r = Some p0) as H1 by (subst pipes1; by rewrite lookup_insert_ne).
    assert (nb ≠ r) by (intros ->; congruence).
    by rewrite !lookup_insert_ne. }
  eexists _, _, _, (l1 ++ l2). split; [exact Hrun|]. simpl.
  split; [apply lookup_insert_eq|]. simpl.
  split; [apply lookup_insert_eq|].
  split; [done|]. split; [apply length_app|].
  repeat split; auto.
Qed.

Lemma conflicting_spec (a b : option Dataset) :
  conflicting a b = true ↔ ∃ d1 d2, a = Some d1 ∧ b = Some d2 ∧ d1 ≠ d2.
Proof.
  unfold conflicting. split.
  - intros Hc.
    apply andb_true_iff in Hc as [Hc H2]. apply andb_true_iff in Hc as [Hne H1].
    apply bool_decide_eq_true in Hne, H1, H2.
    destruct a as [d1|], b as [d2|]; try done.
    exists d1, d2. repeat split. congruence.
  - intros (d1 & d2 & -> & -> & Hne).
    rewrite !bool_decide_eq_true_2 by congruence. done.
Qed.

(** C9 (the code departs from the claim for a dataset object that is
    falsy).  Concatenation raises the conflicting-source error exactly when
    both pipelines have a dataset and the two differ.  Otherwise it returns a
    new pipeline; when the first has no dataset the result carries the
    second's, and when both carry the same the result carries it.  When only
    the first has one, the result carries it if the dataset object is truthy,
    and no dataset at all if it is falsy: the code reads
    [pipe1.dataset or pipe2.dataset], where the test above it reads
    [is not None]. *)
Theorem concat_conflict_iff h pipe1 pipe2 p1 p2 l1 l2 :
  pipes h !! pipe1 = Some p1 → lists h !! _action_list p1 = Some l1 →
  pipes h !! pipe2 = Some p2 → lists h !! _action_list p2 = Some l2 →
  ((concat pipe1 pipe2 h).1
     = Raise (ValueError "Cannot add pipelines with different datasets")
   ↔ ∃ d1 d2, dataset p1 = Some d1 ∧ dataset p2 = Some d2 ∧ d1 ≠ d2)
  ∧ ((dataset p1 = None ∨ dataset p2 = None ∨ dataset p1 = dataset p2) →
     ∃ new_p h' obj,
       concat pipe1 pipe2 h = (Return new_p, h')
       ∧ pipes h' !! new_p = Some obj
       ∧ (dataset p1 = None → dataset obj = dataset p2)
       ∧ (dataset p1 = dataset p2 → dataset obj = dataset p1)
       ∧ (∀ d, dataset p1 = Some d → dataset p2 = None →
            dataset obj = if truthy d then Some d else None)).
Proof.
  intros Hp1 Hl1 Hp2 Hl2.
  destruct (conflicting (dataset p1) (dataset p2)) eqn:Hc.
  - (* both bound, to different datasets *)
    pose proof (proj1 (conflicting_spec _ _) Hc) as Hex.
    split.
    + split; [done|]. intros _. unfold concat.
      rewrite (bind_run _ _ _ _ _ (read_pipe_run _ _ _ Hp1)).
      rewrite (bind_run _ _ _ _ _ (read_pipe_run _ _ _ Hp2)).
      by rewrite Hc.
    + destruct Hex as (d1 & d2 & E1 & E2 & Hne).
      intros [H|[H|H]]; congruence.
  - pose proof (concat_run h pipe1 pipe2 p1 p2 l1 l2 Hp1 Hl1 Hp2 Hl2 Hc) as Hrun.
    cbv zeta in Hrun. split.
    + rewrite Hrun. simpl. split; [done|].
      intros Hex. apply conflicting_spec in Hex. congruence.
    + intros _. eexists _, _, _. split; [exact Hrun|]. simpl.
      split; [apply lookup_insert_eq|]. simpl. unfold or_dataset.
      repeat split.
      * by intros ->.
      * intros <-. by destruct (dataset p1) as [d|]; [destruct (truthy d)|].
      * intros d -> ->. done.
Qed.

(** C8.  [pipeline.name(args)] returns a new pipeline object whose action
    list is a new list object holding the old actions followed by one new
    dictionary with the name, the arguments and no probability or repeat
    count; afterwards the original pipeline reads the same actions as before,
    through a list object of its own, and every dictionary that existed
    before is unchanged. *)
Theorem call_action_copies h self p l nm a k :
  pipes h !! self = Some p → lists h !! _action_list p = Some l →
  _is_batch_method nm = true →
  ∃ new_p h' obj d self',
    call_action self nm a k h = (Return new_p, h')
    ∧ pipes h !! new_p = None
    ∧ pipes h' !! new_p = Some obj
    ∧ dataset obj = dataset p ∧ config obj = config p
    ∧ lists h' !! _action_list obj = Some (l ++ [d])
    ∧ dicts h !! d = None
    ∧ dicts h' !! d = Some (Action nm (Some a) (Some k) (Some None) (Some None) None)
    ∧ pipes h' !! self = Some self'
    ∧ dataset self' = dataset p ∧ config self' = config p
    ∧ lists h' !! _action_list self' = Some l
    ∧ _action_list self' ≠ _action_list obj
    ∧ lists h !! _action_list obj = None
    ∧ (∀ r v, dicts h !! r = Some v → dicts h' !! r = Some v).
Proof.
  intros Hp Hl Hnm.
  pose proof (call_action_run h self p l nm a k Hp Hl Hnm) as Hrun.
  cbv zeta in Hrun.
  set (d := fresh (dom (dicts h))) in *.
  set (lists1 := <[_action_list p := l ++ [d]]> (lists h)) in *.
  set (r' := fresh (dom lists1)) in *.
  set (np := fresh (dom (pipes h))) in *.
  set (lists2 := <[r' := l ++ [d]]> lists1) in *.
  set (r'' := fresh (dom lists2)) in *.
  assert (dicts h !! d = None) as Hd by apply fresh_unused.
  assert (pipes h !! np = None) as Hnp by apply fresh_unused.
  assert (lists1 !! r' = None) as Hr' by apply fresh_unused.
  assert (lists2 !! r'' = None) as Hr'' by apply fresh_unused.
  assert (np ≠ self) by (intros ->; congruence).
  assert (r'' ≠ r').
  { intros E. rewrite E in Hr''. subst lists2. by rewrite lookup_insert_eq in Hr''. }
  assert (lists h !! r' = None) as Hr'h.
  { destruct (decide (_action_list p = r')) as [E|E].
    - rewrite <- E in Hr'. subst lists1. by rewrite lookup_insert_eq in Hr'.
    - subst lists1. by rewrite lookup_insert_ne in Hr'. }
  eexists _, _, _, d, _. split; [exact Hrun|]. simpl.
  split; [done|].
  split; [rewrite lookup_insert_ne by done; apply lookup_insert_eq|]. simpl.
  split; [done|]. split; [done|].
  split; [rewrite lookup_insert_ne by done; subst lists2; apply lookup_insert_eq|].
  split; [done|].
  split; [apply lookup_insert_eq|].
  split; [apply lookup_insert_eq|]. simpl.
  split; [done|]. split; [done|].
  split; [apply lookup_insert_eq|].
  split; [done|]. split; [done|].
  intros r v Hr. assert (d ≠ r) by (intros ->; congruence).
  by rewrite !lookup_insert_ne.
Qed.

(** *** The operators *)


(** [self << other] *)
Definition __lshift__ (self : loc) (other : Dataset) : M loc :=
  let* new_p := from_pipeline self None None in
  let* p := read_pipe new_p in
  let* _ := write_pipe new_p (Pipeline (Some other) (config p) (_action_list p)) in
  ret new_p.

Lemma last_action_run h self p l d :
  pipes h !! self = Some p → lists h !! _action_list p = Some (l ++ [d]) →
  last_action self h = (Return d, h).
Proof.
  intros Hp Hl. unfold last_action.
  rewrite (bind_run _ _ _ _ _ (read_pipe_run _ _ _ Hp)).
  rewrite (bind_run _ _ _ _ _ (read_list_run _ _ _ Hl)).
  by rewrite last_snoc.
Qed.

Lemma get_last_action_proba_run h self p l d a v :
  pipes h !! self = Some p → lists h !! _action_list p = Some (l ++ [d]) →
  dicts h !! d = Some a → proba a = Some v →
  get_last_action_proba self h = (Return v, h).
Proof.
  intros Hp Hl Hd Hv. unfold get_last_action_proba.
  rewrite (bind_run _ _ _ _ _ (last_action_run _ _ _ _ _ Hp Hl)).
  rewrite (bind_run _ _ _ _ _ (read_dict_run _ _ _ Hd)).
  by rewrite Hv.
Qed.

Lemma get_last_action_repeat_run h self p l d a v :
  pipes h !! self = Some p → lists h !! _action_list p = Some (l ++ [d]) →
  dicts h !! d = Some a → repeat a = Some v →
  get_last_action_repeat self h = (Return v, h).
Proof.
  intros Hp Hl Hd Hv. unfold get_last_action_repeat.
  rewrite (bind_run _ _ _ _ _ (last_action_run _ _ _ _ _ Hp Hl)).
  rewrite (bind_run _ _ _ _ _ (read_dict_run _ _ _ Hd)).
  by rewrite Hv.
Qed.

(** X1.  [pipeline * n] on a pipeline with exactly one action that carries no
    probability returns a new pipeline whose list holds the very same action
    dictionary, and writes the product of [n] and the old repeat count ([n]
    when there was none) into that dictionary: the original pipeline, which
    still lists the dictionary, gets the new repeat count as well. *)
Theorem mul_tags_shared_action h self p d a (r : option Z) (n : Z) :
  pipes h !! self = Some p → lists h !! _action_list p = Some [d] →
  dicts h !! d = Some a → proba a = Some None → repeat a = Some r →
  (0 ≤ n)%Z →
  ∃ new_p h',
    __mul__ self n h = (Return new_p, h')
    ∧ pipes h !! new_p = None
    ∧ actions_of h' new_p = Some [d]
    ∧ actions_of h' self = Some [d]
    ∧ dicts h' !! d
      = Some (Action (name a) (args a) (kwargs a) (Some None)
                     (Some (Some (match r with Some k => n * k | None => n end)%Z))
                     (pipeline a)).
Proof.
  intros Hp Hl Hd Hpr Hrep Hn.
  set (r1 := fresh (dom (lists h))).
  set (np := fresh (dom (pipes h))).
  set (h1 := Heap (<[r1 := [d]]> (lists h)) (dicts h)
                  (<[np := Pipeline (dataset p) (config p) r1]> (pipes h))).
  assert (pipes h !! np = None) as Hnp by apply fresh_unused.
  assert (np ≠ self) as Hne by (intros ->; congruence).
  assert (r1 ≠ _action_list p) as Hr1 by (eapply fresh_differs; done).
  assert (pipes h1 !! np = Some (Pipeline (dataset p) (config p) r1)) as Hp1
    by apply lookup_insert_eq.
  assert (lists h1 !! r1 = Some ([] ++ [d])) as Hl1 by apply lookup_insert_eq.
  unfold __mul__. assert ((n <? 0)%Z = false) as -> by (apply Z.ltb_ge; lia).
  unfold from_pipeline.
  rewrite (bind_run _ _ _ _ _ (num_actions_run _ _ _ _ Hp Hl)). simpl.
  rewrite (bind_run _ _ _ _ _
             (get_last_action_proba_run _ _ _ [] _ _ _ Hp Hl Hd Hpr)).
  unfold __init__.
  rewrite (bind_run _ _ _ _ _ (read_pipe_run _ _ _ Hp)).
  rewrite (bind_run _ _ _ _ _ (read_list_run _ _ _ Hl)).
  unfold bind at 1, new_list at 1. fold r1.
  unfold bind at 1, new_pipe at 1. simpl. fold np. fold h1.
  rewrite (bind_run _ _ _ _ _ (num_actions_run _ _ _ _ Hp1 Hl1)). simpl.
  unfold bind at 1.
  rewrite (bind_run _ _ _ _ _
             (get_last_action_proba_run _ _ _ [] _ _ _ Hp1 Hl1 Hd Hpr)).
  rewrite (bind_run _ _ _ _ _
             (get_last_action_repeat_run _ _ _ [] _ _ _ Hp1 Hl1 Hd Hrep)).
  unfold set_last_repeat.
  rewrite (bind_run _ _ _ _ _ (last_action_run _ _ _ [] _ Hp1 Hl1)).
  rewrite (bind_run _ _ _ _ _ (read_dict_run h1 _ _ Hd)).
  unfold bind, write_dict, ret. simpl.
  eexists _, _. split; [reflexivity|]. split; [done|].
  unfold actions_of. simpl.
  split; [by rewrite lookup_insert_eq; simpl; rewrite lookup_insert_eq|].
  split.
  { rewrite lookup_insert_ne by done. rewrite Hp. simpl.
    by rewrite lookup_insert_ne. }
  rewrite lookup_insert_eq. rewrite Hpr. by destruct r.
Qed.

(** X2.  [pipeline * n] on a pipeline that has no action or more than one
    does not copy it: it returns a new pipeline bound to no dataset and no
    configuration whose single action is a nested-pipeline record that refers
    to the original and carries the repeat count; every list, dictionary and
    pipeline that existed before is left as it was. *)
Theorem mul_wraps_other_lengths h self p l (n : Z) :
  pipes h !! self = Some p → lists h !! _action_list p = Some l →
  length l ≠ 1 → (0 ≤ n)%Z →
  ∃ new_p h' obj d,
    __mul__ self n h = (Return new_p, h')
    ∧ pipes h !! new_p = None
    ∧ pipes h' !! new_p = Some obj
    ∧ dataset obj = None ∧ config obj = None
    ∧ lists h' !! _action_list obj = Some [d]
    ∧ dicts h !! d = None
    ∧ dicts h' !! d
      = Some (Action PIPELINE_ID None None (Some None) (Some (Some n)) (Some self))
    ∧ (∀ r v, pipes h !! r = Some v → pipes h' !! r = Some v)
    ∧ (∀ r v, lists h !! r = Some v → lists h' !! r = Some v)
    ∧ (∀ r v, dicts h !! r = Some v → dicts h' !! r = Some v).
Proof.
  intros Hp Hl Hlen Hn.
  set (r1 := fresh (dom (lists h))).
  set (np := fresh (dom (pipes h))).
  set (d := fresh (dom (dicts h))).
  assert (pipes h !! np = None) as Hnp by apply fresh_unused.
  assert (lists h !! r1 = None) as Hr1 by apply fresh_unused.
  assert (dicts h !! d = None) as Hd by apply fresh_unused.
  unfold __mul__. assert ((n <? 0)%Z = false) as -> by (apply Z.ltb_ge; lia).
  unfold from_pipeline.
  rewrite (bind_run _ _ _ _ _ (num_actions_run _ _ _ _ Hp Hl)).
  assert ((length l =? 1)%nat = false) as -> by by apply Nat.eqb_neq.
  unfold nest, __init__.
  unfold bind at 2, new_list at 1. fold r1.
  unfold bind at 1, new_pipe at 1. simpl. fold np.
  unfold append_pipeline.
  erewrite bind_run; last first.
  { erewrite bind_run; last first.
    { apply read_pipe_run. simpl. apply lookup_insert_eq. }
    unfold bind at 1, new_dict at 1. simpl. fold d.
    erewrite bind_run; last first.
    { apply read_list_run. simpl. apply lookup_insert_eq. }
    reflexivity. }
  unfold ret. simpl.
  eexists _, _, _, d. split; [reflexivity|]. simpl.
  split; [done|]. split; [apply lookup_insert_eq|]. simpl.
  split; [done|]. split; [done|].
  split; [apply lookup_insert_eq|]. split; [done|].
  split; [apply lookup_insert_eq|].
  split; [|split]; intros r v Hr.
  - assert (np ≠ r) by (intros E; rewrite E in Hnp; congruence).
    by rewrite lookup_insert_ne.
  - assert (r1 ≠ r) by (intros E; rewrite E in Hr1; congruence).
    by rewrite !lookup_insert_ne.
  - assert (d ≠ r) by (intros E; rewrite E in Hd; congruence).
    by rewrite lookup_insert_ne.
Qed.


(** X4.  [pipeline << dataset] returns a new pipeline object bound to the
    dataset, with the configuration and the actions of the original in a list
    object of its own; the original keeps its dataset, and nothing that
    existed before is changed. *)
Theorem lshift_rebinds_a_copy h self p l ds :
  pipes h !! self = Some p → lists h !! _action_list p = Some l →
  ∃ new_p h' obj,
    __lshift__ self ds h = (Return new_p, h')
    ∧ pipes h !! new_p = None
    ∧ pipes h' !! new_p = Some obj
    ∧ dataset obj = Some ds ∧ config obj = config p
    ∧ lists h !! _action_list obj = None
    ∧ lists h' !! _action_list obj = Some l
    ∧ pipes h' !! self = Some p
    ∧ lists h' !! _action_list p = Some l
    ∧ dicts h' = dicts h.
Proof.
  intros Hp Hl.
  assert (pipes h !! fresh (dom (pipes h)) = None) as Hnp by apply fresh_unused.
  assert (lists h !! fresh (dom (lists h)) = None) as Hr by apply fresh_unused.
  unfold __lshift__.
  rewrite (bind_run _ _ _ _ _ (copy_run _ _ _ _ Hp Hl)).
  erewrite bind_run; last first.
  { apply read_pipe_run. simpl. apply lookup_insert_eq. }
  unfold bind, write_pipe, ret. simpl.
  eexists _, _, _. split; [reflexivity|]. simpl.
  split; [done|]. split; [apply lookup_insert_eq|]. simpl.
  split; [done|]. split; [done|]. split; [done|].
  split; [apply lookup_insert_eq|].
  split; [|split; [|done]].
  - rewrite !lookup_insert_ne; [done|intros E; rewrite E in Hnp; congruence..].
  - rewrite lookup_insert_ne; [done|]. intros E. rewrite E in Hr. congruence.
Qed.

(** X5.  Looking up a batch method's name on a pipeline, without calling
    what comes back, already changes the pipeline: its list has one more
    action, a dictionary that holds the name and nothing else, so that
    reading the probability of the last action then raises [KeyError]. *)
Theorem getattr_leaves_half_made_action h self p l nm :
  pipes h !! self = Some p → lists h !! _action_list p = Some l →
  _is_batch_method nm = true →
  ∃ h' d,
    bind (__getattr__ self nm) (λ _, get_last_action_proba self) h
    = (Raise (KeyError "proba"), h')
    ∧ dicts h !! d = None
    ∧ dicts h' !! d = Some (Action nm None None None None None)
    ∧ actions_of h' self = Some (l ++ [d]).
Proof.
  intros Hp Hl Hnm.
  set (d := fresh (dom (dicts h))).
  assert (dicts h !! d = None) as Hd by apply fresh_unused.
  unfold __getattr__. rewrite Hnm.
  erewrite bind_run; last first.
  { rewrite (bind_run _ _ _ _ _ (read_pipe_run _ _ _ Hp)).
    unfold bind at 1, new_dict at 1. fold d.
    erewrite bind_run; last by apply read_list_run.
    reflexivity. }
  unfold get_last_action_proba.
  erewrite bind_run; last first.
  { eapply last_action_run; simpl; [done|]. apply lookup_insert_eq. }
  erewrite bind_run; last first.
  { apply read_dict_run. simpl. apply lookup_insert_eq. }
  simpl. eexists _, d. split; [reflexivity|]. simpl.
  split; [done|]. split; [apply lookup_insert_eq|].
  unfold actions_of. simpl. rewrite Hp. simpl. apply lookup_insert_eq.
Qed.

End Pipeline.

(** A store with three pipelines: pipeline 0 on dataset 5 with one action,
    pipeline 1 on no dataset with two actions, pipeline 2 on dataset 6 with
    none. *)
Definition sample_record (nm : string) : @action (list Z) unit QArith_base.Q :=
  Action nm (Some []) (Some ()) (Some None) (Some None) None.

Definition sample_heap : @heap nat unit (list Z) unit QArith_base.Q :=
  Heap (<[0 := [0]]> (<[1 := [1; 2]]> {[2 := []]}))
       (<[0 := sample_record "load"]>
          (<[1 := sample_record "crop"]> {[2 := sample_record "flip"]}))
       (<[0 := Pipeline (Some 5) None 0]>
          (<[1 := Pipeline None None 1]> {[2 := Pipeline (Some 6) None 2]})).

Definition always (_ : nat) : bool := true.
Definition any_name (_ : string) : bool := true.

Lemma concat_adds_lengths_witness :
  ∃ new_p h' obj l,
    concat always QArith_base.Qmult 0 1 sample_heap = (Return new_p, h')
    ∧ pipes h' !! new_p = Some obj
    ∧ lists h' !! _action_list obj = Some l
    ∧ l = [0] ++ [1; 2]
    ∧ length l = length [0] + length [1; 2]
    ∧ pipes h' !! 0 = Some (Pipeline (Some 5) None 0) ∧ lists h' !! 0 = Some [0]
    ∧ pipes h' !! 1 = Some (Pipeline None None 1) ∧ lists h' !! 1 = Some [1; 2]
    ∧ lists sample_heap !! _action_list obj = None
    ∧ dicts h' = dicts sample_heap.
Proof.
  exact (concat_adds_lengths always QArith_base.Qmult sample_heap 0 1
           (Pipeline (Some 5) None 0) (Pipeline None None 1) [0] [1; 2]
           eq_refl eq_refl eq_refl eq_refl eq_refl).
Defined.

(** A dataset class whose objects are falsy, as one with a length of 0. *)
Definition never (_ : nat) : bool := false.

Lemma concat_conflict_iff_witness :
  ∃ new_p h' obj,
    concat never QArith_base.Qmult 0 1 sample_heap = (Return new_p, h')
    ∧ pipes h' !! new_p = Some obj
    ∧ dataset (Pipeline (Some 5) (None : option unit) 0) = Some 5
    ∧ dataset obj = None.
Proof.
  destruct (proj2 (concat_conflict_iff never QArith_base.Qmult sample_heap 0 1
                     (Pipeline (Some 5) None 0) (Pipeline None None 1) [0] [1; 2]
                     eq_refl eq_refl eq_refl eq_refl))
    as (new_p & h' & obj & Hrun & Hobj & _ & _ & Hor).
  { right. left. reflexivity. }
  exists new_p, h', obj. split; [exact Hrun|]. split; [exact Hobj|].
  split; [reflexivity|]. exact (Hor 5 eq_refl eq_refl).
Defined.

Lemma call_action_copies_witness :
  ∃ new_p h' obj d self',
    call_action any_name QArith_base.Qmult 1 "resize" [3%Z] () sample_heap = (Return new_p, h')
    ∧ pipes sample_heap !! new_p = None
    ∧ pipes h' !! new_p = Some obj
    ∧ dataset obj = None ∧ config obj = None
    ∧ lists h' !! _action_list obj = Some ([1; 2] ++ [d])
    ∧ dicts sample_heap !! d = None
    ∧ dicts h' !! d
      = Some (Action "resize" (Some [3%Z]) (Some ()) (Some None) (Some None) None)
    ∧ pipes h' !! 1 = Some self'
    ∧ dataset self' = None ∧ config self' = None
    ∧ lists h' !! _action_list self' = Some [1; 2]
    ∧ _action_list self' ≠ _action_list obj
    ∧ lists sample_heap !! _action_list obj = None
    ∧ (∀ r v, dicts sample_heap !! r = Some v → dicts h' !! r = Some v).
Proof.
  exact (call_action_copies any_name QArith_base.Qmult sample_heap 1 (Pipeline None None 1)
           [1; 2] "resize" [3%Z] () eq_refl eq_refl eq_refl).
Defined.

(** What [pipeline * 0] stores: a repeat count of zero, which the guard in
    [__mul__] lets through. *)
Example mul_zero_records_zero :
  let '(r, h) := bind (__mul__ QArith_base.Qmult 0 0) (λ q, last_action q) sample_heap in
  r = Return 0 ∧ repeat <$> dicts h !! 0 = Some (Some (Some 0%Z)).
Proof. vm_compute. done. Qed.


Lemma mul_tags_shared_action_witness :
  ∃ new_p h',
    __mul__ QArith_base.Qmult 0 3 sample_heap = (Return new_p, h')
    ∧ pipes sample_heap !! new_p = None
    ∧ actions_of h' new_p = Some [0]
    ∧ actions_of h' 0 = Some [0]
    ∧ dicts h' !! 0
      = Some (Action "load" (Some []) (Some ()) (Some None) (Some (Some 3%Z)) None).
Proof.
  exact (mul_tags_shared_action QArith_base.Qmult sample_heap 0
           (Pipeline (Some 5) None 0) 0 (sample_record "load") None 3
           eq_refl eq_refl eq_refl eq_refl eq_refl ltac:(lia)).
Defined.

Lemma mul_wraps_other_lengths_witness :
  ∃ new_p h' obj d,
    __mul__ QArith_base.Qmult 1 2 sample_heap = (Return new_p, h')
    ∧ pipes sample_heap !! new_p = None
    ∧ pipes h' !! new_p = Some obj
    ∧ dataset obj = None ∧ config obj = None
    ∧ lists h' !! _action_list obj = Some [d]
    ∧ dicts sample_heap !! d = None
    ∧ dicts h' !! d
      = Some (Action PIPELINE_ID None None (Some None) (Some (Some 2%Z)) (Some 1))
    ∧ (∀ r v, pipes sample_heap !! r = Some v → pipes h' !! r = Some v)
    ∧ (∀ r v, lists sample_heap !! r = Some v → lists h' !! r = Some v)
    ∧ (∀ r v, dicts sample_heap !! r = Some v → dicts h' !! r = Some v).
Proof.
  exact (mul_wraps_other_lengths QArith_base.Qmult sample_heap 1
           (Pipeline None None 1) [1; 2] 2 eq_refl eq_refl ltac:(done) ltac:(lia)).
Defined.


Lemma lshift_rebinds_a_copy_witness :
  ∃ new_p h' obj,
    __lshift__ QArith_base.Qmult 1 9 sample_heap = (Return new_p, h')
    ∧ pipes sample_heap !! new_p = None
    ∧ pipes h' !! new_p = Some obj
    ∧ dataset obj = Some 9 ∧ config obj = None
    ∧ lists sample_heap !! _action_list obj = None
    ∧ lists h' !! _action_list obj = Some [1; 2]
    ∧ pipes h' !! 1 = Some (Pipeline None None 1)
    ∧ lists h' !! 1 = Some [1; 2]
    ∧ dicts h' = dicts sample_heap.
Proof.
  exact (lshift_rebinds_a_copy QArith_base.Qmult sample_heap 1
           (Pipeline None None 1) [1; 2] 9 eq_refl eq_refl).
Defined.

Lemma getattr_leaves_half_made_action_witness :
  ∃ h' d,
    bind (__getattr__ any_name 1 "crop") (λ _, get_last_action_proba 1) sample_heap
    = (Raise (KeyError "proba"), h')
    ∧ dicts sample_heap !! d = None
    ∧ dicts h' !! d = Some (Action "crop" None None None None None)
    ∧ actions_of h' 1 = Some ([1; 2] ++ [d]).
Proof.
  exact (getattr_leaves_half_made_action any_name sample_heap 1
           (Pipeline None None 1) [1; 2] "crop" eq_refl eq_refl eq_refl).
Defined.

End Chain.

(** ** Executing one action ([Pipeline._needs_exec], [Pipeline._exec_one_action]) *)

Module Exec.
Import Chain.

Section Executor.
Context {Batch Args Kwargs Proba Rng : Type}.

(** [np.random.binomial(n, p)] on the generator's state; the lookup of the
    action method on a batch, which returns the bound method or raises (the
    batch classes are not among the sources); and [batch.pipeline = self]. *)
Variable binomial : Z → Proba → Rng → Z * Rng.
Variable _get_action_method : Batch → string → result (Args → Kwargs → result Batch).
Variable set_pipeline : Batch → Batch.

(** The generator, the probabilities of the trials drawn so far, and the
    method invocations made so far (name and receiving batch). *)
Record world := World {
  rng : Rng;
  trials : list Proba;
  calls : list (string * Batch) }.

Definition _needs_exec (a : @action Args Kwargs Proba) (w : world)
  : result bool * world :=
  match proba a with
  | None => (Raise (KeyError "proba"), w)
  | Some None => (Return true, w)
  | Some (Some p) =>
      let '(k, g) := binomial 1 p (rng w) in
      (Return (k =? 1)%Z, World g (trials w ++ [p]) (calls w))
  end.

(** [action['repeat'] or 1]: [None] and [0] are both falsy. *)
Definition repeat_or_1 (r : option Z) : Z :=
  match r with
  | Some n => if (n =? 0)%Z then 1%Z else n
  | None => 1%Z
  end.

(** The body of [for _ in range(n)]. *)
Fixpoint repeat_loop (n : nat) (nm : string) (a : Args) (k : Kwargs)
    (batch : Batch) (w : world) : result Batch * world :=
  match n with
  | O => (Return batch, w)
  | S n' =>
      let batch := set_pipeline batch in
      match _get_action_method batch nm with
      | Raise e => (Raise e, w)
      | Return action_method =>
          let w := World (rng w) (trials w) (calls w ++ [(nm, batch)]) in
          match action_method a k with
          | Raise e => (Raise e, w)
          | Return batch => repeat_loop n' nm a k (set_pipeline batch) w
          end
      end
  end.

Definition _exec_one_action (batch : Batch) (act : @action Args Kwargs Proba)
    (a : Args) (k : Kwargs) (w : world) : result Batch * world :=
  match _needs_exec act w with
  | (Raise e, w) => (Raise e, w)
  | (Return false, w) => (Return batch, w)
  | (Return true, w) =>
      match repeat act with
      | None => (Raise (KeyError "repeat"), w)
      | Some r => repeat_loop (Z.to_nat (repeat_or_1 r)) (name act) a k batch w
      end
  end.

(** *** The gate *)

Lemma needs_exec_always a w :
  proba a = Some None → _needs_exec a w = (Return true, w).
Proof. unfold _needs_exec. by intros ->. Qed.

Lemma needs_exec_one_trial a w p :
  proba a = Some (Some p) →
  _needs_exec a w
  = (Return ((binomial 1 p (rng w)).1 =? 1)%Z,
     World (binomial 1 p (rng w)).2 (trials w ++ [p]) (calls w)).
Proof. unfold _needs_exec. intros ->. by destruct (binomial 1 p (rng w)). Qed.

(** *** The repetition *)

Lemma repeat_loop_calls n nm a k batch w :
  let '(r, w') := repeat_loop n nm a k batch w in
  rng w' = rng w ∧ trials w' = trials w
  ∧ match r with
    | Return _ => length (calls w') = length (calls w) + n
    | Raise _ => (length (calls w') ≤ length (calls w) + n)%nat
    end.
Proof.
  revert batch w. induction n as [|n IH]; intros batch w; simpl.
  - repeat split; lia.
  - destruct (_get_action_method (set_pipeline batch) nm) as [m|e]; simpl.
    2: { repeat split; lia. }
    destruct (m a k) as [b|e]; simpl.
    2: { repeat split; rewrite ?length_app; simpl; lia. }
    specialize (IH (set_pipeline b)
                  (World (rng w) (trials w) (calls w ++ [(nm, set_pipeline batch)]))).
    destruct (repeat_loop n nm a k (set_pipeline b) _) as [r w'].
    simpl in IH. destruct IH as (-> & -> & IH). repeat split.
    destruct r; rewrite length_app in IH; simpl in IH; lia.
Qed.

(** An action with no probability and a positive repeat count [n] that runs
    to the end has invoked its method exactly [n] times, with no trial. *)
Lemma exec_positive_repeat batch act a k w (n : Z) b' w' :
  proba act = Some None → repeat act = Some (Some n) → (0 < n)%Z →
  _exec_one_action batch act a k w = (Return b', w') →
  length (calls w') = length (calls w) + Z.to_nat n ∧ trials w' = trials w.
Proof.
  intros Hp Hr Hn. unfold _exec_one_action.
  rewrite (needs_exec_always _ _ Hp), Hr. simpl.
  assert ((n =? 0)%Z = false) as -> by (apply Z.eqb_neq; lia).
  pose proof (repeat_loop_calls (Z.to_nat n) (name act) a k batch w) as H.
  destruct (repeat_loop _ _ _ _ _ _) as [r w0]. intros [= -> ->].
  destruct H as (_ & ? & ?). done.
Qed.

(** With no repeat count ([None]) the method is invoked once. *)
Lemma exec_default_repeat batch act a k w b' w' :
  proba act = Some None → repeat act = Some None →
  _exec_one_action batch act a k w = (Return b', w') →
  length (calls w') = length (calls w) + 1 ∧ trials w' = trials w.
Proof.
  intros Hp Hr. unfold _exec_one_action.
  rewrite (needs_exec_always _ _ Hp), Hr.
  pose proof (repeat_loop_calls 1 (name act) a k batch w) as H.
  change (Z.to_nat (repeat_or_1 None)) with 1%nat.
  destruct (repeat_loop _ _ _ _ _ _) as [r w0]. intros [= -> ->].
  destruct H as (_ & ? & ?). done.
Qed.

(** A failed trial leaves the batch as it is and invokes nothing. *)
Lemma exec_gate_closed batch act a k w p :
  proba act = Some (Some p) → (binomial 1 p (rng w)).1 ≠ 1%Z →
  _exec_one_action batch act a k w
  = (Return batch, World (binomial 1 p (rng w)).2 (trials w ++ [p]) (calls w)).
Proof.
  intros Hp Hk. unfold _exec_one_action.
  rewrite (needs_exec_one_trial _ _ _ Hp).
  by assert (((binomial 1 p (rng w)).1 =? 1)%Z = false) as -> by by apply Z.eqb_neq.
Qed.

End Executor.

(** A batch that counts how often [bump] was applied to it, and a generator
    that replays a given list of outcomes. *)
Definition replay (_ : Z) (_ : QArith_base.Q) (g : list Z) : Z * list Z :=
  match g with
  | x :: g' => (x, g')
  | [] => (0%Z, [])
  end.

Definition counter_methods (b : nat) (nm : string)
  : result (list Z → unit → result nat) :=
  if (nm =? "bump")%string then Return (λ _ _, Return (S b))
  else Raise (AttributeError nm).

Definition bump (rep : option Z) : @action (list Z) unit QArith_base.Q :=
  Action "bump" (Some []) (Some ()) (Some None) (Some rep) None.

Definition fresh_world : @world nat QArith_base.Q (list Z) := World [] [] [].

(** C2 (the code departs from the specification at a repeat count of zero).  With no
    probability, a repeat count of 5 invokes the method five times and [None]
    invokes it once, without any trial; but a repeat count of 0, which
    [pipeline * 0] records, also invokes it once, because the loop bound is
    [action['repeat'] or 1]. *)
Theorem repeat_zero_runs_once :
  _exec_one_action replay counter_methods id 0 (bump (Some 5%Z)) [] () fresh_world
    = (Return 5,
       World [] [] [("bump", 0); ("bump", 1); ("bump", 2); ("bump", 3); ("bump", 4)])
  ∧ _exec_one_action replay counter_methods id 0 (bump None) [] () fresh_world
    = (Return 1, World [] [] [("bump", 0)])
  ∧ _exec_one_action replay counter_methods id 0 (bump (Some 0%Z)) [] () fresh_world
    = (Return 1, World [] [] [("bump", 0)]).
Proof. repeat split. Qed.

End Exec.

(** ** In-batch parallelism ([inbatch_parallel]): aggregation and the ['for'] target *)

Module Parallel.
Section Dispatcher.
Context {Self Arg Val PostResult : Type}.

(** One entry of [all_results]: a value, or an exception object. *)
Inductive outcome :=
| Value (v : Val)
| Captured (e : exn).

(** One entry of [futures]: a [cf.Future] or [asyncio.Task], whose [result()]
    returns or raises, or any other object, which is taken as it is. *)
Inductive future :=
| Handle (r : result Val)
| Object (o : outcome).

(** What [init] yields for one unit of work: a 2-tuple, taken as positional
    and keyword arguments whatever its members are; a dictionary, taken as
    keyword arguments; or anything else, taken as positional arguments.
    Positional arguments are a list or tuple or else a single object.  A
    dictionary has string keys only, or some key that is not a string: then
    [update] still works on it and passing it with two stars raises
    [TypeError].  The second member of a 2-tuple may also be no dictionary at
    all (a number, a string, a list, [None]): it has no [update] and is no
    mapping. *)
Inductive positional :=
| Sequence (l : list Arg)
| Single (a : Arg).

Inductive dictionary :=
| StringKeyed (m : gmap string Arg)
| OddKeyed (o : Arg).

Inductive keywords :=
| IsDict (d : dictionary)
| NotDict (o : Arg).

Inductive bundle :=
| Pair (margs : positional) (mkwargs : keywords)
| Keywords (mkwargs : dictionary)
| Positional (margs : positional).

(** What the decorated method returns: a value, or a callable that is then
    called on the same arguments. *)
Inductive returned :=
| Plain (v : Val)
| Callable (f : list Arg → gmap string Arg → result Val).

Inductive init_hook :=
| InitCallable (f : list Arg → gmap string Arg → result (list bundle))
| InitValue (l : list bundle).

Definition post_hook : Type :=
  list outcome → list Arg → gmap string Arg → result PostResult.

Inductive output :=
| PrintErrors (all_errors : list exn)
| PrintTb (e : exn).

(** The decorated method, the lookup of the [init] and [post] attributes on
    the object (it raises [ValueError] when one is missing), and the keyword
    arguments given to the decorator. *)
Variable method : Self → list Arg → gmap string Arg → result returned.
Variable _check_functions : Self → result (init_hook * option post_hook).
Variable dec_kwargs : gmap string Arg.

Definition _call_init_fn (init_fn : init_hook) (args : list Arg)
    (kwargs : gmap string Arg) : result (list bundle) :=
  match init_fn with
  | InitCallable f => f args kwargs
  | InitValue l => Return l
  end.

Definition is_exception (o : outcome) : bool :=
  match o with Captured _ => true | Value _ => false end.

Definition any_action_failed (results : list outcome) : bool :=
  existsb is_exception results.

(** The [try] statement in the loop of [_call_post_fn]. *)
Definition resolve (f : future) : outcome :=
  match f with
  | Handle (Return v) => Value v
  | Handle (Raise e) => Captured e
  | Object o => o
  end.

Definition gather (futures : list future) : list outcome :=
  fold_left (λ all_results f, all_results ++ [resolve f]) futures [].

(** [[error for error in all_results if isinstance(error, Exception)]] *)
Definition errors_of (all_results : list outcome) : list exn :=
  omap (λ o, match o with Captured e => Some e | Value _ => None end) all_results.

Definition _call_post_fn (self : Self) (post_fn : option post_hook)
    (futures : list future) (args : list Arg) (kwargs : gmap string Arg)
  : list output * result (Self + PostResult) :=
  let all_results := gather futures in
  match post_fn with
  | None =>
      if any_action_failed all_results then
        let all_errors := errors_of all_results in
        match all_errors with
        | e :: _ => ([PrintErrors all_errors; PrintTb e], Return (inl self))
        | [] => ([PrintErrors all_errors], Raise IndexError)
        end
      else ([], Return (inl self))
  | Some post =>
      ([], match post all_results args kwargs with
           | Return r => Return (inr r)
           | Raise e => Raise e
           end)
  end.

(** [_make_args]: [mkwargs.update(kwargs)] raises [AttributeError] on an
    object that is no dictionary. *)
Definition _make_args (init_args : bundle) (args : list Arg)
    (kwargs : gmap string Arg) : result (list Arg * keywords) :=
  let '(margs, mkwargs) :=
    match init_args with
    | Pair m k => (m, k)
    | Keywords d => (Sequence [], IsDict d)
    | Positional m => (m, IsDict (StringKeyed ∅))
    end in
  let margs := match margs with Sequence l => l | Single a => [a] end in
  let margs := if (0 <? length args)%nat then margs ++ args else margs in
  if (0 <? size kwargs)%nat then
    match mkwargs with
    | IsDict (StringKeyed m) => Return (margs, IsDict (StringKeyed (kwargs ∪ m)))
    | IsDict (OddKeyed o) => Return (margs, IsDict (OddKeyed o))
    | NotDict o => Raise (AttributeError "update")
    end
  else Return (margs, mkwargs).

(** What a call with [*margs, **mkwargs] raises before the callee is entered,
    if [mkwargs] cannot be passed as keyword arguments. *)
Definition unpack (mkwargs : keywords) : result (gmap string Arg) :=
  match mkwargs with
  | IsDict (StringKeyed m) => Return m
  | IsDict (OddKeyed _) => Raise (TypeError "keywords must be strings")
  | NotDict _ => Raise (TypeError "argument after ** must be a mapping")
  end.

(** The [try] statement in the loop of [wrap_with_for]. *)
Definition run_bundle (self : Self) (margs : list Arg) (mkwargs : keywords)
  : outcome :=
  match unpack mkwargs with
  | Raise e => Captured e
  | Return m =>
      match method self margs m with
      | Raise e => Captured e
      | Return (Plain v) => Value v
      | Return (Callable f) =>
          match f margs m with
          | Return v => Value v
          | Raise e => Captured e
          end
      end
  end.

(** The invocation of the method that [run_bundle] makes, if it makes one. *)
Definition called (margs : list Arg) (mkwargs : keywords)
  : list (list Arg * gmap string Arg) :=
  match unpack mkwargs with
  | Return m => [(margs, m)]
  | Raise _ => []
  end.

(** The loop of [wrap_with_for]: [futures] as appended to, and the arguments
    of each invocation of the method, in the order made. *)
Record progress := Progress {
  futures : list future;
  invoked : list (list Arg * gmap string Arg) }.

(** [_make_args] stands before the [try]: what it raises ends the loop and
    leaves [wrap_with_for]. *)
Fixpoint for_loop (self : Self) (args : list Arg) (kwargs : gmap string Arg)
    (bundles : list bundle) (st : progress) : progress * option exn :=
  match bundles with
  | [] => (st, None)
  | arg :: rest =>
      match _make_args arg args kwargs with
      | Raise e => (st, Some e)
      | Return (margs, mkwargs) =>
          for_loop self args kwargs rest
            (Progress (futures st ++ [Object (run_bundle self margs mkwargs)])
                      (invoked st ++ called margs mkwargs))
      end
  end.

Definition wrap_with_for (self : Self) (args : list Arg) (kwargs : gmap string Arg)
  : list output * result (Self + PostResult) :=
  match _check_functions self with
  | Raise e => ([], Raise e)
  | Return (init_fn, post_fn) =>
      let kwargs := delete "n_workers" kwargs in
      let full_kwargs := dec_kwargs ∪ kwargs in
      match _call_init_fn init_fn args full_kwargs with
      | Raise e => ([], Raise e)
      | Return bundles =>
          match for_loop self args kwargs bundles (Progress [] []) with
          | (_, Some e) => ([], Raise e)
          | (st, None) => _call_post_fn self post_fn (futures st) args full_kwargs
          end
      end
  end.

(** *** Aggregation *)

Lemma gather_from acc fs :
  fold_left (λ all_results f, all_results ++ [resolve f]) fs acc
  = acc ++ map resolve fs.
Proof.
  revert acc. induction fs as [|f fs IH]; intros acc; simpl.
  - by rewrite app_nil_r.
  - rewrite IH. by rewrite <- app_assoc.
Qed.

Lemma gather_map fs : gather fs = map resolve fs.
Proof. unfold gather. by rewrite gather_from. Qed.

Lemma failed_has_error results :
  any_action_failed results = true → ∃ e rest, errors_of results = e :: rest.
Proof.
  induction results as [|[v|e] results IH]; simpl; [done| |eauto].
  intros H. apply IH in H as (e & rest & ->). eauto.
Qed.

Lemma no_failure_no_error results :
  any_action_failed results = false → errors_of results = [].
Proof.
  induction results as [|[v|e] results IH]; simpl; [done| |done].
  intros H. by rewrite IH.
Qed.

(** C4.  Without a [post] hook the aggregation returns the object itself and
    never raises; when some result is an exception it prints the list of all
    exceptions among the results and then the traceback of the first one, and
    otherwise prints nothing. *)
Theorem default_post_returns_self self fs args kwargs :
  ∃ out,
    _call_post_fn self None fs args kwargs = (out, Return (inl self))
    ∧ (any_action_failed (map resolve fs) = true →
       ∃ e rest, errors_of (map resolve fs) = e :: rest
                 ∧ out = [PrintErrors (e :: rest); PrintTb e])
    ∧ (any_action_failed (map resolve fs) = false → out = []).
Proof.
  unfold _call_post_fn. rewrite gather_map.
  destruct (any_action_failed (map resolve fs)) eqn:Hf.
  - destruct (failed_has_error _ Hf) as (e & rest & He). rewrite He.
    eexists. split; [done|]. split; [|done]. intros _. by exists e, rest.
  - eexists. split; [done|]. by split.
Qed.

(** *** The sequential target *)

(** The arguments of a bundle, when they can be prepared and passed. *)
Definition prepared (args : list Arg) (kwargs : gmap string Arg) (b : bundle)
  : option (list Arg * gmap string Arg) :=
  match _make_args b args kwargs with
  | Return (margs, mkwargs) =>
      match unpack mkwargs with
      | Return m => Some (margs, m)
      | Raise _ => None
      end
  | Raise _ => None
  end.

Definition result_of (self : Self) (args : list Arg) (kwargs : gmap string Arg)
    (b : bundle) : outcome :=
  match _make_args b args kwargs with
  | Return (margs, mkwargs) => run_bundle self margs mkwargs
  | Raise e => Captured e
  end.

Lemma for_loop_results self args kwargs bundles st :
  (∀ b, b ∈ bundles → ∃ p, _make_args b args kwargs = Return p) →
  for_loop self args kwargs bundles st
  = (Progress (futures st ++ map (λ b, Object (result_of self args kwargs b)) bundles)
              (invoked st ++ omap (prepared args kwargs) bundles),
     None).
Proof.
  revert st. induction bundles as [|b bundles IH]; intros st Hall; simpl.
  - rewrite !app_nil_r. by destruct st.
  - destruct (Hall b) as [[margs mkwargs] Hb]; [left|].
    unfold result_of, prepared, called. rewrite Hb.
    rewrite IH by (intros b' Hb'; apply Hall; by right). simpl.
    rewrite <- !app_assoc. simpl.
    by destruct (unpack mkwargs).
Qed.

(** The loop stops at the first bundle whose arguments cannot be prepared:
    the bundles before it have run, no later one does. *)
Lemma for_loop_aborts self args kwargs before b after e st :
  (∀ b', b' ∈ before → ∃ p, _make_args b' args kwargs = Return p) →
  _make_args b args kwargs = Raise e →
  for_loop self args kwargs (before ++ b :: after) st
  = (Progress (futures st ++ map (λ b, Object (result_of self args kwargs b)) before)
              (invoked st ++ omap (prepared args kwargs) before),
     Some e).
Proof.
  revert st. induction before as [|b0 before IH]; intros st Hall Hb; simpl.
  - rewrite Hb, !app_nil_r. by destruct st.
  - destruct (Hall b0) as [[margs mkwargs] Hb0]; [left|].
    rewrite Hb0, IH by (try done; intros b' Hb'; apply Hall; by right). simpl.
    rewrite <- !app_assoc. simpl. unfold result_of, prepared, called. rewrite Hb0.
    by destruct (unpack mkwargs).
Qed.

(** C5 (as amended).  With the ['for'] target, when the arguments of every
    bundle that [init] produced can be prepared, every bundle is run in the
    order produced, whether or not earlier ones raised: the method is invoked
    for each bundle whose keyword arguments can be passed, the results handed
    to aggregation have one entry per bundle, in the same order, and the
    entry of a bundle whose invocation raised is the exception itself. *)
Theorem for_target_keeps_shape self args kwargs init_fn post_fn bundles :
  let popped := delete "n_workers" kwargs in
  let full_kwargs := dec_kwargs ∪ popped in
  _check_functions self = Return (init_fn, post_fn) →
  _call_init_fn init_fn args full_kwargs = Return bundles →
  (∀ b, b ∈ bundles → ∃ p, _make_args b args popped = Return p) →
  let run := (for_loop self args popped bundles (Progress [] [])).1 in
  let all_results := gather (futures run) in
  wrap_with_for self args kwargs
    = _call_post_fn self post_fn (futures run) args full_kwargs
  ∧ invoked run = omap (prepared args popped) bundles
  ∧ length all_results = length bundles
  ∧ (∀ i b, bundles !! i = Some b →
       all_results !! i = Some (result_of self args popped b)
       ∧ ∀ margs m e, prepared args popped b = Some (margs, m) →
                      method self margs m = Raise e →
                      all_results !! i = Some (Captured e))
  ∧ (∀ post, post_fn = Some post →
       wrap_with_for self args kwargs
       = ([], match post (map (result_of self args popped) bundles) args
                         full_kwargs with
              | Return r => Return (inr r)
              | Raise e => Raise e
              end)).
Proof.
  intros popped full_kwargs Hcheck Hinit Hprep run all_results.
  pose proof (for_loop_results self args popped bundles (Progress [] []) Hprep) as Hloop.
  simpl in Hloop.
  assert (Hres : all_results = map (result_of self args popped) bundles).
  { subst all_results run. rewrite Hloop. simpl. by rewrite gather_map, map_map. }
  assert (wrap_with_for self args kwargs
          = _call_post_fn self post_fn (futures run) args full_kwargs) as Hwrap.
  { unfold wrap_with_for. rewrite Hcheck. cbv zeta.
    fold popped. fold full_kwargs. rewrite Hinit. subst run. by rewrite Hloop. }
  split; [done|].
  split; [subst run; by rewrite Hloop|].
  split; [by rewrite Hres, length_map|].
  split.
  - intros i b Hb.
    assert (all_results !! i = Some (result_of self args popped b)) as Hi.
    { rewrite Hres, list_lookup_fmap, Hb. done. }
    split; [done|]. intros margs m e Hp He. rewrite Hi. f_equal.
    unfold prepared in Hp. unfold result_of, run_bundle.
    destruct (_make_args b args popped) as [[margs' mkwargs]|]; [|done].
    destruct (unpack mkwargs) as [m'|]; [|done].
    injection Hp as -> ->. by rewrite He.
  - intros post ->. rewrite Hwrap. unfold _call_post_fn.
    fold all_results. by rewrite Hres.
Qed.

(** *** The thread targets and the choice of the engine *)

(** A callable that is handed on as a result is an object like any other;
    creating the thread pool with the [n_workers] of the call, if any, and
    waiting with its [timeout], if any, raise for a value that the library
    rejects. *)
Variable reify : (list Arg → gmap string Arg → result Val) → Val.
Variable executor_for : option Arg → result unit.
Variable wait_for : option Arg → result unit.

(** [executor.submit(method, self, *margs, **mkwargs)]: the future resolves to
    whatever the call returns, a callable included, or raises what it raised. *)
Definition submit_method (self : Self) (margs : list Arg) (m : gmap string Arg)
  : future :=
  Handle (match method self margs m with
          | Return (Plain v) => Return v
          | Return (Callable f) => Return (reify f)
          | Raise e => Raise e
          end).

(** [executor.submit(nogil_fn, *margs, **mkwargs)] *)
Definition submit_returned (nogil_fn : returned) (margs : list Arg)
    (m : gmap string Arg) : future :=
  Handle (match nogil_fn with
          | Callable f => f margs m
          | Plain _ => Raise (TypeError "object is not callable")
          end).

(** The loop that submits one future per bundle.  Both [_make_args] and the
    call of [submit] with two stars stand in the calling thread: what either
    raises leaves [wrap_with_threads]. *)
Fixpoint submit_all (self : Self) (nogil_fn : option returned) (args : list Arg)
    (kwargs : gmap string Arg) (bundles : list bundle) (futures : list future)
  : result (list future) :=
  match bundles with
  | [] => Return futures
  | arg :: rest =>
      match _make_args arg args kwargs with
      | Raise e => Raise e
      | Return (margs, mkwargs) =>
          match unpack mkwargs with
          | Raise e => Raise e
          | Return m =>
              submit_all self nogil_fn args kwargs rest
                (futures ++ [match nogil_fn with
                             | Some fn => submit_returned fn margs m
                             | None => submit_method self margs m
                             end])
          end
      end
  end.

Definition wrap_with_threads (self : Self) (args : list Arg)
    (kwargs : gmap string Arg) (nogil : bool)
  : list output * result (Self + PostResult) :=
  match _check_functions self with
  | Raise e => ([], Raise e)
  | Return (init_fn, post_fn) =>
      let n_workers := kwargs !! "n_workers" in
      let kwargs := delete "n_workers" kwargs in
      match executor_for n_workers with
      | Raise e => ([], Raise e)
      | Return _ =>
          match (if nogil
                 then match method self args kwargs with
                      | Return fn => Return (Some fn)
                      | Raise e => Raise e
                      end
                 else Return None) with
          | Raise e => ([], Raise e)
          | Return nogil_fn =>
              let full_kwargs := dec_kwargs ∪ kwargs in
              match _call_init_fn init_fn args full_kwargs with
              | Raise e => ([], Raise e)
              | Return bundles =>
                  match submit_all self nogil_fn args kwargs bundles [] with
                  | Raise e => ([], Raise e)
                  | Return futures =>
                      match wait_for (kwargs !! "timeout") with
                      | Raise e => ([], Raise e)
                      | Return _ =>
                          _call_post_fn self post_fn futures args full_kwargs
                      end
                  end
              end
          end
      end
  end.

(** The targets that [inbatch_parallel] accepts when the decorator is
    applied. *)
Definition accepted_targets : list string :=
  ["nogil"; "threads"; "mpc"; "async"; "for"; "t"; "m"; "a"; "f"].

Definition inbatch_parallel (target : string) : result unit :=
  if bool_decide (target ∈ accepted_targets) then Return ()
  else Raise (ValueError "target should be one of 'threads', 'mpc', 'async', 'for'").

Inductive engine :=
| Async
| Threads (nogil : bool)
| Mpc
| For.

(** The branches of [wrapped_method], by the wrapper that each one calls;
    [is_coroutine] is [asyncio.iscoroutinefunction(method)]. *)
Definition wrapped_method (is_coroutine : bool) (target : string) : result engine :=
  if is_coroutine || bool_decide (target = "async") then Return Async
  else if bool_decide (target ∈ ["threads"; "t"]) then Return (Threads false)
  else if bool_decide (target = "nogil") then Return (Threads true)
  else if bool_decide (target ∈ ["mpc"; "m"]) then Return Mpc
  else if bool_decide (target ∈ ["for"; "f"]) then Return For
  else Raise (ValueError "Wrong parallelization target:").

Lemma post_fn_sees_results self post_fn fs fs' args kwargs :
  map resolve fs = map resolve fs' →
  _call_post_fn self post_fn fs args kwargs = _call_post_fn self post_fn fs' args kwargs.
Proof. intros H. unfold _call_post_fn. rewrite !gather_map, H. reflexivity. Qed.

(** X22.  The decorator accepts the target ['a'], but a call of a method
    decorated with it is rejected: among the accepted targets, ['a'] is the
    only one for which a call of a method that is not a coroutine function
    raises the wrong-target [ValueError] instead of choosing an engine. A
    coroutine function always runs on the async engine. *)
Theorem target_a_accepted_then_rejected (target : string) :
  inbatch_parallel target = Return () →
  (wrapped_method false target = Raise (ValueError "Wrong parallelization target:")
   ↔ target = "a")
  ∧ (target ≠ "a" → ∃ e, wrapped_method false target = Return e)
  ∧ wrapped_method true target = Return Async.
Proof.
  unfold inbatch_parallel. destruct (bool_decide _) eqn:Hin; [|discriminate].
  intros _. apply bool_decide_eq_true in Hin. unfold accepted_targets in Hin.
  repeat (apply elem_of_cons in Hin as [-> | Hin]);
    [..|by apply elem_of_nil in Hin];
    (split; [split; [intros H; vm_compute in H; congruence
                    |intros H; try discriminate; reflexivity]
            |split; [intros H; try congruence; eexists; reflexivity
                    |reflexivity]]).
Qed.

(** The futures submitted for bundles whose arguments can all be prepared
    and passed. *)
Lemma submit_all_prepared self nogil_fn args kwargs bundles fs :
  (∀ b, b ∈ bundles → is_Some (prepared args kwargs b)) →
  submit_all self nogil_fn args kwargs bundles fs
  = Return (fs ++ omap (λ b, '(margs, m) ← prepared args kwargs b;
                             Some (match nogil_fn with
                                   | Some fn => submit_returned fn margs m
                                   | None => submit_method self margs m
                                   end)) bundles)
  ∧ length (omap (λ b, '(margs, m) ← prepared args kwargs b;
                       Some (match nogil_fn with
                             | Some fn => submit_returned fn margs m
                             | None => submit_method self margs m
                             end)) bundles) = length bundles.
Proof.
  revert fs. induction bundles as [|b bundles IH]; intros fs Hall; simpl.
  - by rewrite app_nil_r.
  - destruct (Hall b) as [[margs m] Hb]; [left|].
    destruct (IH (fs ++ [match nogil_fn with
                         | Some fn => submit_returned fn margs m
                         | None => submit_method self margs m
                         end])) as [Hrun Hlen].
    { intros b' Hb'. apply Hall. by right. }
    assert (∃ mkwargs, _make_args b args kwargs = Return (margs, mkwargs)
                       ∧ unpack mkwargs = Return m) as (mkwargs & Hmk & Hun).
    { unfold prepared in Hb.
      destruct (_make_args b args kwargs) as [[margs' mkwargs]|]; [|done].
      destruct (unpack mkwargs) as [m'|] eqn:Hun; [|done].
      injection Hb as -> ->. eauto. }
    rewrite Hmk, Hun, Hb. simpl. rewrite Hrun, <- app_assoc. simpl.
    split; [done|]. f_equal. exact Hlen.
Qed.

(** The two loops agree bundle by bundle, unless a bundle's arguments are
    prepared but cannot be passed. *)
Lemma threads_track_for self args kwargs bundles fs st :
  (∀ f margs m, method self margs m ≠ Return (Callable f)) →
  (∀ b margs k, b ∈ bundles → _make_args b args kwargs = Return (margs, k) →
                ∃ m, unpack k = Return m) →
  map resolve fs = map resolve (futures st) →
  match for_loop self args kwargs bundles st with
  | (_, Some e) => submit_all self None args kwargs bundles fs = Raise e
  | (st', None) =>
      ∃ fs', submit_all self None args kwargs bundles fs = Return fs'
             ∧ map resolve fs' = map resolve (futures st')
  end.
Proof.
  intros Hplain. revert fs st.
  induction bundles as [|b bundles IH]; intros fs st Hfit Heq; simpl.
  - eauto.
  - destruct (_make_args b args kwargs) as [[margs mkwargs]|e] eqn:Hb; [|done].
    destruct (Hfit b margs mkwargs) as [m Hm]; [left|done|]. rewrite Hm.
    apply IH.
    + intros b' margs' k Hb'. apply Hfit. by right.
    + simpl. rewrite !map_app, Heq. simpl. do 2 f_equal.
      unfold run_bundle. rewrite Hm.
      specialize (Hplain) as Hp.
      destruct (method self margs m) as [[v|f]|e'] eqn:Hcall; [done| |done].
      exfalso. by apply (Hp f margs m).
Qed.

(** X23.  When the pool can be created and waited for, the method never
    returns a callable, and the keyword arguments of every bundle that can
    be prepared are a dictionary with string keys, the ['threads'] target
    gives exactly what the ['for'] target gives: the same results reach the
    aggregation in the same order, or the same exception leaves the call,
    so the same value is returned and the same is printed. *)
Theorem threads_agree_with_for self args kwargs :
  executor_for (kwargs !! "n_workers") = Return () →
  wait_for (delete "n_workers" kwargs !! "timeout") = Return () →
  (∀ f margs m, method self margs m ≠ Return (Callable f)) →
  (∀ init_fn post_fn bundles b margs k,
     _check_functions self = Return (init_fn, post_fn) →
     _call_init_fn init_fn args (dec_kwargs ∪ delete "n_workers" kwargs)
     = Return bundles →
     b ∈ bundles → _make_args b args (delete "n_workers" kwargs) = Return (margs, k) →
     ∃ m, unpack k = Return m) →
  wrap_with_threads self args kwargs false = wrap_with_for self args kwargs.
Proof.
  intros Hex Hwait Hplain Hfit. unfold wrap_with_threads, wrap_with_for.
  destruct (_check_functions self) as [[init_fn post_fn]|e] eqn:Hcheck; [|reflexivity].
  cbv zeta. rewrite Hex.
  destruct (_call_init_fn init_fn args (dec_kwargs ∪ delete "n_workers" kwargs))
    as [bundles|e] eqn:Hinit; [|reflexivity].
  pose proof (threads_track_for self args (delete "n_workers" kwargs) bundles []
                (Progress [] []) Hplain) as Htrack.
  destruct (for_loop self args (delete "n_workers" kwargs) bundles (Progress [] []))
    as [st [e|]].
  - rewrite Htrack; [done| |done].
    intros b margs k. by apply (Hfit init_fn post_fn bundles).
  - destruct Htrack as (fs' & Hrun & Hres); [|done|].
    { intros b margs k. by apply (Hfit init_fn post_fn bundles). }
    rewrite Hrun, Hwait. by apply post_fn_sees_results.
Qed.

(** X24.  With the ['nogil'] target the method is called once, on the
    arguments of the call itself, before [init] is evaluated. If that call
    raises, the exception leaves the decorated call: nothing is captured and
    [post] is not called. Otherwise, when the arguments of every bundle can
    be prepared and passed: if the call returned something that is not
    callable, every unit of work ends in a [TypeError]; if it returned a
    callable, each unit's result is that of the callable on the unit's
    arguments. *)
Theorem nogil_calls_method_once self args kwargs init_fn post_fn :
  _check_functions self = Return (init_fn, post_fn) →
  executor_for (kwargs !! "n_workers") = Return () →
  let popped := delete "n_workers" kwargs in
  let full_kwargs := dec_kwargs ∪ popped in
  (∀ e, method self args popped = Raise e →
        wrap_with_threads self args kwargs true = ([], Raise e))
  ∧ (∀ fn bundles,
       method self args popped = Return fn →
       _call_init_fn init_fn args full_kwargs = Return bundles →
       (∀ b, b ∈ bundles → is_Some (prepared args popped b)) →
       wait_for (popped !! "timeout") = Return () →
       ∃ fs, wrap_with_threads self args kwargs true
             = _call_post_fn self post_fn fs args full_kwargs
             ∧ length fs = length bundles
             ∧ ∀ i b margs m,
                 bundles !! i = Some b → prepared args popped b = Some (margs, m) →
                 (gather fs) !! i
                 = Some (match fn with
                         | Plain _ => Captured (TypeError "object is not callable")
                         | Callable f =>
                             match f margs m with
                             | Return v => Value v
                             | Raise e => Captured e
                             end
                         end)).
Proof.
  intros Hcheck Hex popped full_kwargs. split.
  - intros e He. unfold wrap_with_threads. rewrite Hcheck. cbv zeta.
    rewrite Hex. fold popped. rewrite He. reflexivity.
  - intros fn bundles Hfn Hinit Hprep Hwait.
    destruct (submit_all_prepared self (Some fn) args popped bundles [] Hprep)
      as [Hrun Hlen].
    eexists. split; [|split].
    + unfold wrap_with_threads. rewrite Hcheck. cbv zeta.
      rewrite Hex. fold popped. rewrite Hfn. fold full_kwargs.
      rewrite Hinit, Hrun, Hwait. reflexivity.
    + exact Hlen.
    + intros i b margs m Hb Hp. simpl. rewrite gather_map.
      clear Hrun Hlen Hinit. revert i Hb.
      induction bundles as [|b0 bundles IH]; intros i Hb; [done|].
      destruct (Hprep b0) as [[margs0 m0] Hb0]; [left|].
      simpl. rewrite Hb0. simpl. destruct i as [|i]; simpl in *.
      * injection Hb as ->. rewrite Hp in Hb0. injection Hb0 as <- <-.
        destruct fn as [v|f]; [done|]. by destruct (f margs m).
      * apply IH; [|done]. intros b' Hb'. apply Hprep. by right.
Qed.

End Dispatcher.

(** A method that doubles its argument and raises on 0, applied to the
    bundles 1, 0 and 3 with no [post] hook. *)
Definition doubling (_ : nat) (margs : list Z) (_ : gmap string Z)
  : result (@returned Z Z) :=
  match margs with
  | [x] => if (x =? 0)%Z then Raise (OtherError 0) else Return (Plain (2 * x)%Z)
  | _ => Raise (TypeError "one argument expected")
  end.

Definition three_bundles : list (@bundle Z) :=
  [Positional (Single 1%Z); Positional (Single 0%Z); Positional (Single 3%Z)].

Definition hooks (_ : nat)
  : result (@init_hook Z * option (@post_hook Z Z (list Z))) :=
  Return (InitValue three_bundles, None).

Lemma default_post_returns_self_witness :
  ∃ out,
    _call_post_fn (Arg := Z) (PostResult := list Z) 7 None
      [Handle (Return 2%Z); Handle (Raise (OtherError 3)); Object (Captured IndexError)]
      [] ∅
    = (out, Return (inl 7))
    ∧ out = [PrintErrors [OtherError 3; IndexError]; PrintTb (OtherError 3)].
Proof.
  destruct (default_post_returns_self (Arg := Z) (PostResult := list Z) 7
              [Handle (Return 2%Z); Handle (Raise (OtherError 3));
               Object (Captured IndexError)] [] ∅) as (out & Hrun & Hfailed & _).
  exists out. split; [exact Hrun|].
  destruct (Hfailed eq_refl) as (e & rest & Herr & ->).
  injection Herr as <- <-. reflexivity.
Defined.

Lemma three_bundles_prepared (kwargs : gmap string Z) :
  ∀ b, b ∈ three_bundles → is_Some (prepared [] kwargs b).
Proof.
  intros b Hb. unfold three_bundles in Hb.
  repeat (apply elem_of_cons in Hb as [-> | Hb]); [..|by apply elem_of_nil in Hb];
    unfold prepared, _make_args; simpl; by destruct (0 <? size kwargs)%nat.
Qed.

Lemma for_target_keeps_shape_witness :
  gather (futures (for_loop doubling 7 [] (delete "n_workers" ∅) three_bundles
                            (Progress [] [])).1)
    !! 1 = Some (Captured (OtherError 0))
  ∧ length (gather (futures (for_loop doubling 7 [] (delete "n_workers" ∅)
                                      three_bundles (Progress [] [])).1)) = 3
  ∧ wrap_with_for doubling hooks ∅ 7 [] ∅
    = ([PrintErrors [OtherError 0]; PrintTb (OtherError 0)], Return (inl 7)).
Proof.
  destruct (for_target_keeps_shape doubling hooks ∅ 7 [] ∅
              (InitValue three_bundles) None three_bundles eq_refl eq_refl)
    as (Hwrap & _ & Hlen & Hat & _).
  { intros b Hb. destruct (three_bundles_prepared (delete "n_workers" ∅) b Hb) as [p Hp].
    unfold prepared in Hp. destruct (_make_args b [] (delete "n_workers" ∅)); [eauto|done]. }
  split; [|split].
  - exact (proj2 (Hat 1 (Positional (Single 0%Z)) eq_refl) [0%Z] ∅ (OtherError 0)
             eq_refl eq_refl).
  - exact Hlen.
  - rewrite Hwrap. reflexivity.
Defined.

(** Three bundles of which the second is the 2-tuple (1, 2), in a call with
    a keyword argument. *)
Definition odd_bundles : list (@bundle Z) :=
  [Positional (Single 1%Z); Pair (Single 1%Z) (NotDict 2%Z); Positional (Single 3%Z)].

Definition odd_hooks (_ : nat)
  : result (@init_hook Z * option (@post_hook Z Z (list Z))) :=
  Return (InitValue odd_bundles, None).

(** C5 as stated fails when the arguments of a bundle cannot be prepared:
    the exception is not captured, the call raises it, the bundle after it
    never runs and nothing reaches the aggregation. *)
Lemma for_target_aborts_on_unprepared_bundle :
  length odd_bundles = 3
  ∧ wrap_with_for doubling odd_hooks ∅ 7 [] {["scale" := 5%Z]}
    = ([], Raise (AttributeError "update"))
  ∧ invoked (for_loop doubling 7 [] (delete "n_workers" {["scale" := 5%Z]})
                      odd_bundles (Progress [] [])).1
    = [([1%Z], {["scale" := 5%Z]})].
Proof. vm_compute. done. Qed.

(** A pool that takes any [n_workers] and a wait that takes any [timeout];
    callables are filed as the object 0. *)
Definition any_pool (_ : option Z) : result unit := Return ().

Definition as_object (_ : list Z → gmap string Z → result Z) : Z := 0%Z.

(** A kernel maker: called on the arguments of the call, it returns the
    function that doubles its single argument. *)
Definition kernel (_ : nat) (_ : list Z) (_ : gmap string Z)
  : result (@returned Z Z) :=
  Return (Callable (λ margs _,
                      match margs with
                      | [x] => Return (2 * x)%Z
                      | _ => Raise (TypeError "one argument expected")
                      end)).

Lemma target_a_accepted_then_rejected_witness :
  inbatch_parallel "a" = Return ()
  ∧ wrapped_method false "a" = Raise (ValueError "Wrong parallelization target:").
Proof.
  split; [reflexivity|].
  apply (target_a_accepted_then_rejected "a"); reflexivity.
Defined.

Lemma threads_agree_with_for_witness :
  wrap_with_threads doubling hooks ∅ as_object any_pool any_pool 7 [] ∅ false
  = ([PrintErrors [OtherError 0]; PrintTb (OtherError 0)], Return (inl 7)).
Proof.
  rewrite (threads_agree_with_for doubling hooks ∅ as_object any_pool any_pool 7 [] ∅).
  - reflexivity.
  - reflexivity.
  - reflexivity.
  - intros f margs m. unfold doubling.
    destruct margs as [|x [|y rest]]; try discriminate.
    destruct (x =? 0)%Z; discriminate.
  - intros init_fn post_fn bundles b margs k Hcheck Hinit Hb Hk.
    injection Hcheck as <- <-. injection Hinit as <-.
    destruct (three_bundles_prepared (delete "n_workers" ∅) b Hb) as [[margs' m] Hp].
    unfold prepared in Hp. rewrite Hk in Hp.
    destruct (unpack k) as [m'|]; [eauto|done].
Defined.

Lemma nogil_calls_method_once_witness :
  ∃ fs : list (@future Z),
    wrap_with_threads kernel hooks ∅ as_object any_pool any_pool 7 [] ∅ true
    = _call_post_fn (Arg := Z) (PostResult := list Z) 7 None fs []
                    (∅ ∪ delete "n_workers" ∅)
    ∧ gather fs !! 2 = Some (Value 6%Z).
Proof.
  destruct (nogil_calls_method_once kernel hooks ∅ as_object any_pool any_pool 7 [] ∅
              (InitValue three_bundles) None eq_refl eq_refl) as [_ H].
  destruct (H _ three_bundles eq_refl eq_refl
              (three_bundles_prepared (delete "n_workers" ∅)) eq_refl)
    as (fs & Hrun & _ & Hat).
  exists fs. split; [exact Hrun|].
  exact (Hat 2 (Positional (Single 3%Z)) [3%Z] ∅ eq_refl eq_refl).
Defined.

End Parallel.

(** ** The model directory and the [@model] decorator *)

Module Registry.

Inductive mode := global | static | dynamic.

#[global] Instance mode_eq_dec : EqDecision mode.
Proof. solve_decision. Defined.

(** A key of a pipeline's configuration: a string, or a callable, which is
    compared by its full name. *)
Inductive config_key :=
| Name (s : string)
| Method (fullname : string).

#[global] Instance config_key_eq_dec : EqDecision config_key.
Proof. solve_decision. Defined.

#[global] Instance config_key_countable : Countable config_key.
Proof.
  refine (inj_countable'
            (λ k, match k with Name s => inl s | Method s => inr s end)
            (λ x, match x with inl s => Name s | inr s => Method s end) _).
  by intros [].
Defined.

Definition key_name (k : config_key) : string :=
  match k with Name s => s | Method s => s end.

Fixpoint string_drop (n : nat) (s : string) : string :=
  match n, s with
  | S n', String _ s' => string_drop n' s'
  | _, _ => s
  end.

(** [s[-n:]]: for [n = 0] the slice starts at [-0], the beginning. *)
Definition slice_last (n : nat) (s : string) : string :=
  if (n =? 0)%nat then s else string_drop (String.length s - n) s.

(** [ModelDirectory.equal_names] *)
Definition equal_names (model_name : config_key) (model_ref : string) : bool :=
  let name := key_name model_name in
  (slice_last (String.length name) model_ref =? name)%string.

Lemma length_append (s1 s2 : string) :
  String.length (s1 +:+ s2) = String.length s1 + String.length s2.
Proof. induction s1 as [|c s1 IH]; simpl; [done|]. by rewrite IH. Qed.

Lemma string_drop_append (s1 s2 : string) :
  string_drop (String.length s1) (s1 +:+ s2) = s2.
Proof. induction s1 as [|c s1 IH]; simpl; [by destruct s2|done]. Qed.

Lemma string_drop_suffix (n : nat) (s : string) :
  ∃ pre, s = pre +:+ string_drop n s.
Proof.
  revert s. induction n as [|n IH]; intros s.
  - exists "". by destruct s.
  - destruct s as [|c s]; [by exists ""|].
    destruct (IH s) as [pre Hpre]. exists (String c pre).
    change (String c s = String c (pre +:+ string_drop n s)). by f_equal.
Qed.

(** For a key that is not the empty string, [equal_names] says that the key's
    name is a suffix of the full name. *)
Lemma equal_names_suffix (k : config_key) (model_ref : string) :
  key_name k ≠ "" →
  equal_names k model_ref = true ↔ ∃ pre, model_ref = pre +:+ key_name k.
Proof.
  intros Hne. unfold equal_names, slice_last. cbv zeta.
  assert ((String.length (key_name k) =? 0)%nat = false) as ->.
  { apply Nat.eqb_neq. by destruct (key_name k). }
  rewrite String.eqb_eq. split.
  - intros H. destruct (string_drop_suffix
      (String.length model_ref - String.length (key_name k)) model_ref) as [pre Hp].
    exists pre. by rewrite H in Hp.
  - intros [pre ->]. rewrite length_append.
    replace (String.length pre + String.length (key_name k)
             - String.length (key_name k)) with (String.length pre) by lia.
    apply string_drop_append.
Qed.

(** The empty key matches the empty name only: [model_ref[-0:]] is the whole
    of [model_ref]. *)
Lemma equal_names_empty (k : config_key) (model_ref : string) :
  key_name k = "" → equal_names k model_ref = true ↔ model_ref = "".
Proof.
  intros He. unfold equal_names, slice_last. rewrite He. simpl.
  apply String.eqb_eq.
Qed.

Section Directory.
Context {Spec Value : Type}.

(** A pipeline as the decorator sees it: its identity and its [config], a
    dictionary from keys to a configuration or [None]; and the object the
    model method is called on, with its [pipeline] attribute. *)
Record pipeline := Pipeline {
  pid : nat;
  config : option (gmap config_key (option (gmap string Value))) }.

Record batch := Batch {
  bid : nat;
  pipeline_of : option pipeline }.

(** [ModelDirectory.models]: per mode, per pipeline ([None] for no pipeline),
    per model method (by identity). *)
Record ModelDirectory := Models {
  of_global : gmap (option nat) (gmap nat Spec);
  of_static : gmap (option nat) (gmap nat Spec);
  of_dynamic : gmap (option nat) (gmap nat Spec) }.

Definition models (d : ModelDirectory) (m : mode) : gmap (option nat) (gmap nat Spec) :=
  match m with
  | global => of_global d
  | static => of_static d
  | dynamic => of_dynamic d
  end.

Definition set_models (d : ModelDirectory) (m : mode)
    (v : gmap (option nat) (gmap nat Spec)) : ModelDirectory :=
  match m with
  | global => Models v (of_static d) (of_dynamic d)
  | static => Models (of_global d) v (of_dynamic d)
  | dynamic => Models (of_global d) (of_static d) v
  end.

Record method_spec := MethodSpec {
  ms_mode : mode;
  ms_method : nat;
  ms_name : string;
  ms_pipeline : option nat }.

Definition add_model (ms : method_spec) (model_spec : Spec) (d : ModelDirectory)
  : ModelDirectory :=
  let of_pipeline := default ∅ (models d (ms_mode ms) !! ms_pipeline ms) in
  set_models d (ms_mode ms)
    (<[ms_pipeline ms := <[ms_method ms := model_spec]> of_pipeline]>
       (models d (ms_mode ms))).

Definition model_exists (ms : method_spec) (d : ModelDirectory) : bool :=
  match models d (ms_mode ms) !! ms_pipeline ms with
  | Some of_pipeline => bool_decide (is_Some (of_pipeline !! ms_method ms))
  | None => false
  end.

Definition get_model (ms : method_spec) (pipeline : option nat) (d : ModelDirectory)
  : result Spec :=
  let pipeline := match pipeline with Some _ => pipeline | None => ms_pipeline ms end in
  let pipeline := match ms_mode ms with global => None | _ => pipeline end in
  match models d (ms_mode ms) !! pipeline ≫= (.!! ms_method ms) with
  | Some model_spec => Return model_spec
  | None => Raise (ValueError "Model not found in the pipeline")
  end.

(** *** One decorated model method *)

(** What the builder is called on: the pipeline for a static model, the
    batch for a dynamic one. *)
Inductive receiver :=
| OnPipeline (p : option pipeline)
| OnBatch (b : batch).

(** The decorator's [mode], the identity of [_model_wrapper], the full name of
    the decorated method, and the method itself, called with or without a
    configuration. *)
Variable the_mode : mode.
Variable wrapper : nat.
Variable full_model_name : string.
Variable method : receiver → option (gmap string Value) → result Spec.

Definition _get_method_spec (pipeline : option nat) : method_spec :=
  MethodSpec the_mode wrapper full_model_name pipeline.

(** The directory with the builder invocations made so far, and those among
    them that raised, each by the pipeline it was made for. *)
Record registry := Registry {
  dir : ModelDirectory;
  invoked : list (option nat);
  raised : list (option nat) }.

(** Lines 229-241: the configuration the builder gets.  The error carries the
    matching keys in the source; they are left out here. *)
Definition configure (_pipeline : option pipeline)
    (config_arg : option (gmap string Value)) : result (option (gmap string Value)) :=
  match _pipeline with
  | None => Return config_arg
  | Some p =>
      match config p with
      | None => Return config_arg
      | Some full_config =>
          let model_names :=
            List.filter (λ model_key, equal_names model_key full_model_name)
                        (map_to_list full_config).*1 in
          if (1 <? length model_names)%nat
          then Raise (ValueError "Ambigous config contains several keys with similar names")
          else match model_names with
               | model_key :: _ =>
                   let config_p := default ∅ (mjoin (full_config !! model_key)) in
                   let config_a := default ∅ config_arg in
                   Return (Some (config_a ∪ config_p))
               | [] => Return config_arg
               end
      end
  end.

(** The pipeline a resolution is filed under. *)
Definition key (self : batch) : option nat :=
  match the_mode with
  | global => None
  | _ => pid <$> pipeline_of self
  end.

Definition receiver_of (self : batch) : receiver :=
  match the_mode with
  | static => OnPipeline (pipeline_of self)
  | _ => OnBatch self
  end.

(** Lines 243-247 *)
Definition build (self : batch) (config_arg : option (gmap string Value))
    (r : registry) : result Spec * registry :=
  let r := Registry (dir r) (invoked r ++ [key self]) (raised r) in
  match method (receiver_of self) config_arg with
  | Raise e => (Raise e, Registry (dir r) (invoked r) (raised r ++ [key self]))
  | Return model_spec =>
      (Return model_spec,
       Registry (add_model (_get_method_spec (key self)) model_spec (dir r))
                (invoked r) (raised r))
  end.

(** [_model_wrapper] run by one thread without interference. *)
Definition _model_wrapper (self : batch) (config_arg : option (gmap string Value))
    (r : registry) : result Spec * registry :=
  match the_mode with
  | global => (get_model (_get_method_spec None) None (dir r), r)
  | _ =>
      let method_spec := _get_method_spec (key self) in
      if model_exists method_spec (dir r)
      then (get_model method_spec (key self) (dir r), r)
      else
        match configure (pipeline_of self) config_arg with
        | Raise e => (Raise e, r)
        | Return cfg =>
            match build self cfg r with
            | (Raise e, r) => (Raise e, r)
            | (Return _, r) => (get_model method_spec (key self) (dir r), r)
            end
        end
  end.

(** *** Many threads in [_model_wrapper] *)

(** [ModelDirectory.add_model] in its steps: the test of line 40, the new
    dictionary of line 41 and the update of line 42, which looks the
    pipeline's dictionary up again.  The directory is shared by all model
    methods and nothing guards these steps. *)
Definition has_pipeline (ms : method_spec) (d : ModelDirectory) : bool :=
  bool_decide (is_Some (models d (ms_mode ms) !! ms_pipeline ms)).

Definition create_pipeline (ms : method_spec) (d : ModelDirectory) : ModelDirectory :=
  set_models d (ms_mode ms) (<[ms_pipeline ms := ∅]> (models d (ms_mode ms))).

Definition update_pipeline (ms : method_spec) (model_spec : Spec) (d : ModelDirectory)
  : result ModelDirectory :=
  match models d (ms_mode ms) !! ms_pipeline ms with
  | Some of_pipeline =>
      Return (set_models d (ms_mode ms)
                (<[ms_pipeline ms := <[ms_method ms := model_spec]> of_pipeline]>
                   (models d (ms_mode ms))))
  | None => Raise (KeyError "pipeline")
  end.

(** Where a thread stands: in [_model_wrapper] of this model method, or, for
    a thread of another model method or of an import, in [add_model] with the
    method spec and the model it files. *)
Inductive pc :=
| AtCheck                                       (* line 225 *)
| AtLock                                        (* line 226, waiting *)
| AtRecheck                                     (* line 227, lock held *)
| AtConfig                                      (* lines 229-241 *)
| AtBuild (cfg : option (gmap string Value))    (* lines 243-245 *)
| AtAdd (model_spec : Spec)                     (* line 247, at line 40 *)
| AtCreate (model_spec : Spec)                  (* line 41 *)
| AtUpdate (model_spec : Spec)                  (* line 42 *)
| AtUnlock (pending : option exn)               (* leaving the [with] block *)
| AtGet                                         (* line 248 *)
| Done (r : result Spec)
| OtherAdd (ms : method_spec) (model_spec : Spec)     (* line 40 *)
| OtherCreate (ms : method_spec) (model_spec : Spec)  (* line 41 *)
| OtherUpdate (ms : method_spec) (model_spec : Spec)  (* line 42 *)
| OtherDone (r : result unit).

Record worker := Worker {
  self : batch;
  config_arg : option (gmap string Value);
  at_ : pc }.

(** The shared registry, the holder of this method's [_pipeline_model_lock],
    the threads. *)
Record system := System {
  reg : registry;
  lock : option nat;
  workers : list worker }.

Definition move (s : system) (t : nat) (w : worker) (to : pc) : system :=
  System (reg s) (lock s) (<[t := Worker (self w) (config_arg w) to]> (workers s)).

(** One atomic step of thread [t]; [None] when it cannot move (it has
    finished, or waits for the lock). *)
Definition step (t : nat) (s : system) : option system :=
  w ← workers s !! t;
  let method_spec := _get_method_spec (key (self w)) in
  match at_ w with
  | AtCheck =>
      match the_mode with
      | global => Some (move s t w AtGet)
      | _ => if model_exists method_spec (dir (reg s))
             then Some (move s t w AtGet)
             else Some (move s t w AtLock)
      end
  | AtLock =>
      match lock s with
      | None => Some (System (reg s) (Some t)
                             (<[t := Worker (self w) (config_arg w) AtRecheck]> (workers s)))
      | Some _ => None
      end
  | AtRecheck =>
      if model_exists method_spec (dir (reg s))
      then Some (move s t w (AtUnlock None))
      else Some (move s t w AtConfig)
  | AtConfig =>
      match configure (pipeline_of (self w)) (config_arg w) with
      | Raise e => Some (move s t w (AtUnlock (Some e)))
      | Return cfg => Some (move s t w (AtBuild cfg))
      end
  | AtBuild cfg =>
      let r := reg s in
      match method (receiver_of (self w)) cfg with
      | Raise e =>
          Some (System (Registry (dir r) (invoked r ++ [key (self w)])
                                 (raised r ++ [key (self w)]))
                       (lock s)
                       (<[t := Worker (self w) (config_arg w) (AtUnlock (Some e))]>
                          (workers s)))
      | Return model_spec =>
          Some (System (Registry (dir r) (invoked r ++ [key (self w)]) (raised r))
                       (lock s)
                       (<[t := Worker (self w) (config_arg w) (AtAdd model_spec)]>
                          (workers s)))
      end
  | AtAdd model_spec =>
      if has_pipeline method_spec (dir (reg s))
      then Some (move s t w (AtUpdate model_spec))
      else Some (move s t w (AtCreate model_spec))
  | AtCreate model_spec =>
      let r := reg s in
      Some (System (Registry (create_pipeline method_spec (dir r))
                             (invoked r) (raised r))
                   (lock s)
                   (<[t := Worker (self w) (config_arg w) (AtUpdate model_spec)]>
                      (workers s)))
  | AtUpdate model_spec =>
      let r := reg s in
      match update_pipeline method_spec model_spec (dir r) with
      | Return d =>
          Some (System (Registry d (invoked r) (raised r)) (lock s)
                       (<[t := Worker (self w) (config_arg w) (AtUnlock None)]>
                          (workers s)))
      | Raise e => Some (move s t w (AtUnlock (Some e)))
      end
  | AtUnlock pending =>
      Some (System (reg s) None
                   (<[t := Worker (self w) (config_arg w)
                                  (match pending with
                                   | Some e => Done (Raise e)
                                   | None => AtGet
                                   end)]> (workers s)))
  | AtGet =>
      Some (move s t w (Done (get_model method_spec (key (self w)) (dir (reg s)))))
  | Done _ => None
  | OtherAdd ms model_spec =>
      if has_pipeline ms (dir (reg s))
      then Some (move s t w (OtherUpdate ms model_spec))
      else Some (move s t w (OtherCreate ms model_spec))
  | OtherCreate ms model_spec =>
      let r := reg s in
      Some (System (Registry (create_pipeline ms (dir r)) (invoked r) (raised r))
                   (lock s)
                   (<[t := Worker (self w) (config_arg w) (OtherUpdate ms model_spec)]>
                      (workers s)))
  | OtherUpdate ms model_spec =>
      let r := reg s in
      match update_pipeline ms model_spec (dir r) with
      | Return d =>
          Some (System (Registry d (invoked r) (raised r)) (lock s)
                       (<[t := Worker (self w) (config_arg w) (OtherDone (Return ()))]>
                          (workers s)))
      | Raise e => Some (move s t w (OtherDone (Raise e)))
      end
  | OtherDone _ => None
  end.

(** A schedule names the thread to move next; a thread that cannot move is
    passed over. *)
Fixpoint run (schedule : list nat) (s : system) : system :=
  match schedule with
  | [] => s
  | t :: rest => run rest (default s (step t s))
  end.

Definition init (d : ModelDirectory) (calls : list (batch * option (gmap string Value)))
  : system :=
  System (Registry d [] []) None (map (λ c, Worker c.1 c.2 AtCheck) calls).

(** The entry filed for this model method under a pipeline. *)
Definition entry (d : ModelDirectory) (p : option nat) : option Spec :=
  models d the_mode !! p ≫= (.!! wrapper).


(** *** What stays true while threads interleave *)



Definition adding (p : pc) : bool :=
  match p with AtAdd _ | AtCreate _ | AtUpdate _ => true | _ => false end.

(** A thread that is not in [_model_wrapper] of this model method. *)
Definition other (p : pc) : bool :=
  match p with
  | OtherAdd _ _ | OtherCreate _ _ | OtherUpdate _ _ | OtherDone _ => true
  | _ => false
  end.


(** 1 when the lock holder has a built model for [p] in hand and has not
    filed it yet. *)
Definition pending (s : system) (p : option nat) : nat :=
  match lock s with
  | Some t =>
      match workers s !! t with
      | Some w => if adding (at_ w) && bool_decide (key (self w) = p) then 1 else 0
      | None => 0
      end
  | None => 0
  end.



(** *** The directory *)

Lemma models_set_models d m v : models (set_models d m v) m = v.
Proof. by destruct m. Qed.

Lemma model_exists_entry p d :
  model_exists (_get_method_spec p) d = bool_decide (is_Some (entry d p)).
Proof.
  unfold model_exists, entry. simpl.
  by destruct (models d the_mode !! p) as [of_pipeline|].
Qed.



Lemma get_model_entry self d :
  get_model (_get_method_spec (key self)) (key self) d
  = match entry d (key self) with
    | Some model_spec => Return model_spec
    | None => Raise (ValueError "Model not found in the pipeline")
    end.
Proof.
  unfold get_model, entry, key. simpl.
  destruct the_mode; simpl; [done| |]; by destruct (pid <$> pipeline_of self).
Qed.

Lemma entry_add_model p q v d :
  entry (add_model (_get_method_spec p) v d) q
  = if decide (p = q) then Some v else entry d q.
Proof.
  unfold entry, add_model. simpl. rewrite models_set_models.
  destruct (decide (p = q)) as [->|Hne].
  - rewrite lookup_insert_eq. simpl. apply lookup_insert_eq.
  - by rewrite lookup_insert_ne.
Qed.

Lemma set_models_twice d m a b : set_models (set_models d m a) m b = set_models d m b.
Proof. by destruct m. Qed.




(** Run without interference, the three steps are [add_model]. *)
Lemma add_model_steps ms v d :
  update_pipeline ms v (if has_pipeline ms d then d else create_pipeline ms d)
  = Return (add_model ms v d).
Proof.
  unfold has_pipeline, update_pipeline, create_pipeline, add_model.
  destruct (models d (ms_mode ms) !! ms_pipeline ms) as [of_pipeline|] eqn:H.
  - rewrite bool_decide_eq_true_2 by eauto. by rewrite H.
  - rewrite bool_decide_eq_false_2 by (by intros [? ?]).
    rewrite models_set_models, lookup_insert_eq, set_models_twice, insert_insert_eq.
    done.
Qed.



(** *** A thread alone *)

(** A resolution that finds its entry returns it and changes nothing: no
    configuration is read and the builder is not invoked. *)
Lemma cached_resolution self cfg r v :
  entry (dir r) (key self) = Some v →
  _model_wrapper self cfg r = (Return v, r).
Proof.
  intros He. unfold _model_wrapper.
  assert (get_model (_get_method_spec (key self)) (key self) (dir r) = Return v) as Hg
    by by rewrite get_model_entry, He.
  assert (model_exists (_get_method_spec (key self)) (dir r) = true) as Hx.
  { rewrite model_exists_entry. apply bool_decide_eq_true. by rewrite He. }
  destruct the_mode eqn:Hm.
  - unfold key in Hg, He. rewrite Hm in Hg. by rewrite Hg.
  - by rewrite Hx, Hg.
  - by rewrite Hx, Hg.
Qed.

(** A resolution that returns leaves an entry with the value it returned. *)
Lemma resolution_files_entry self cfg r v r' :
  _model_wrapper self cfg r = (Return v, r') →
  entry (dir r') (key self) = Some v.
Proof.
  unfold _model_wrapper.
  assert (∀ d, get_model (_get_method_spec (key self)) (key self) d = Return v →
               entry d (key self) = Some v) as Hget.
  { intros d. rewrite get_model_entry. by destruct (entry d (key self)); intros [=]; subst. }
  assert (the_mode ≠ global → (if model_exists (_get_method_spec (key self)) (dir r)
     then (get_model (_get_method_spec (key self)) (key self) (dir r), r)
     else match configure (pipeline_of self) cfg with
          | Return cfg0 =>
              match build self cfg0 r with
              | (Return _, r0) =>
                  (get_model (_get_method_spec (key self)) (key self) (dir r0), r0)
              | (Raise e, r0) => (Raise e, r0)
              end
          | Raise e => (Raise e, r)
          end) = (Return v, r') → entry (dir r') (key self) = Some v) as Hmain.
  { intros _. destruct (model_exists _ _).
    - intros [= Hg <-]. by apply Hget.
    - destruct (configure _ _) as [cfg0|e]; [|done].
      unfold build. destruct (method _ _) as [m|e]; [|done].
      simpl. intros [= Hg <-]. simpl. by apply Hget. }
  destruct the_mode eqn:Hm; [|by apply Hmain..].
  intros [= Hg <-]. apply Hget. unfold key. by rewrite Hm.
Qed.

(** *** Interleavings *)



Lemma pending_registry r r' l ws p :
  pending (System r l ws) p = pending (System r' l ws) p.
Proof. done. Qed.








(** *** One thread alone, step by step *)

Lemma run_step t rest s s' : step t s = Some s' → run (t :: rest) s = run rest s'.
Proof. simpl. by intros ->. Qed.

Ltac alone_step_by tac :=
  erewrite run_step;
  [|unfold step, move;
    cbn [workers lookup list_lookup mbind option_bind at_ self config_arg reg dir
         lock insert list_insert invoked raised];
    tac; reflexivity].

(** One thread that runs alone through the steps ends where [_model_wrapper]
    says, with the lock free again. *)
Lemma alone_agrees self cfg r :
  run (replicate 10 0) (System r None [Worker self cfg AtCheck])
  = System (_model_wrapper self cfg r).2 None
           [Worker self cfg (Done (_model_wrapper self cfg r).1)].
Proof.
  change (replicate 10 0) with [0; 0; 0; 0; 0; 0; 0; 0; 0; 0].
  unfold _model_wrapper.
  destruct (decide (the_mode = global)) as [Hm|Hm].
  - assert (key self = None) as Hk by (unfold key; by rewrite Hm).
    rewrite Hm. alone_step_by ltac:(rewrite ?Hm, ?Hk).
    alone_step_by ltac:(rewrite ?Hk). by destruct r.
  - assert (∀ A (x y : A), match the_mode with global => x | _ => y end = y) as Hsel
      by (intros; by destruct the_mode).
    rewrite Hsel. clear Hm.
    destruct (model_exists (_get_method_spec (key self)) (dir r)) eqn:Hx.
    { alone_step_by ltac:(rewrite Hsel, Hx). alone_step_by idtac. by destruct r. }
    alone_step_by ltac:(rewrite Hsel, Hx).
    alone_step_by idtac.
    alone_step_by ltac:(rewrite Hx).
    destruct (configure (pipeline_of self) cfg) as [cfg0|e] eqn:Hc.
    2: { alone_step_by ltac:(rewrite Hc). alone_step_by idtac. by destruct r. }
    alone_step_by ltac:(rewrite Hc). unfold build.
    destruct (method (receiver_of self) cfg0) as [v|e] eqn:Hmeth.
    2: { alone_step_by ltac:(rewrite Hmeth). alone_step_by idtac. done. }
    alone_step_by ltac:(rewrite Hmeth).
    pose proof (add_model_steps (_get_method_spec (key self)) v (dir r)) as Hsteps.
    destruct (has_pipeline (_get_method_spec (key self)) (dir r)) eqn:Hhas;
      cbv iota in Hsteps.
    + alone_step_by ltac:(rewrite Hhas). alone_step_by ltac:(rewrite Hsteps).
      alone_step_by idtac. alone_step_by idtac. done.
    + alone_step_by ltac:(rewrite Hhas). alone_step_by idtac.
      alone_step_by ltac:(rewrite Hsteps).
      alone_step_by idtac. alone_step_by idtac. done.
Qed.


(** C6 (as amended).  When a model method that is not global is resolved for
    a pipeline that has a configuration and no entry is filed yet for that
    pipeline: if more than one key of the configuration matches the method's
    full name, the resolution raises [ValueError] and leaves the registry as
    it is; if exactly one key matches, the builder is called with the matched
    configuration overlaid by the configuration of the call, the values of the
    call winning. *)
Theorem ambiguous_config_rejected self cfg r p full_config :
  the_mode ≠ global →
  pipeline_of self = Some p → config p = Some full_config →
  entry (dir r) (key self) = None →
  let matching :=
    List.filter (λ model_key, equal_names model_key full_model_name)
                (map_to_list full_config).*1 in
  ((1 < length matching)%nat →
   _model_wrapper self cfg r
   = (Raise (ValueError "Ambigous config contains several keys with similar names"), r))
  ∧ (∀ model_key, matching = [model_key] →
       let config_p := default ∅ (mjoin (full_config !! model_key)) in
       let config_a := default ∅ cfg in
       _model_wrapper self cfg r = build self (Some (config_a ∪ config_p)) r
       ∧ (∀ x v, config_a !! x = Some v → (config_a ∪ config_p) !! x = Some v)
       ∧ (∀ x, config_a !! x = None → (config_a ∪ config_p) !! x = config_p !! x)).
Proof.
  intros Hmode Hp Hcfg Hnone matching.
  assert (model_exists (_get_method_spec (key self)) (dir r) = false) as Hx.
  { rewrite model_exists_entry, Hnone. done. }
  assert (_model_wrapper self cfg r
          = match configure (Some p) cfg with
            | Raise e => (Raise e, r)
            | Return cfg0 =>
                match build self cfg0 r with
                | (Raise e, r0) => (Raise e, r0)
                | (Return _, r0) =>
                    (get_model (_get_method_spec (key self)) (key self) (dir r0), r0)
                end
            end) as Hwrap.
  { unfold _model_wrapper. rewrite Hx, Hp. by destruct the_mode. }
  split.
  - intros Hmany. rewrite Hwrap. unfold configure. rewrite Hcfg. cbv zeta.
    fold matching. by apply Nat.ltb_lt in Hmany as ->.
  - intros model_key Hone config_p config_a. split; [|split].
    + rewrite Hwrap. unfold configure. rewrite Hcfg. cbv zeta.
      fold matching. rewrite Hone. simpl. fold config_p config_a.
      unfold build. destruct (method _ _) as [v|e]; [|done]. simpl.
      rewrite get_model_entry, entry_add_model.
      by destruct (decide (key self = key self)).
    + intros x v Hv. by apply lookup_union_Some_l.
    + intros x Hn. by apply lookup_union_r.
Qed.

End Directory.

(** A dynamic model method [m.B.foo] whose builder returns 1, a pipeline
    whose configuration has two keys that both match that name, and three
    batches of that pipeline resolving the model at once. *)
Definition sample_builder (_ : @receiver nat) (_ : option (gmap string nat))
  : result nat := Return 1.

Definition two_keys : gmap config_key (option (gmap string nat)) :=
  <[Name "foo" := None]> {[Name "B.foo" := None]}.

Definition noisy : @pipeline nat := Pipeline 7 (Some two_keys).

Definition plain : @pipeline nat := Pipeline 7 None.

Definition nothing_filed : @registry nat := Registry (Models ∅ ∅ ∅) [] [].

Definition filed : @registry nat :=
  Registry (Models ∅ ∅ {[Some 7 := {[0 := 42]}]}) [] [].

Definition race : list (@batch nat * option (gmap string nat)) :=
  [(Batch 0 (Some plain), None); (Batch 1 (Some plain), None);
   (Batch 2 (Some plain), None)].

Definition interleaved : list nat :=
  [0; 1; 2; 0; 1; 2; 0; 0; 0; 0; 0; 0; 0; 0; 1; 1; 1; 1; 1; 2; 2; 2; 2; 2].

(** All three threads pass the first check before any of them builds; the
    builder runs once and all three return its result. *)
Example race_builds_once :
  let s := run dynamic 0 "m.B.foo" sample_builder interleaved
               (init (Models ∅ ∅ ∅) race) in
  invoked (reg s) = [Some 7] ∧ map at_ (workers s) = replicate 3 (Done (Return 1)).
Proof. vm_compute. done. Qed.





(** A thread of another model method of the same pipeline files its model
    while a thread of this method resolves: it finds no dictionary for the
    pipeline (line 40), the resolution then runs to its end and returns the
    model it built, and the other thread puts a new dictionary in place of the
    one that holds that model (line 41).  The next resolution of the same key
    finds no entry and invokes the builder again, although no call raised. *)
Definition with_other_method : @system nat nat :=
  System (Registry (Models ∅ ∅ ∅) [] []) None
         [Worker (Batch 0 (Some plain)) None AtCheck;
          Worker (Batch 1 (Some plain)) None
                 (OtherAdd (MethodSpec dynamic 1 "m.B.bar" (Some 7)) 5);
          Worker (Batch 2 (Some plain)) None AtCheck].

Definition overtaken : list nat :=
  [1; 0; 0; 0; 0; 0; 0; 0; 0; 0; 0; 1; 1; 2; 2; 2; 2; 2; 2; 2; 2; 2].

Example other_method_replaces_dictionary :
  let s := run dynamic 0 "m.B.foo" sample_builder overtaken with_other_method in
  invoked (reg s) = [Some 7; Some 7] ∧ raised (reg s) = []
  ∧ map at_ (workers s)
    = [Done (Return 1); OtherDone (Return ()); Done (Return 1)].
Proof. vm_compute. done. Qed.


(** C6 as stated fails once an entry is filed: the two matching keys are
    never looked at and the resolution returns the entry. *)
Lemma ambiguous_config_ignored_when_filed :
  length (List.filter (λ k, equal_names k "m.B.foo") (map_to_list two_keys).*1) = 2
  ∧ _model_wrapper dynamic 0 "m.B.foo" sample_builder (Batch 0 (Some noisy)) None filed
    = (Return 42, filed).
Proof. vm_compute. done. Qed.

Lemma ambiguous_config_rejected_witness :
  _model_wrapper dynamic 0 "m.B.foo" sample_builder (Batch 0 (Some noisy)) None
                 nothing_filed
  = (Raise (ValueError "Ambigous config contains several keys with similar names"),
     nothing_filed).
Proof.
  apply (ambiguous_config_rejected dynamic 0 "m.B.foo" sample_builder
           (Batch 0 (Some noisy)) None nothing_filed noisy two_keys
           ltac:(done) eq_refl eq_refl eq_refl).
  vm_compute. lia.
Defined.

End Registry.

(** ** Pipeline variables ([Pipeline.has_variable] to [Pipeline.delete_all_variables]) *)

Module Variables.
Section Vars.
Context {Value Init : Type}.

(** Calling the [init] callable of a variable: user code, which returns a
    value or raises. *)
Variable call : Init → result Value.

(** One entry of [_variables]: [dict(default, init, init_on_each_run)], and
    the key ['value'] once [set_variable] has run. *)
Record variable := Var {
  var_default : Value;
  var_init : option Init;
  var_init_on_each_run : bool;
  var_value : option Value }.

(** A single name, or several names in a tuple. *)
Inductive names :=
| One (name : string)
| Several (l : list string).

Inductive warning :=
| NotInitialized (name : string)
| DoesNotExist (name : names).

(** The dictionary, keyed by variable names, and what [logging.warning] has
    been given. *)
Record state := State {
  _variables : gmap string variable;
  warnings : list warning }.

Definition has_variable (name : string) (s : state) : bool :=
  bool_decide (is_Some (_variables s !! name)).

Definition set_variable (name : string) (v : Value) (s : state)
  : result unit * state :=
  let s := if has_variable name s then s
           else State (_variables s) (warnings s ++ [NotInitialized name]) in
  match _variables s !! name with
  | Some var =>
      (Return (),
       State (<[name := Var (var_default var) (var_init var)
                            (var_init_on_each_run var) (Some v)]> (_variables s))
             (warnings s))
  | None => (Raise (KeyError name), s)
  end.

Definition assign_variable := set_variable.

(** [default if init is None else init()] *)
Definition first_value (default : Value) (init : option Init) : result Value :=
  match init with
  | None => Return default
  | Some f => call f
  end.

(** The entry is made before [init()] is called: when the call raises, the
    name stays declared, without a value. *)
Definition init_variable (name : string) (default : Value) (init : option Init)
    (init_on_each_run : bool) (s : state) : result unit * state :=
  if has_variable name s then (Return (), s)
  else
    let s := State (<[name := Var default init init_on_each_run None]> (_variables s))
                   (warnings s) in
    match first_value default init with
    | Raise e => (Raise e, s)
    | Return v => set_variable name v s
    end.

Definition get_variable (name : string) (default : Value) (init : option Init)
    (init_on_each_run : bool) (s : state) : result Value * state :=
  let '(r, s) := if has_variable name s then (Return (), s)
                 else init_variable name default init init_on_each_run s in
  match r with
  | Raise e => (Raise e, s)
  | Return _ =>
      match _variables s !! name with
      | Some var =>
          (Return (match var_value var with Some v => v | None => default end), s)
      | None => (Raise (AttributeError "get"), s)
      end
  end.

(** The loop of [_init_variables_before_run] over [_variables.items()]; an
    [init()] that raises ends it there. *)
Fixpoint reset_each (items : list (string * variable)) (s : state)
  : result unit * state :=
  match items with
  | [] => (Return (), s)
  | (name, var) :: rest =>
      if var_init_on_each_run var then
        match first_value (var_default var) (var_init var) with
        | Raise e => (Raise e, s)
        | Return v =>
            match set_variable name v s with
            | (Return _, s) => reset_each rest s
            | (Raise e, s) => (Raise e, s)
            end
        end
      else reset_each rest s
  end.

Definition _init_variables_before_run (s : state) : result unit * state :=
  reset_each (map_to_list (_variables s)) s.

(** The dictionary is keyed by names, so a tuple of names is never found in
    it and the loop over the tuple's members is never reached. *)
Definition delete_variable (name : names) (s : state) : state :=
  match name with
  | One n =>
      if has_variable n s then State (delete n (_variables s)) (warnings s)
      else State (_variables s) (warnings s ++ [DoesNotExist name])
  | Several _ => State (_variables s) (warnings s ++ [DoesNotExist name])
  end.

Definition del_variable := delete_variable.

Definition delete_all_variables (s : state) : state := State ∅ (warnings s).

(** *** Facts *)

Lemma has_variable_true name s var :
  _variables s !! name = Some var → has_variable name s = true.
Proof. intros H. unfold has_variable. apply bool_decide_eq_true. by rewrite H. Qed.

Lemma has_variable_false name s :
  _variables s !! name = None → has_variable name s = false.
Proof.
  intros H. unfold has_variable. apply bool_decide_eq_false. rewrite H.
  by intros [? ?].
Qed.

Lemma set_variable_declared name v s var :
  _variables s !! name = Some var →
  set_variable name v s
  = (Return (),
     State (<[name := Var (var_default var) (var_init var)
                          (var_init_on_each_run var) (Some v)]> (_variables s))
           (warnings s)).
Proof.
  intros H. unfold set_variable. rewrite (has_variable_true _ _ _ H). by rewrite H.
Qed.

(** X6.  [set_variable] on a name that has not been declared logs the
    warning and then raises [KeyError]; the variable is not created, so the
    name is still undeclared afterwards. *)
Theorem set_variable_undeclared_raises name v s :
  _variables s !! name = None →
  set_variable name v s
  = (Raise (KeyError name),
     State (_variables s) (warnings s ++ [NotInitialized name]))
  ∧ has_variable name (set_variable name v s).2 = false.
Proof.
  intros H. unfold set_variable. rewrite (has_variable_false _ _ H). simpl.
  rewrite H. split; [done|]. simpl. by apply has_variable_false.
Qed.

(** X7.  [init_variable] leaves the name declared, also when [init()]
    raises, and a later [init_variable] on the same name, whatever its
    arguments, changes nothing.  So a variable whose [init()] raised is never
    given a value: the exception leaves [init_variable], and [get_variable]
    afterwards returns the default of its own call.  When [init()] does not
    raise, [init_variable] returns normally. *)
Theorem init_variable_only_once name d i f d' i' f' s :
  has_variable name (init_variable name d i f s).2 = true
  ∧ init_variable name d' i' f' (init_variable name d i f s).2
    = (Return (), (init_variable name d i f s).2)
  ∧ (∀ e, _variables s !! name = None → first_value d i = Raise e →
       (init_variable name d i f s).1 = Raise e
       ∧ get_variable name d' i' f' (init_variable name d i f s).2
         = (Return d', (init_variable name d i f s).2))
  ∧ ((∀ e, first_value d i ≠ Raise e) → (init_variable name d i f s).1 = Return ()).
Proof.
  assert (has_variable name (init_variable name d i f s).2 = true) as H2.
  { unfold init_variable. destruct (has_variable name s) eqn:Hh; [done|].
    destruct (first_value d i) as [v|e]; simpl.
    - erewrite set_variable_declared by (simpl; apply lookup_insert_eq). simpl.
      eapply has_variable_true. simpl. apply lookup_insert_eq.
    - eapply has_variable_true. simpl. apply lookup_insert_eq. }
  split; [done|]. split; [|split].
  - unfold init_variable at 1. by rewrite H2.
  - intros e Hnone He. unfold get_variable. rewrite H2.
    unfold init_variable. rewrite (has_variable_false _ _ Hnone), He. simpl.
    by rewrite lookup_insert_eq.
  - intros Hok. unfold init_variable. destruct (has_variable name s); [done|].
    destruct (first_value d i) as [v|e]; [|by destruct (Hok e)].
    by erewrite set_variable_declared by (simpl; apply lookup_insert_eq).
Qed.

(** X8.  For a declared variable, [get_variable] after [set_variable]
    returns the value that was set, whatever default it is given, and changes
    nothing. *)
Theorem get_after_set name v d i f s :
  is_Some (_variables s !! name) →
  ∃ s', set_variable name v s = (Return (), s')
        ∧ warnings s' = warnings s
        ∧ get_variable name d i f s' = (Return v, s').
Proof.
  intros [var Hv]. eexists. split; [by apply set_variable_declared|].
  split; [done|]. unfold get_variable.
  erewrite has_variable_true by (simpl; apply lookup_insert_eq).
  simpl. by rewrite lookup_insert_eq.
Qed.

(** X9.  [get_variable] on an undeclared name declares it: it returns the
    default, or what the initialiser returns when there is one, stores that as
    the variable's value together with the default, the initialiser and the
    flag, and logs no warning.  When the initialiser raises, the exception
    leaves [get_variable] and the name stays declared without a value. *)
Theorem get_variable_declares name d i f s :
  _variables s !! name = None →
  get_variable name d i f s
  = match first_value d i with
    | Return v =>
        (Return v,
         State (<[name := Var d i f (Some v)]> (_variables s)) (warnings s))
    | Raise e =>
        (Raise e, State (<[name := Var d i f None]> (_variables s)) (warnings s))
    end.
Proof.
  intros H. unfold get_variable, init_variable.
  rewrite (has_variable_false _ _ H).
  destruct (first_value d i) as [v|e]; [|done].
  erewrite set_variable_declared by (simpl; apply lookup_insert_eq). simpl.
  rewrite lookup_insert_eq. simpl. by rewrite insert_insert_eq.
Qed.

(** What one run does to one variable whose initialiser returns. *)
Definition reset (var : variable) : variable :=
  if var_init_on_each_run var
  then match first_value (var_default var) (var_init var) with
       | Return v => Var (var_default var) (var_init var) true (Some v)
       | Raise _ => var
       end
  else var.

Lemma reset_each_run items s :
  NoDup items.*1 →
  (∀ k v, (k, v) ∈ items → _variables s !! k = Some v) →
  (∀ k v, (k, v) ∈ items → var_init_on_each_run v = true →
          ∃ x, first_value (var_default v) (var_init v) = Return x) →
  ∃ m, reset_each items s = (Return (), State m (warnings s))
       ∧ ∀ k, m !! k = match (list_to_map items : gmap string variable) !! k with
                       | Some v => Some (reset v)
                       | None => _variables s !! k
                       end.
Proof.
  revert s. induction items as [|[name var] rest IH]; intros s Hnd Hin Hok.
  - exists (_variables s). split; [by destruct s|]. intros k.
    change (list_to_map [] : gmap string variable) with (∅ : gmap string variable).
    by rewrite lookup_empty.
  - apply NoDup_cons in Hnd as [Hnot Hnd].
    assert (_variables s !! name = Some var) as Hname by (apply Hin; left).
    assert ((list_to_map rest : gmap string variable) !! name = None) as Hfree
      by by apply not_elem_of_list_to_map.
    assert (∀ k v, (k, v) ∈ rest → var_init_on_each_run v = true →
                   ∃ x, first_value (var_default v) (var_init v) = Return x) as Hok'.
    { intros k v Hkv. apply (Hok k). by right. }
    simpl. destruct (var_init_on_each_run var) eqn:Hflag.
    + destruct (Hok name var) as [x Hx]; [left|done|]. rewrite Hx.
      rewrite (set_variable_declared _ _ _ _ Hname).
      destruct (IH (State (<[name := Var (var_default var) (var_init var)
                                         (var_init_on_each_run var) (Some x)]>
                             (_variables s)) (warnings s)) Hnd) as (m & Hrun & Hm).
      { intros k v Hkv. simpl. rewrite lookup_insert_ne; [apply Hin; by right|].
        intros <-. apply Hnot. apply list_elem_of_fmap. by exists (name, v). }
      { exact Hok'. }
      exists m. split; [exact Hrun|]. intros k. rewrite Hm. simpl.
      destruct (decide (name = k)) as [<-|Hne].
      * rewrite Hfree, !lookup_insert_eq. unfold reset. by rewrite Hflag, Hx.
      * by rewrite !lookup_insert_ne.
    + destruct (IH s Hnd) as (m & Hrun & Hm).
      { intros k v Hkv. apply Hin. by right. }
      { exact Hok'. }
      exists m. split; [exact Hrun|]. intros k. rewrite Hm.
      destruct (decide (name = k)) as [<-|Hne].
      * rewrite Hfree, lookup_insert_eq, Hname. unfold reset. by rewrite Hflag.
      * by rewrite lookup_insert_ne.
Qed.

(** Whatever the initialisers do, the loop logs nothing, adds and removes no
    name, and leaves the variables that are not flagged as they are. *)
Definition framed (s s' : state) : Prop :=
  warnings s' = warnings s
  ∧ ∀ k, match _variables s !! k with
         | Some var =>
             ∃ var', _variables s' !! k = Some var'
                     ∧ (var_init_on_each_run var = false → var' = var)
         | None => _variables s' !! k = None
         end.

Lemma framed_refl s : framed s s.
Proof. split; [done|]. intros k. destruct (_variables s !! k); eauto. Qed.

Lemma reset_each_frame items s :
  NoDup items.*1 →
  (∀ k v, (k, v) ∈ items → _variables s !! k = Some v) →
  framed s (reset_each items s).2.
Proof.
  revert s. induction items as [|[name var] rest IH]; intros s Hnd Hin.
  - apply framed_refl.
  - apply NoDup_cons in Hnd as [Hnot Hnd].
    assert (_variables s !! name = Some var) as Hname by (apply Hin; left).
    simpl. destruct (var_init_on_each_run var) eqn:Hflag.
    + destruct (first_value (var_default var) (var_init var)) as [x|e];
        [|apply framed_refl].
      rewrite (set_variable_declared _ _ _ _ Hname).
      set (s1 := State _ _).
      destruct (IH s1 Hnd) as [Hw Hv].
      { intros k v Hkv. simpl. rewrite lookup_insert_ne; [apply Hin; by right|].
        intros <-. apply Hnot. apply list_elem_of_fmap. by exists (name, v). }
      split; [by rewrite Hw|]. intros k. specialize (Hv k). simpl in Hv.
      destruct (decide (name = k)) as [<-|Hne].
      * rewrite lookup_insert_eq in Hv. rewrite Hname.
        destruct Hv as (var' & Hv & _). exists var'. split; [done|].
        intros Hf. congruence.
      * by rewrite lookup_insert_ne in Hv.
    + apply IH; [done|]. intros k v Hkv. apply Hin. by right.
Qed.

(** X10.  [_init_variables_before_run], which [reset_iter] runs, logs
    nothing, adds and removes no name and leaves every variable that is not
    flagged [init_on_each_run] as it is, whatever the initialisers do.  When
    the initialisers of the flagged variables return, it does not raise and
    gives every flagged variable its default again, or what its initialiser
    returns. *)
Theorem init_before_run_resets_flagged s :
  framed s (_init_variables_before_run s).2
  ∧ ((∀ name var f,
        _variables s !! name = Some var → var_init_on_each_run var = true →
        var_init var = Some f → ∃ v, call f = Return v) →
     _init_variables_before_run s
     = (Return (), State (reset <$> _variables s) (warnings s))).
Proof.
  unfold _init_variables_before_run. split.
  - apply reset_each_frame; [apply NoDup_fst_map_to_list|].
    intros k v Hkv. by apply elem_of_map_to_list.
  - intros Hok.
    destruct (reset_each_run (map_to_list (_variables s)) s) as (m & Hrun & Hm).
    + apply NoDup_fst_map_to_list.
    + intros k v Hkv. by apply elem_of_map_to_list.
    + intros k v Hkv Hflag. apply elem_of_map_to_list in Hkv.
      unfold first_value. destruct (var_init v) as [f|] eqn:Hf; [|eauto].
      by apply (Hok k v f).
    + rewrite Hrun. do 2 f_equal. apply map_eq. intros k.
      rewrite Hm, list_to_map_to_list, lookup_fmap.
      by destruct (_variables s !! k).
Qed.

End Vars.

(** Two variables with integer values: a counter that starts again at 0 on
    each run, and a rate that does not. *)
Definition make_zero (_ : unit) : result Z := Return 0%Z.

(** An initialiser that raises. *)
Definition broken (_ : unit) : result Z := Raise (OtherError 2).

Definition two_variables : @state Z unit :=
  State (<["counter" := Var 7%Z (Some ()) true (Some 12%Z)]>
           {["rate" := Var 3%Z None false (Some 5%Z)]}) [].

Lemma set_variable_undeclared_raises_witness :
  set_variable "loss" 1%Z two_variables
  = (Raise (KeyError "loss"),
     State (_variables two_variables) [NotInitialized "loss"])
  ∧ has_variable "loss" (set_variable "loss" 1%Z two_variables).2 = false.
Proof. exact (set_variable_undeclared_raises "loss" 1%Z two_variables eq_refl). Defined.

Lemma get_after_set_witness :
  ∃ s', set_variable "rate" 8%Z two_variables = (Return (), s')
        ∧ warnings s' = warnings two_variables
        ∧ get_variable make_zero "rate" 100%Z None false s' = (Return 8%Z, s').
Proof.
  exact (get_after_set make_zero "rate" 8%Z 100%Z None false two_variables
           (ex_intro _ _ eq_refl)).
Defined.

Lemma get_variable_declares_witness :
  get_variable make_zero "loss" 4%Z None true two_variables
  = (Return 4%Z,
     State (<["loss" := Var 4%Z None true (Some 4%Z)]> (_variables two_variables)) [])
  ∧ get_variable broken "loss" 4%Z (Some ()) true two_variables
    = (Raise (OtherError 2),
       State (<["loss" := Var 4%Z (Some ()) true None]> (_variables two_variables)) []).
Proof.
  split.
  - exact (get_variable_declares make_zero "loss" 4%Z None true two_variables eq_refl).
  - exact (get_variable_declares broken "loss" 4%Z (Some ()) true two_variables eq_refl).
Defined.

Lemma init_variable_only_once_witness :
  (init_variable broken "loss" 4%Z (Some ()) false two_variables).1
  = Raise (OtherError 2)
  ∧ get_variable broken "loss" 9%Z None false
      (init_variable broken "loss" 4%Z (Some ()) false two_variables).2
    = (Return 9%Z, (init_variable broken "loss" 4%Z (Some ()) false two_variables).2).
Proof.
  exact (proj1 (proj2 (proj2 (init_variable_only_once broken "loss" 4%Z (Some ()) false
                                 9%Z None false two_variables)))
           (OtherError 2) eq_refl eq_refl).
Defined.

Lemma init_before_run_resets_flagged_witness :
  _init_variables_before_run make_zero two_variables
  = (Return (),
     State (<["counter" := Var 7%Z (Some ()) true (Some 0%Z)]>
              {["rate" := Var 3%Z None false (Some 5%Z)]}) []).
Proof.
  rewrite (proj2 (init_before_run_resets_flagged make_zero two_variables)).
  - reflexivity.
  - intros name var f _ _ _. exists 0%Z. by destruct f.
Defined.

End Variables.

(** ** The model directory by name ([ModelDirectory.find_model_method_by_name]
       to [ModelDirectory.delete_all_models]) *)

Module Directory.
Import Registry.

Section Lookup.
Context {Spec : Type}.

(** The [method_spec] attribute that the decorator puts on a model method
    [w]: its mode, the method itself, its full name, and no pipeline. *)
Variable mode_of : nat → mode.
Variable name_of : nat → string.

Definition method_spec_of (w : nat) : method_spec :=
  MethodSpec (mode_of w) w (name_of w) None.

Definition _MODEL_MODES : list mode := [global; static; dynamic].

(** Where a mode keeps the models of a pipeline: global models have none. *)
Definition pipe_for (m : mode) (pipeline : option nat) : option nat :=
  match m with global => None | _ => pipeline end.

(** [modes] is [None] or a list; [modes or _MODEL_MODES] also replaces an
    empty list. *)
Definition find_model_method_by_name (model_name : config_key)
    (pipeline : option nat) (modes : option (list mode)) (d : @ModelDirectory Spec)
  : option (list nat) :=
  let modes := match modes with
               | None | Some [] => _MODEL_MODES
               | Some l => l
               end in
  let model_dicts := omap (λ m, models d m !! pipe_for m pipeline) modes in
  let models_with_same_name :=
    mode_models ← model_dicts;
    List.filter (λ w, equal_names model_name (name_of w)) (map_to_list mode_models).*1 in
  match models_with_same_name with
  | [] => None
  | _ => Some models_with_same_name
  end.

Definition del_model (ms : method_spec) (d : @ModelDirectory Spec)
  : result (@ModelDirectory Spec) :=
  match models d (ms_mode ms) !! ms_pipeline ms with
  | None => Raise (KeyError "pipeline")
  | Some of_pipeline =>
      Return (set_models d (ms_mode ms)
                (<[ms_pipeline ms := delete (ms_method ms) of_pipeline]>
                   (models d (ms_mode ms))))
  end.

Definition import_model (model_name : config_key) (from_pipeline to_pipeline : option nat)
    (d : @ModelDirectory Spec) : result (@ModelDirectory Spec) :=
  match find_model_method_by_name model_name from_pipeline None d with
  | None => Raise (RuntimeError "Model does not exist in the pipeline")
  | Some found =>
      if (1 <? length found)%nat
      then Raise (RuntimeError "There are a few models with the name in the pipeline")
      else match found with
           | [] => Raise IndexError
           | w :: _ =>
               match get_model (method_spec_of w) from_pipeline d with
               | Raise e => Raise e
               | Return model_spec =>
                   Return (add_model (MethodSpec (mode_of w) w (name_of w) to_pipeline)
                                     model_spec d)
               end
           end
  end.

(** The size of the dictionary that a [for] loop walks, as it is now. *)
Definition size_now (m : mode) (pipeline : option nat) (d : @ModelDirectory Spec) : nat :=
  size (default ∅ (models d m !! pipeline)).

(** [for one_model in mode_models: ... del_model(...)]: the loop walks the
    very dictionary that [del_model] pops from.  Before it hands out a key, or
    finds that none is left, a dictionary iterator compares the size of the
    dictionary with the size it had when the loop began and raises
    [RuntimeError] if they differ.  [keys] are the keys not handed out yet. *)
Fixpoint walk_and_delete (keys : list nat) (size_at_start : nat) (m : mode)
    (pipeline : option nat) (d : @ModelDirectory Spec)
  : result unit * @ModelDirectory Spec :=
  if negb (size_now m pipeline d =? size_at_start)%nat
  then (Raise (RuntimeError "dictionary changed size during iteration"), d)
  else match keys with
       | [] => (Return (), d)
       | one_model :: rest =>
           let ms := MethodSpec (mode_of one_model) one_model (name_of one_model)
                                pipeline in
           match del_model ms d with
           | Raise e => (Raise e, d)
           | Return d => walk_and_delete rest size_at_start m pipeline d
           end
       end.

Fixpoint walk_dicts (found : list mode) (pipeline : option nat)
    (d : @ModelDirectory Spec) : result unit * @ModelDirectory Spec :=
  match found with
  | [] => (Return (), d)
  | m :: rest =>
      let mode_models := default ∅ (models d m !! pipeline) in
      match walk_and_delete (map_to_list mode_models).*1 (size mode_models)
                            m pipeline d with
      | (Raise e, d) => (Raise e, d)
      | (Return _, d) => walk_dicts rest pipeline d
      end
  end.

Definition delete_all_models (pipeline : option nat) (d : @ModelDirectory Spec)
  : result unit * @ModelDirectory Spec :=
  let found :=
    List.filter (λ m, bool_decide (is_Some (models d m !! pipeline))) [static; dynamic] in
  walk_dicts found pipeline d.

(** A filed model, by mode, pipeline and method. *)
Definition filed (d : @ModelDirectory Spec) (m : mode) (pipeline : option nat) (w : nat)
  : option Spec :=
  models d m !! pipeline ≫= (.!! w).

(** *** Filing and removing *)

Lemma models_set_other (d : @ModelDirectory Spec) m m' v :
  m' ≠ m → models (set_models d m v) m' = models d m'.
Proof. intros H. by destruct m, m'. Qed.

Lemma filed_add_model ms v (d : @ModelDirectory Spec) m p w :
  filed (add_model ms v d) m p w
  = if decide ((m, p, w) = (ms_mode ms, ms_pipeline ms, ms_method ms))
    then Some v else filed d m p w.
Proof.
  unfold filed, add_model.
  destruct (decide (m = ms_mode ms)) as [->|Hm].
  - rewrite models_set_models.
    destruct (decide (p = ms_pipeline ms)) as [->|Hp].
    + rewrite lookup_insert_eq. simpl.
      destruct (decide (w = ms_method ms)) as [->|Hw].
      * rewrite lookup_insert_eq. by rewrite decide_True.
      * rewrite lookup_insert_ne by done. rewrite decide_False by congruence.
        by destruct (models d (ms_mode ms) !! ms_pipeline ms).
    + rewrite lookup_insert_ne by done. by rewrite decide_False by congruence.
  - rewrite models_set_other by done. by rewrite decide_False by congruence.
Qed.

Lemma model_exists_filed ms (d : @ModelDirectory Spec) :
  model_exists ms d = bool_decide (is_Some (filed d (ms_mode ms) (ms_pipeline ms)
                                                  (ms_method ms))).
Proof.
  unfold model_exists, filed.
  by destruct (models d (ms_mode ms) !! ms_pipeline ms).
Qed.

(** X11.  After [add_model] the model exists and, for a mode other than
    global or a specification without pipeline, [get_model] returns exactly
    what was added; no model filed under another mode, pipeline or method is
    touched. *)
Theorem add_model_then_get ms v (d : @ModelDirectory Spec) :
  model_exists ms (add_model ms v d) = true
  ∧ (ms_mode ms ≠ global ∨ ms_pipeline ms = None →
     get_model ms (ms_pipeline ms) (add_model ms v d) = Return v)
  ∧ (∀ m p w, (m, p, w) ≠ (ms_mode ms, ms_pipeline ms, ms_method ms) →
       filed (add_model ms v d) m p w = filed d m p w).
Proof.
  assert (filed (add_model ms v d) (ms_mode ms) (ms_pipeline ms) (ms_method ms)
          = Some v) as Hf by (rewrite filed_add_model; by rewrite decide_True).
  split; [|split].
  - rewrite model_exists_filed, Hf. done.
  - intros Hcase. unfold get_model.
    assert (match ms_mode ms with
            | global => None
            | _ => match ms_pipeline ms with
                   | Some _ => ms_pipeline ms
                   | None => ms_pipeline ms
                   end
            end = ms_pipeline ms) as ->.
    { destruct Hcase as [Hm| ->]; [|by destruct (ms_mode ms)].
      destruct (ms_mode ms); [done|by destruct (ms_pipeline ms)..]. }
    unfold filed in Hf. by rewrite Hf.
  - intros m p w Hne. rewrite filed_add_model. by rewrite decide_False.
Qed.

Lemma filed_del_model ms (d d' : @ModelDirectory Spec) m p w :
  del_model ms d = Return d' →
  filed d' m p w
  = if decide ((m, p, w) = (ms_mode ms, ms_pipeline ms, ms_method ms))
    then None else filed d m p w.
Proof.
  unfold del_model, filed.
  destruct (models d (ms_mode ms) !! ms_pipeline ms) as [of_pipeline|] eqn:Hd; [|done].
  intros [= <-].
  destruct (decide (m = ms_mode ms)) as [->|Hm].
  - rewrite models_set_models.
    destruct (decide (p = ms_pipeline ms)) as [->|Hp].
    + rewrite lookup_insert_eq, Hd. simpl.
      destruct (decide (w = ms_method ms)) as [->|Hw].
      * rewrite lookup_delete_eq. by rewrite decide_True.
      * rewrite lookup_delete_ne by done. by rewrite decide_False by congruence.
    + rewrite lookup_insert_ne by done. by rewrite decide_False by congruence.
  - rewrite models_set_other by done. by rewrite decide_False by congruence.
Qed.

(** X12.  [del_model] raises [KeyError] when nothing was ever filed for the
    pipeline under the mode; otherwise it returns, the model no longer
    exists (whether or not it did), and no model filed under another mode,
    pipeline or method is touched. *)
Theorem del_model_removes ms (d : @ModelDirectory Spec) :
  (models d (ms_mode ms) !! ms_pipeline ms = None →
   del_model ms d = Raise (KeyError "pipeline"))
  ∧ (is_Some (models d (ms_mode ms) !! ms_pipeline ms) →
     ∃ d', del_model ms d = Return d'
           ∧ model_exists ms d' = false
           ∧ ∀ m p w, (m, p, w) ≠ (ms_mode ms, ms_pipeline ms, ms_method ms) →
                      filed d' m p w = filed d m p w).
Proof.
  split.
  - intros H. unfold del_model. by rewrite H.
  - intros [of_pipeline H].
    assert (∃ d', del_model ms d = Return d') as [d' Hd'].
    { unfold del_model. rewrite H. eauto. }
    exists d'. split; [done|]. split.
    + rewrite model_exists_filed, (filed_del_model _ _ _ _ _ _ Hd').
      by rewrite decide_True.
    + intros m p w Hne. rewrite (filed_del_model _ _ _ _ _ _ Hd').
      by rewrite decide_False.
Qed.

(** X13.  [delete_all_models] does not get past the first model.  When the
    pipeline has static models, each of them a static model method, it
    removes one of them and then raises [RuntimeError], because the loop walks
    the dictionary that [del_model] pops from: every other model of the
    pipeline, static or dynamic, is still filed. *)
Theorem delete_all_models_stops_after_one pipeline (d : @ModelDirectory Spec) mm :
  models d static !! pipeline = Some mm → mm ≠ ∅ →
  (∀ w, is_Some (mm !! w) → mode_of w = static) →
  ∃ w, is_Some (mm !! w)
       ∧ delete_all_models pipeline d
         = (Raise (RuntimeError "dictionary changed size during iteration"),
            set_models d static (<[pipeline := delete w mm]> (models d static))).
Proof.
  intros Hmm Hne Hmode. unfold delete_all_models.
  assert (List.filter (λ m, bool_decide (is_Some (models d m !! pipeline)))
                      [static; dynamic]
          = static :: List.filter
                        (λ m, bool_decide (is_Some (models d m !! pipeline)))
                        [dynamic]) as ->.
  { cbn [List.filter].
    by rewrite (bool_decide_eq_true_2 (is_Some (models d static !! pipeline)))
      by (rewrite Hmm; eauto). }
  cbn [walk_dicts]. rewrite Hmm. cbn [default from_option id].
  destruct (map_to_list mm) as [|[w v] rest] eqn:Hlist.
  { by apply map_to_list_empty_iff in Hlist. }
  assert (mm !! w = Some v) as Hw.
  { apply elem_of_map_to_list. rewrite Hlist. left. }
  exists w. split; [eauto|].
  assert (size_now static pipeline d = size mm) as Hsize
    by (unfold size_now; by rewrite Hmm).
  set (d1 := set_models d static (<[pipeline := delete w mm]> (models d static))).
  assert (size_now static pipeline d1 = size mm - 1) as Hsize1.
  { unfold size_now, d1. rewrite models_set_models, lookup_insert_eq.
    cbn [default from_option id]. rewrite map_size_delete_Some by eauto. lia. }
  assert ((size_now static pipeline d1 =? size mm)%nat = false) as Hdiff.
  { apply Nat.eqb_neq. rewrite Hsize1.
    assert (size mm ≠ 0) by by apply map_size_non_empty_iff. lia. }
  assert (del_model (MethodSpec (mode_of w) w (name_of w) pipeline) d = Return d1)
    as Hdel.
  { unfold del_model. cbn [ms_mode ms_pipeline ms_method].
    rewrite (Hmode w) by eauto. by rewrite Hmm. }
  cbn [fmap list_fmap fst walk_and_delete].
  rewrite Hsize, Nat.eqb_refl. cbn [negb]. rewrite Hdel.
  destruct rest as [|w' rest']; cbn [fmap list_fmap walk_and_delete];
    by rewrite Hdiff.
Qed.

(** *** Looking up by name *)

(** X14.  With no restriction on the modes, [find_model_method_by_name]
    returns exactly the model methods whose full name the given name matches
    and that are filed as a global model or as a static or dynamic model of
    the given pipeline: a model of any other pipeline is never returned, and
    the result is [None], never an empty list, when there is no such method. *)
Theorem find_by_name_scope model_name pipeline (d : @ModelDirectory Spec) :
  (∀ w, w ∈ default [] (find_model_method_by_name model_name pipeline None d)
        ↔ equal_names model_name (name_of w) = true
          ∧ ∃ m, is_Some (filed d m (pipe_for m pipeline) w))
  ∧ find_model_method_by_name model_name pipeline None d ≠ Some [].
Proof.
  unfold find_model_method_by_name.
  set (found := _ ≫= _).
  assert (default [] (match found with [] => None | _ => Some found end) = found)
    as Hdef by by destruct found.
  split; [|by destruct found].
  intros w. rewrite Hdef. unfold found. rewrite list_elem_of_bind. split.
  - intros (mode_models & Hw & Hdict).
    apply list_elem_of_In, filter_In in Hw as [Hw Heq].
    apply list_elem_of_In, list_elem_of_fmap in Hw as ([w' v] & -> & Hv).
    apply elem_of_map_to_list in Hv.
    apply list_elem_of_omap in Hdict as (m & _ & Hm).
    split; [done|]. exists m. unfold filed. rewrite Hm. simpl. eauto.
  - intros (Heq & m & v & Hv). unfold filed in Hv.
    destruct (models d m !! pipe_for m pipeline) as [mode_models|] eqn:Hm; [|done].
    exists mode_models. split.
    + apply list_elem_of_In, filter_In. split; [|done].
      apply list_elem_of_In, list_elem_of_fmap. exists (w, v). split; [done|].
      by apply elem_of_map_to_list.
    + apply list_elem_of_omap. exists m. split; [|done].
      unfold _MODEL_MODES. destruct m; set_solver.
Qed.

(** X15.  When exactly one model method matches the name in the source
    pipeline and its model can be read there, [import_model] files that very
    model for the target pipeline under the method's mode and touches nothing
    else; for a static or dynamic method, a batch of the target pipeline that
    then resolves the model gets it at once, without the builder being
    invoked and without a change to the registry. *)
Theorem import_model_shares model_name from_pipeline to_pipeline
    (d : @ModelDirectory Spec) w v :
  find_model_method_by_name model_name from_pipeline None d = Some [w] →
  get_model (method_spec_of w) from_pipeline d = Return v →
  ∃ d', import_model model_name from_pipeline to_pipeline d = Return d'
        ∧ filed d' (mode_of w) to_pipeline w = Some v
        ∧ (∀ m p w', (m, p, w') ≠ (mode_of w, to_pipeline, w) →
             filed d' m p w' = filed d m p w')
        ∧ (mode_of w ≠ global →
           ∀ (Value : Type) builder self cfg invoked raised,
             pid <$> pipeline_of self = to_pipeline →
             _model_wrapper (Value := Value) (mode_of w) w (name_of w) builder self cfg
                            (Registry d' invoked raised)
             = (Return v, Registry d' invoked raised)).
Proof.
  intros Hfind Hget. unfold import_model. rewrite Hfind. simpl. rewrite Hget.
  eexists. split; [reflexivity|].
  assert (filed (add_model (MethodSpec (mode_of w) w (name_of w) to_pipeline) v d)
                (mode_of w) to_pipeline w = Some v) as Hf.
  { rewrite filed_add_model. simpl. by rewrite decide_True. }
  split; [done|]. split.
  - intros m p w' Hne. rewrite filed_add_model. simpl. by rewrite decide_False.
  - intros Hmode Value builder self cfg invoked raised Hself.
    apply cached_resolution. simpl.
    assert (key (mode_of w) self = to_pipeline) as ->.
    { unfold key. rewrite <- Hself. by destruct (mode_of w). }
    exact Hf.
Qed.

End Lookup.

(** Pipeline 7 with a static model from method 0, [m.B.foo], and a dynamic
    model from method 1, [m.B.bar]. *)
Definition sample_mode (w : nat) : mode := if (w =? 0)%nat then static else dynamic.

Definition sample_name (w : nat) : string :=
  if (w =? 0)%nat then "m.B.foo" else "m.B.bar".

Definition two_models : @ModelDirectory nat :=
  Models ∅ {[Some 7 := {[0 := 42]}]} {[Some 7 := {[1 := 43]}]}.

Lemma delete_all_models_stops_after_one_witness :
  ∃ w, is_Some (({[0 := 42]} : gmap nat nat) !! w)
       ∧ delete_all_models sample_mode sample_name (Some 7) two_models
         = (Raise (RuntimeError "dictionary changed size during iteration"),
            set_models two_models static
              (<[Some 7 := delete w {[0 := 42]}]> (models two_models static))).
Proof.
  apply (delete_all_models_stops_after_one sample_mode sample_name (Some 7)
           two_models {[0 := 42]}).
  - reflexivity.
  - apply insert_non_empty.
  - intros w [v Hv]. apply lookup_singleton_Some in Hv as [<- _]. reflexivity.
Defined.

Lemma import_model_shares_witness :
  ∃ d', import_model sample_mode sample_name (Name "foo") (Some 7) (Some 8) two_models
        = Return d'
        ∧ filed d' static (Some 8) 0 = Some 42.
Proof.
  destruct (import_model_shares sample_mode sample_name (Name "foo") (Some 7) (Some 8)
              two_models 0 42 eq_refl eq_refl) as (d' & Hrun & Hfiled & _).
  exists d'. split; [exact Hrun|exact Hfiled].
Defined.

End Directory.

(** ** The prefetch scheduler as a whole ([Pipeline._put_batches_into_queue],
       [Pipeline._run_batches_from_queue] and the loop of [Pipeline.gen_batch]) *)

Module Prefetch.

Section Machine.
Context {Raw Batch : Type}.

(** What the future of [_exec] on a batch of the source resolves to, and the
    look-ahead depth [prefetch] (after the cap, at least 1). *)
Variable exec : Raw → result Batch.
Variable prefetch : nat.

(** Where the producer stands in [_put_batches_into_queue]. *)
Inductive producer_pc :=
| PTop                              (* while not self._stop_flag *)
| PToken                            (* self._prefetch_count.put(1, block=True) *)
| PNext                             (* next(gen_batch), submit *)
| PPut (future : result Batch)      (* self._prefetch_queue.put(future, block=True) *)
| PEnd                              (* self._prefetch_queue.put(None, block=True) *)
| PDone.

(** Where the consumer stands in [_run_batches_from_queue]. *)
Inductive consumer_pc :=
| CTop                              (* while not self._stop_flag *)
| CGet                              (* self._prefetch_queue.get(block=True) *)
| CPut (b : Batch)                  (* self._batch_queue.put(batch, block=True) *)
| CPutEnd                           (* self._batch_queue.put(None) *)
| CDone
| CDied (e : exn).

(** Where the generator stands in the loop of [gen_batch]. *)
Inductive caller_pc :=
| GTop                              (* while not self._stop_flag *)
| GGet                              (* self._batch_queue.get(block=True) *)
| GToken                            (* self._prefetch_count.get(block=True) *)
| GDone.

(** The shared attributes, the three workers with the consumer's locals, the
    batches yielded so far, and the number of units that the consumer took
    off the queue without passing anything on. *)
Record state := State {
  _stop_flag : bool;
  source : list Raw;
  _prefetch_count : nat;
  _prefetch_queue : list (Scheduler.handle Batch);
  _batch_queue : list (option Batch);
  producer : producer_pc;
  consumer : consumer_pc;
  skip_batch : bool;
  batch : option Batch;
  caller : caller_pc;
  yielded : list Batch;
  dropped : nat }.

Definition start (gen_batch : list Raw) : state :=
  State false gen_batch 0 [] [] PTop CTop false None GTop [] 0.

Definition producer_step (s : state) : option state :=
  let go pc := State (_stop_flag s) (source s) (_prefetch_count s) (_prefetch_queue s)
                     (_batch_queue s) pc (consumer s) (skip_batch s) (batch s)
                     (caller s) (yielded s) (dropped s) in
  match producer s with
  | PTop => Some (go (if _stop_flag s then PEnd else PToken))
  | PToken =>
      if (_prefetch_count s <? prefetch + 1)%nat
      then Some (State (_stop_flag s) (source s) (S (_prefetch_count s))
                       (_prefetch_queue s) (_batch_queue s) PNext (consumer s)
                       (skip_batch s) (batch s) (caller s) (yielded s) (dropped s))
      else None
  | PNext =>
      match source s with
      | [] => Some (go PEnd)
      | raw :: rest =>
          Some (State (_stop_flag s) rest (_prefetch_count s) (_prefetch_queue s)
                      (_batch_queue s) (PPut (exec raw)) (consumer s) (skip_batch s)
                      (batch s) (caller s) (yielded s) (dropped s))
      end
  | PPut future =>
      if (length (_prefetch_queue s) <? prefetch)%nat
      then Some (State (_stop_flag s) (source s) (_prefetch_count s)
                       (_prefetch_queue s ++ [Scheduler.Future future])
                       (_batch_queue s) PTop (consumer s) (skip_batch s) (batch s)
                       (caller s) (yielded s) (dropped s))
      else None
  | PEnd =>
      if (length (_prefetch_queue s) <? prefetch)%nat
      then Some (State (_stop_flag s) (source s) (_prefetch_count s)
                       (_prefetch_queue s ++ [Scheduler.EndOfStream])
                       (_batch_queue s) PDone (consumer s) (skip_batch s) (batch s)
                       (caller s) (yielded s) (dropped s))
      else None
  | PDone => None
  end.

Definition consumer_step (s : state) : option state :=
  let go pc := State (_stop_flag s) (source s) (_prefetch_count s) (_prefetch_queue s)
                     (_batch_queue s) (producer s) pc (skip_batch s) (batch s)
                     (caller s) (yielded s) (dropped s) in
  match consumer s with
  | CTop => Some (go (if _stop_flag s then CDone else CGet))
  | CGet =>
      match _prefetch_queue s with
      | [] => None
      | Scheduler.EndOfStream :: rest =>
          Some (State (_stop_flag s) (source s) (_prefetch_count s) rest
                      (_batch_queue s) (producer s) CPutEnd (skip_batch s) (batch s)
                      (caller s) (yielded s) (dropped s))
      | Scheduler.Future outcome :: rest =>
          let '(skip, held) :=
            match outcome with
            | Return b => (skip_batch s, Some b)
            | Raise e => if is_skip e then (true, batch s) else (skip_batch s, batch s)
            end in
          if skip
          then Some (State (_stop_flag s) (source s) (_prefetch_count s) rest
                           (_batch_queue s) (producer s) CTop skip held
                           (caller s) (yielded s) (S (dropped s)))
          else match held with
               | Some b =>
                   Some (State (_stop_flag s) (source s) (_prefetch_count s) rest
                               (_batch_queue s) (producer s) (CPut b) skip held
                               (caller s) (yielded s) (dropped s))
               | None =>
                   Some (State (_stop_flag s) (source s) (_prefetch_count s) rest
                               (_batch_queue s) (producer s)
                               (CDied (UnboundLocalError "batch")) skip held
                               (caller s) (yielded s) (S (dropped s)))
               end
      end
  | CPut b =>
      if (length (_batch_queue s) <? 1)%nat
      then Some (State (_stop_flag s) (source s) (_prefetch_count s)
                       (_prefetch_queue s) (_batch_queue s ++ [Some b]) (producer s)
                       CTop false (batch s) (caller s) (yielded s) (dropped s))
      else None
  | CPutEnd =>
      if (length (_batch_queue s) <? 1)%nat
      then Some (State (_stop_flag s) (source s) (_prefetch_count s)
                       (_prefetch_queue s) (_batch_queue s ++ [None]) (producer s)
                       CDone (skip_batch s) (batch s) (caller s) (yielded s)
                       (dropped s))
      else None
  | CDone | CDied _ => None
  end.

Definition caller_step (s : state) : option state :=
  let go pc := State (_stop_flag s) (source s) (_prefetch_count s) (_prefetch_queue s)
                     (_batch_queue s) (producer s) (consumer s) (skip_batch s)
                     (batch s) pc (yielded s) (dropped s) in
  match caller s with
  | GTop => Some (go (if _stop_flag s then GDone else GGet))
  | GGet =>
      match _batch_queue s with
      | [] => None
      | Some batch_res :: rest =>
          Some (State (_stop_flag s) (source s) (_prefetch_count s)
                      (_prefetch_queue s) rest (producer s) (consumer s)
                      (skip_batch s) (batch s) GToken (yielded s ++ [batch_res])
                      (dropped s))
      | None :: rest =>
          Some (State true (source s) (_prefetch_count s) (_prefetch_queue s) rest
                      (producer s) (consumer s) (skip_batch s) (batch s) GTop
                      (yielded s) (dropped s))
      end
  | GToken =>
      match _prefetch_count s with
      | O => None
      | S n =>
          Some (State (_stop_flag s) (source s) n (_prefetch_queue s)
                      (_batch_queue s) (producer s) (consumer s) (skip_batch s)
                      (batch s) GTop (yielded s) (dropped s))
      end
  | GDone => None
  end.

Inductive worker := Producer | Consumer | Caller.

(** One atomic step of a worker; [None] when it is blocked or has ended. *)
Definition step (w : worker) (s : state) : option state :=
  match w with
  | Producer => producer_step s
  | Consumer => consumer_step s
  | Caller => caller_step s
  end.

(** A schedule names the worker to move next; one that cannot move is passed
    over. *)
Fixpoint run (schedule : list worker) (s : state) : state :=
  match schedule with
  | [] => s
  | w :: rest => run rest (default s (step w s))
  end.


(** *** Tokens: how many units are inside the scheduler *)

Definition is_future (h : Scheduler.handle Batch) : bool :=
  match h with Scheduler.Future _ => true | Scheduler.EndOfStream => false end.

Definition is_batch (x : option Batch) : bool :=
  match x with Some _ => true | None => false end.

(** Units pulled from the source (or about to be, the token being taken) and
    not yet handed back by the caller. *)
Definition in_flight (s : state) : nat :=
  (match producer s with PNext | PPut _ => 1 | _ => 0 end
   + length (List.filter is_future (_prefetch_queue s))
   + match consumer s with CPut _ => 1 | _ => 0 end
   + length (List.filter is_batch (_batch_queue s))
   + match caller s with GToken => 1 | _ => 0 end)%nat.

Record Tokens (s : state) : Prop := {
  tokens_cover : (in_flight s + dropped s ≤ _prefetch_count s)%nat;
  tokens_bound : (_prefetch_count s ≤ prefetch + 1)%nat;
  prefetch_bound : (length (_prefetch_queue s) ≤ prefetch)%nat;
  batch_bound : (length (_batch_queue s) ≤ 1)%nat }.

Lemma filter_app_length {A} (f : A → bool) (l : list A) (x : A) :
  length (List.filter f (l ++ [x]))
  = (length (List.filter f l) + if f x then 1 else 0)%nat.
Proof.
  induction l as [|y l IH]; simpl.
  - destruct (f x); reflexivity.
  - destruct (f y); simpl; rewrite IH; reflexivity.
Qed.

Lemma start_tokens (gen_batch : list Raw) : Tokens (start gen_batch).
Proof. split; simpl; lia. Qed.

Lemma step_tokens (w : worker) (s s' : state) :
  Tokens s → step w s = Some s' → Tokens s'.
Proof.
  intros [Hc Hb Hp Hq] Hs. unfold in_flight in Hc.
  destruct w; simpl in Hs.
  - unfold producer_step in Hs.
    destruct (producer s) eqn:Hpc.
    + inversion Hs; subst; clear Hs. split; unfold in_flight; simpl; try lia.
      destruct (_stop_flag s); lia.
    + destruct (_prefetch_count s <? prefetch + 1)%nat eqn:Hlt; [|discriminate].
      apply Nat.ltb_lt in Hlt.
      inversion Hs; subst; clear Hs. split; unfold in_flight; simpl; lia.
    + destruct (source s); inversion Hs; subst; clear Hs;
        split; unfold in_flight; simpl; lia.
    + destruct (length (_prefetch_queue s) <? prefetch)%nat eqn:Hlt; [|discriminate].
      apply Nat.ltb_lt in Hlt.
      inversion Hs; subst; clear Hs.
      split; unfold in_flight; simpl; rewrite ?filter_app_length, ?length_app;
        simpl; lia.
    + destruct (length (_prefetch_queue s) <? prefetch)%nat eqn:Hlt; [|discriminate].
      apply Nat.ltb_lt in Hlt.
      inversion Hs; subst; clear Hs.
      split; unfold in_flight; simpl; rewrite ?filter_app_length, ?length_app;
        simpl; lia.
    + discriminate.
  - unfold consumer_step in Hs.
    destruct (consumer s) eqn:Hpc.
    + inversion Hs; subst; clear Hs. split; unfold in_flight; simpl; try lia.
      destruct (_stop_flag s); lia.
    + destruct (_prefetch_queue s) as [|[|outcome] rest] eqn:Hpq; [discriminate| |].
      * simpl in Hc, Hp.
        inversion Hs; subst; clear Hs; split; unfold in_flight; simpl; lia.
      * simpl in Hc, Hp.
        destruct (match outcome with
                  | Return b => (skip_batch s, Some b)
                  | Raise e => if is_skip e then (true, batch s)
                               else (skip_batch s, batch s)
                  end) as [skip held].
        destruct skip; [|destruct held];
          inversion Hs; subst; clear Hs; split; unfold in_flight; simpl; lia.
    + destruct (length (_batch_queue s) <? 1)%nat eqn:Hlt; [|discriminate].
      apply Nat.ltb_lt in Hlt.
      inversion Hs; subst; clear Hs.
      split; unfold in_flight; simpl; rewrite ?filter_app_length, ?length_app;
        simpl; lia.
    + destruct (length (_batch_queue s) <? 1)%nat eqn:Hlt; [|discriminate].
      apply Nat.ltb_lt in Hlt.
      inversion Hs; subst; clear Hs.
      split; unfold in_flight; simpl; rewrite ?filter_app_length, ?length_app;
        simpl; lia.
    + discriminate.
    + discriminate.
  - unfold caller_step in Hs.
    destruct (caller s) eqn:Hpc.
    + inversion Hs; subst; clear Hs. split; unfold in_flight; simpl; try lia.
      destruct (_stop_flag s); lia.
    + destruct (_batch_queue s) as [|[b|] rest] eqn:Hbq; [discriminate| |];
        simpl in Hc, Hq;
        inversion Hs; subst; clear Hs; split; unfold in_flight; simpl; lia.
    + destruct (_prefetch_count s) as [|n] eqn:Hn; [discriminate|].
      inversion Hs; subst; clear Hs; split; unfold in_flight; simpl; lia.
    + discriminate.
Qed.

Lemma run_tokens (schedule : list worker) (s : state) :
  Tokens s → Tokens (run schedule s).
Proof.
  revert s. induction schedule as [|w rest IH]; intros s Hs; simpl; [exact Hs|].
  apply IH. destruct (step w s) as [s'|] eqn:E; simpl; [|exact Hs].
  eapply step_tokens; eauto.
Qed.

(** X16: whatever the units do, in every interleaving of the producer, the
    consumer and the generator loop, the units inside the scheduler (pulled
    or about to be pulled from the source, not yet handed back) plus the
    units the consumer dropped never exceed the tokens taken, which never
    exceed prefetch + 1; the two queues stay within their sizes. A dropped
    unit keeps its token for ever. *)
Theorem tokens_bound_in_flight (gen_batch : list Raw) (schedule : list worker) :
  let s := run schedule (start gen_batch) in
  (in_flight s + dropped s ≤ _prefetch_count s)%nat
  ∧ (_prefetch_count s ≤ prefetch + 1)%nat
  ∧ (length (_prefetch_queue s) ≤ prefetch)%nat
  ∧ (length (_batch_queue s) ≤ 1)%nat.
Proof.
  intros s. destruct (run_tokens schedule _ (start_tokens gen_batch)) as [? ? ? ?].
  repeat split; assumption.
Qed.

(** *** Order: what travels through the scheduler *)

(** The items between the source and the caller, oldest first: [Some r] for a
    unit whose future resolves to [r], [None] for the end marker. *)
Definition of_handle (h : Scheduler.handle Batch) : option (result Batch) :=
  match h with Scheduler.Future r => Some r | Scheduler.EndOfStream => None end.

Definition of_delivery (x : option Batch) : option (result Batch) :=
  match x with Some b => Some (Return b) | None => None end.

Definition of_raw (raw : Raw) : option (result Batch) := Some (exec raw).

Definition of_batch (b : Batch) : option (result Batch) := Some (Return b).

Definition upstream (s : state) : list (option (result Batch)) :=
  match producer s with
  | PTop | PToken | PNext => map of_raw (source s) ++ [None]
  | PPut r => Some r :: map of_raw (source s) ++ [None]
  | PEnd => [None]
  | PDone => []
  end.

Definition in_consumer (s : state) : list (option (result Batch)) :=
  match consumer s with
  | CPut b => [of_batch b]
  | CPutEnd => [None]
  | _ => []
  end.

Definition stream (s : state) : list (option (result Batch)) :=
  map of_batch (yielded s)
  ++ (if _stop_flag s then [None] else [])
  ++ map of_delivery (_batch_queue s)
  ++ in_consumer s
  ++ map of_handle (_prefetch_queue s)
  ++ upstream s.

Record Ordered (gen_batch : list Raw) (s : state) : Prop := {
  ordered_stream : stream s = map of_raw gen_batch ++ [None];
  ordered_skip : skip_batch s = false;
  ordered_done : caller s = GDone → _stop_flag s = true;
  ordered_dropped : dropped s = 0%nat }.

Lemma unit_before_end {A} (l1 t : list (option A)) (e : list A) (x : option A) :
  l1 ++ x :: t = map Some e ++ [None] → t ≠ [] → ∃ a, x = Some a ∧ In a e.
Proof.
  revert e. induction l1 as [|y l1 IH]; intros e H Ht; simpl in H.
  - destruct e as [|a e]; simpl in H.
    + inversion H; subst. contradiction.
    + inversion H; subst. exists a. split; [reflexivity|left; reflexivity].
  - destruct e as [|a e]; simpl in H.
    + inversion H as [[Hy Hl]]. destruct l1; discriminate.
    + inversion H as [[Hy Hl]]. destruct (IH e Hl Ht) as (a' & ? & ?).
      exists a'. split; [assumption|right; assumption].
Qed.

Lemma end_is_last {A} (l1 t : list (option A)) (e : list A) :
  l1 ++ None :: t = map Some e ++ [None] → l1 = map Some e ∧ t = [].
Proof.
  intros H. destruct t as [|x t].
  - apply app_inj_tail in H. destruct H as [H _]. split; [exact H|reflexivity].
  - exfalso. destruct (unit_before_end l1 (x :: t) e None H) as (a & Ha & _);
      [discriminate|discriminate].
Qed.

Lemma units_prefix {A} (l1 : list A) (t : list (option A)) (e : list A) :
  map Some l1 ++ t = map Some e ++ [None] → ∃ rest, e = l1 ++ rest.
Proof.
  revert e. induction l1 as [|y l1 IH]; intros e H; simpl in H.
  - exists e. reflexivity.
  - destruct e as [|a e]; simpl in H; [discriminate|].
    inversion H as [[Hy Hl]]. destruct (IH e Hl) as [rest ->].
    exists rest. reflexivity.
Qed.

Section AllReturn.
Variable gen_batch : list Raw.
Hypothesis all_return : ∀ raw, In raw gen_batch → ∃ b, exec raw = Return b.

Lemma expected_units :
  map of_raw gen_batch ++ [None] = map Some (map exec gen_batch) ++ [None].
Proof. unfold of_raw. rewrite map_map. reflexivity. Qed.

Lemma start_ordered : Ordered gen_batch (start gen_batch).
Proof. split; simpl; try reflexivity. discriminate. Qed.

Lemma unit_returns (l1 t : list (option (result Batch))) (r : result Batch) :
  l1 ++ Some r :: t = map of_raw gen_batch ++ [None] → ∃ b, r = Return b.
Proof.
  intros H. rewrite expected_units in H.
  destruct t as [|x t].
  - apply app_inj_tail in H. destruct H as [_ H]. discriminate.
  - destruct (unit_before_end _ _ _ _ H) as (a & Ha & Hin); [discriminate|].
    inversion Ha; subst. apply in_map_iff in Hin. destruct Hin as (raw & <- & Hraw).
    exact (all_return raw Hraw).
Qed.

Lemma flag_ends (s : state) (l1 t : list (option (result Batch))) :
  l1 ++ None :: t = map of_raw gen_batch ++ [None] → t = [].
Proof. intros H. rewrite expected_units in H. apply end_is_last in H. tauto. Qed.

Lemma step_ordered (w : worker) (s s' : state) :
  Ordered gen_batch s → step w s = Some s' → Ordered gen_batch s'.
Proof.
  intros [Hst Hsk Hdn Hdr] Hs. unfold stream in Hst.
  destruct w; simpl in Hs.
  - unfold producer_step in Hs. unfold upstream in Hst.
    destruct (producer s) eqn:Hpc.
    + destruct (_stop_flag s) eqn:Hf.
      * exfalso. rewrite !app_assoc in Hst. rewrite <- !app_assoc in Hst.
        simpl in Hst. apply (flag_ends s) in Hst.
        repeat (apply app_eq_nil in Hst; destruct Hst as [_ Hst]).
        discriminate.
      * inversion Hs; subst; clear Hs.
        split; unfold stream, upstream, in_consumer; simpl; assumption.
    + destruct (_prefetch_count s <? prefetch + 1)%nat; [|discriminate].
      inversion Hs; subst; clear Hs.
      split; unfold stream, upstream, in_consumer; simpl; assumption.
    + destruct (source s) as [|raw rest] eqn:Hsrc; inversion Hs; subst; clear Hs;
        split; unfold stream, upstream, in_consumer; simpl; assumption.
    + destruct (length (_prefetch_queue s) <? prefetch)%nat; [|discriminate].
      inversion Hs; subst; clear Hs.
      split; unfold stream, upstream, in_consumer; simpl; try assumption.
      rewrite map_app, <- !app_assoc. exact Hst.
    + destruct (length (_prefetch_queue s) <? prefetch)%nat; [|discriminate].
      inversion Hs; subst; clear Hs.
      split; unfold stream, upstream, in_consumer; simpl; try assumption.
      rewrite map_app, <- !app_assoc. exact Hst.
    + discriminate.
  - unfold consumer_step in Hs. unfold in_consumer in Hst.
    destruct (consumer s) eqn:Hpc.
    + inversion Hs; subst; clear Hs.
      split; unfold stream, upstream, in_consumer; simpl; try assumption.
      destruct (_stop_flag s); exact Hst.
    + destruct (_prefetch_queue s) as [|[|outcome] rest] eqn:Hpq; [discriminate| |].
      * inversion Hs; subst; clear Hs.
        split; unfold stream, upstream, in_consumer; simpl; assumption.
      * assert (∃ b, outcome = Return b) as [b ->].
        { simpl in Hst. rewrite !app_assoc in Hst. rewrite <- !app_assoc in Hst.
          rewrite !app_assoc in Hst. eapply unit_returns. exact Hst. }
        rewrite Hsk in Hs. inversion Hs; subst; clear Hs.
        split; unfold stream, upstream, in_consumer; simpl.
        all: try assumption; reflexivity.
    + destruct (length (_batch_queue s) <? 1)%nat; [|discriminate].
      inversion Hs; subst; clear Hs.
      split; unfold stream, upstream, in_consumer; simpl; try assumption;
        try reflexivity.
      rewrite map_app, <- !app_assoc. exact Hst.
    + destruct (length (_batch_queue s) <? 1)%nat; [|discriminate].
      inversion Hs; subst; clear Hs.
      split; unfold stream, upstream, in_consumer; simpl; try assumption.
      rewrite map_app, <- !app_assoc. exact Hst.
    + discriminate.
    + discriminate.
  - unfold caller_step in Hs.
    destruct (caller s) eqn:Hpc.
    + inversion Hs; subst; clear Hs.
      split; unfold stream, upstream, in_consumer; simpl; try assumption.
      destruct (_stop_flag s); [reflexivity|discriminate].
    + destruct (_batch_queue s) as [|[b|] rest] eqn:Hbq; [discriminate| |].
      * destruct (_stop_flag s) eqn:Hf.
        { exfalso. simpl in Hst. apply (flag_ends s) in Hst. discriminate. }
        inversion Hs; subst; clear Hs.
        split; unfold stream, upstream, in_consumer; simpl; try assumption;
          try discriminate.
        rewrite map_app, <- !app_assoc. exact Hst.
      * destruct (_stop_flag s) eqn:Hf.
        { exfalso. simpl in Hst. apply (flag_ends s) in Hst. discriminate. }
        inversion Hs; subst; clear Hs.
        split; unfold stream, upstream, in_consumer; simpl; try assumption;
          try discriminate.
    + destruct (_prefetch_count s) as [|n]; [discriminate|].
      inversion Hs; subst; clear Hs.
      split; unfold stream, upstream, in_consumer; simpl; try assumption;
        try discriminate.
    + discriminate.
Qed.

Lemma run_ordered (schedule : list worker) (s : state) :
  Ordered gen_batch s → Ordered gen_batch (run schedule s).
Proof.
  revert s. induction schedule as [|w rest IH]; intros s Hs; simpl; [exact Hs|].
  apply IH. destruct (step w s) as [s'|] eqn:E; simpl; [|exact Hs].
  eapply step_ordered; eauto.
Qed.

Lemma map_Some_inj {A} (l e : list A) : map Some l = map Some e → l = e.
Proof.
  revert e. induction l as [|x l IH]; intros [|y e] H; simpl in H;
    try discriminate; [reflexivity|].
  inversion H; subst. f_equal. apply IH. assumption.
Qed.

(** X17: when every unit's future returns a batch, then in every interleaving
    of the three workers the batches yielded so far are, in order and without
    a gap or a repetition, the results of the first units of the source;
    nothing is dropped, and once the generator loop has ended the yielded
    batches are the results of all units. *)
Theorem prefetch_keeps_order (schedule : list worker) :
  (∃ rest, map exec gen_batch
           = map Return (yielded (run schedule (start gen_batch))) ++ rest)
  ∧ dropped (run schedule (start gen_batch)) = 0%nat
  ∧ (caller (run schedule (start gen_batch)) = GDone →
     map Return (yielded (run schedule (start gen_batch))) = map exec gen_batch).
Proof.
  destruct (run_ordered schedule _ start_ordered) as [Hst _ Hdn Hdr].
  set (s := run schedule (start gen_batch)) in *.
  unfold stream in Hst. rewrite expected_units in Hst.
  assert (Hy : map of_batch (yielded s) = map Some (map Return (yielded s))).
  { unfold of_batch. rewrite map_map. reflexivity. }
  rewrite Hy in Hst.
  split; [|split].
  - eapply units_prefix. exact Hst.
  - exact Hdr.
  - intros Hg. rewrite (Hdn Hg) in Hst. simpl in Hst.
    apply end_is_last in Hst. destruct Hst as [Hst _].
    apply map_Some_inj. exact Hst.
Qed.

End AllReturn.

(** *** Progress: one unit at a time *)

Definition one_unit : list worker :=
  [Producer; Producer; Producer; Producer;
   Consumer; Consumer; Consumer;
   Caller; Caller; Caller].

Definition round_robin (gen_batch : list Raw) : list worker :=
  concat (replicate (S (length gen_batch)) one_unit).

Definition idle (gen_batch : list Raw) (held : option Batch) (ys : list Batch) : state :=
  State false gen_batch 0 [] [] PTop CTop false held GTop ys 0.

Lemma run_app (a b : list worker) (s : state) : run (a ++ b) s = run b (run a s).
Proof. revert s. induction a as [|w a IH]; intros s; simpl; [reflexivity|apply IH]. Qed.

Lemma run_cons (w : worker) (rest : list worker) (s s' : state) :
  step w s = Some s' → run (w :: rest) s = run rest s'.
Proof. intros H. simpl. rewrite H. reflexivity. Qed.

Ltac move_on Hcount Hqueue :=
  erewrite run_cons;
  [|unfold step, producer_step, consumer_step, caller_step;
    cbn [producer consumer caller _stop_flag source _prefetch_count
         _prefetch_queue _batch_queue skip_batch batch yielded dropped length];
    rewrite ?Hcount, ?Hqueue; reflexivity].

Lemma idle_unit (raw : Raw) (rest : list Raw) (b : Batch) held ys :
  (1 ≤ prefetch)%nat → exec raw = Return b →
  run one_unit (idle (raw :: rest) held ys) = idle rest (Some b) (ys ++ [b]).
Proof.
  intros Hp He.
  assert (Hcount : (0 <? prefetch + 1)%nat = true) by (apply Nat.ltb_lt; lia).
  assert (Hqueue : (0 <? prefetch)%nat = true) by (apply Nat.ltb_lt; lia).
  unfold one_unit, idle.
  do 3 move_on Hcount Hqueue. rewrite He.
  do 7 move_on Hcount Hqueue.
  reflexivity.
Qed.

Lemma idle_end held ys :
  (1 ≤ prefetch)%nat →
  caller (run one_unit (idle [] held ys)) = GDone
  ∧ yielded (run one_unit (idle [] held ys)) = ys.
Proof.
  intros Hp.
  assert (Hcount : (0 <? prefetch + 1)%nat = true) by (apply Nat.ltb_lt; lia).
  assert (Hqueue : (0 <? prefetch)%nat = true) by (apply Nat.ltb_lt; lia).
  unfold one_unit, idle.
  do 10 move_on Hcount Hqueue.
  split; reflexivity.
Qed.

Lemma round_robin_delivers (gen_batch : list Raw) held ys :
  (1 ≤ prefetch)%nat →
  (∀ raw, In raw gen_batch → ∃ b, exec raw = Return b) →
  caller (run (round_robin gen_batch) (idle gen_batch held ys)) = GDone
  ∧ map Return (yielded (run (round_robin gen_batch) (idle gen_batch held ys)))
    = map Return ys ++ map exec gen_batch.
Proof.
  intros Hp. revert held ys.
  induction gen_batch as [|raw rest IH]; intros held ys Hall.
  - unfold round_robin. cbn [length replicate concat]. rewrite !app_nil_r.
    destruct (idle_end held ys Hp) as [-> ->]. split; reflexivity.
  - destruct (Hall raw (or_introl eq_refl)) as [b Hb].
    unfold round_robin. cbn [length replicate concat].
    rewrite run_app. rewrite (idle_unit raw rest b held ys Hp Hb).
    destruct (IH (Some b) (ys ++ [b])) as [Hc Hy].
    { intros r Hr. apply Hall. right. exact Hr. }
    unfold round_robin in Hc, Hy. cbn [length replicate concat] in Hc, Hy.
    split; [exact Hc|]. rewrite Hy. rewrite map_app. simpl. rewrite Hb.
    rewrite <- app_assoc. reflexivity.
Qed.

(** X18: with a look-ahead of at least 1 and units that all return, the
    scheduler can finish: letting the producer, the consumer and the
    generator loop move in turn, one unit at a time, the loop ends after
    having yielded the results of all units in source order. *)
Theorem prefetch_delivers_all (gen_batch : list Raw) :
  (1 ≤ prefetch)%nat →
  (∀ raw, In raw gen_batch → ∃ b, exec raw = Return b) →
  caller (run (round_robin gen_batch) (start gen_batch)) = GDone
  ∧ map Return (yielded (run (round_robin gen_batch) (start gen_batch)))
    = map exec gen_batch.
Proof.
  intros Hp Hall.
  destruct (round_robin_delivers gen_batch None [] Hp Hall) as [Hc Hy].
  split; [exact Hc|exact Hy].
Qed.

(** *** The end marker: who has seen it *)

Definition in_loop (pc : producer_pc) : bool :=
  match pc with PTop | PToken | PNext | PPut _ => true | PEnd | PDone => false end.

Record Wired (s : state) : Prop := {
  wired_open : consumer s ≠ CDone →
    _stop_flag s = false ∧ forallb is_batch (_batch_queue s) = true
    ∧ caller s ≠ GDone;
  wired_loop : in_loop (producer s) = true →
    forallb is_future (_prefetch_queue s) = true
    ∧ consumer s ≠ CPutEnd ∧ consumer s ≠ CDone }.

Lemma start_wired (gen_batch : list Raw) : Wired (start gen_batch).
Proof. split; simpl; intros _; repeat split; discriminate. Qed.

Lemma forallb_snoc {A} (f : A → bool) (l : list A) (x : A) :
  forallb f (l ++ [x]) = forallb f l && f x.
Proof. rewrite forallb_app. simpl. rewrite andb_true_r. reflexivity. Qed.

Lemma step_wired (w : worker) (s s' : state) :
  Wired s → step w s = Some s' → Wired s'.
Proof.
  intros [Ho Hl] Hs.
  destruct w; simpl in Hs.
  - unfold producer_step in Hs.
    destruct (producer s) eqn:Hpc; simpl in Hl.
    + inversion Hs; subst; clear Hs. split; simpl; [exact Ho|].
      intros _. apply Hl. reflexivity.
    + destruct (_prefetch_count s <? prefetch + 1)%nat; [|discriminate].
      inversion Hs; subst; clear Hs. split; simpl; assumption.
    + destruct (source s); inversion Hs; subst; clear Hs; split; simpl;
        try assumption; discriminate.
    + destruct (length (_prefetch_queue s) <? prefetch)%nat; [|discriminate].
      inversion Hs; subst; clear Hs. split; simpl; [exact Ho|].
      intros _. destruct (Hl eq_refl) as (Hq & ? & ?).
      rewrite forallb_snoc, Hq. repeat split; assumption.
    + destruct (length (_prefetch_queue s) <? prefetch)%nat; [|discriminate].
      inversion Hs; subst; clear Hs. split; simpl; [exact Ho|discriminate].
    + discriminate.
  - unfold consumer_step in Hs.
    destruct (consumer s) eqn:Hpc.
    + destruct (Ho ltac:(discriminate)) as (Hf & Hb & Hg).
      rewrite Hf in Hs. inversion Hs; subst; clear Hs. split; simpl.
      * intros _. repeat split; assumption.
      * intros Hin. destruct (Hl Hin) as (? & _ & _).
        repeat split; [assumption|discriminate|discriminate].
    + destruct (Ho ltac:(discriminate)) as (Hf & Hb & Hg).
      destruct (_prefetch_queue s) as [|[|outcome] rest] eqn:Hpq; [discriminate| |].
      * inversion Hs; subst; clear Hs. split; simpl.
        -- intros _. repeat split; assumption.
        -- intros Hin. destruct (Hl Hin) as (Hq & _ & _). discriminate.
      * destruct (match outcome with
                  | Return b => (skip_batch s, Some b)
                  | Raise e => if is_skip e then (true, batch s)
                               else (skip_batch s, batch s)
                  end) as [skip held].
        destruct skip; [|destruct held];
          inversion Hs; subst; clear Hs; split; simpl;
          try (intros _; repeat split; assumption);
          intros Hin; destruct (Hl Hin) as (Hq & _ & _); simpl in Hq;
          repeat split; try assumption; discriminate.
    + destruct (Ho ltac:(discriminate)) as (Hf & Hb & Hg).
      destruct (length (_batch_queue s) <? 1)%nat; [|discriminate].
      inversion Hs; subst; clear Hs. split; simpl.
      * intros _. rewrite forallb_snoc, Hb. repeat split; assumption.
      * intros Hin. destruct (Hl Hin) as (? & _ & _).
        repeat split; [assumption|discriminate|discriminate].
    + destruct (length (_batch_queue s) <? 1)%nat; [|discriminate].
      inversion Hs; subst; clear Hs. split; simpl.
      * intros H. contradiction.
      * intros Hin. destruct (Hl Hin) as (_ & H & _). contradiction.
    + discriminate.
    + discriminate.
  - unfold caller_step in Hs.
    destruct (caller s) eqn:Hpc.
    + inversion Hs; subst; clear Hs. split; simpl; [|exact Hl].
      intros Hc. destruct (Ho Hc) as (Hf & Hb & Hg). rewrite Hf.
      repeat split; [assumption|discriminate].
    + destruct (_batch_queue s) as [|[b|] rest] eqn:Hbq; [discriminate| |].
      * inversion Hs; subst; clear Hs. split; simpl; [|exact Hl].
        intros Hc. destruct (Ho Hc) as (Hf & Hb & Hg). simpl in Hb.
        repeat split; [assumption|assumption|discriminate].
      * inversion Hs; subst; clear Hs. split; simpl; [|exact Hl].
        intros Hc. destruct (Ho Hc) as (Hf & Hb & Hg). simpl in Hb. discriminate.
    + destruct (_prefetch_count s) as [|n]; [discriminate|].
      inversion Hs; subst; clear Hs. split; simpl; [|exact Hl].
      intros Hc. destruct (Ho Hc) as (Hf & Hb & Hg).
      repeat split; [assumption|assumption|discriminate].
    + discriminate.
Qed.

Lemma run_wired (schedule : list worker) (s : state) :
  Wired s → Wired (run schedule s).
Proof.
  revert s. induction schedule as [|w rest IH]; intros s Hs; simpl; [exact Hs|].
  apply IH. destruct (step w s) as [s'|] eqn:E; simpl; [|exact Hs].
  eapply step_wired; eauto.
Qed.

Lemma step_died (w : worker) (s s' : state) (e : exn) :
  consumer s = CDied e → step w s = Some s' → consumer s' = CDied e.
Proof.
  intros Hc Hs. destruct w; simpl in Hs.
  - unfold producer_step in Hs.
    destruct (producer s);
      try destruct (_prefetch_count s <? prefetch + 1)%nat;
      try destruct (length (_prefetch_queue s) <? prefetch)%nat;
      try destruct (source s);
      try discriminate; inversion Hs; subst; simpl; assumption.
  - unfold consumer_step in Hs. rewrite Hc in Hs. discriminate.
  - unfold caller_step in Hs.
    destruct (caller s);
      try destruct (_batch_queue s) as [|[|] ?];
      try destruct (_prefetch_count s);
      try discriminate; inversion Hs; subst; simpl; assumption.
Qed.

Lemma run_died (schedule : list worker) (s : state) (e : exn) :
  consumer s = CDied e → consumer (run schedule s) = CDied e.
Proof.
  revert s. induction schedule as [|w rest IH]; intros s Hs; simpl; [exact Hs|].
  apply IH. destruct (step w s) as [s'|] eqn:E; simpl; [|exact Hs].
  eapply step_died; eauto.
Qed.

(** X19: once the consumer has died (the finally clause raised), the end
    marker is never passed on: however the workers are scheduled afterwards,
    the consumer stays dead and the generator loop never ends, so the caller
    is never told that the iteration is over. *)
Theorem dead_consumer_never_ends (gen_batch : list Raw) (schedule more : list worker)
    (e : exn) :
  consumer (run schedule (start gen_batch)) = CDied e →
  consumer (run more (run schedule (start gen_batch))) = CDied e
  ∧ caller (run more (run schedule (start gen_batch))) ≠ GDone
  ∧ _stop_flag (run more (run schedule (start gen_batch))) = false.
Proof.
  intros Hd.
  pose proof (run_died more _ e Hd) as Hd'.
  pose proof (run_wired more _ (run_wired schedule _ (start_wired gen_batch))) as [Ho _].
  destruct Ho as (Hf & _ & Hg); [rewrite Hd'; discriminate|].
  repeat split; assumption.
Qed.

(** *** Starvation: dropped units keep their tokens *)

Lemma step_starved (w : worker) (s s' : state) :
  Tokens s → Wired s → dropped s = (prefetch + 1)%nat →
  producer s = PTop ∨ producer s = PToken →
  step w s = Some s' →
  dropped s' = (prefetch + 1)%nat
  ∧ (producer s' = PTop ∨ producer s' = PToken)
  ∧ yielded s' = yielded s ∧ source s' = source s.
Proof.
  intros [Hc Hb _ _] [Ho Hl] Hd Hp Hs. unfold in_flight in Hc.
  assert (Hin : in_loop (producer s) = true) by (destruct Hp as [-> | ->]; reflexivity).
  destruct (Hl Hin) as (Hq & Hne & Hnd).
  destruct (Ho Hnd) as (Hf & Hbq & Hg).
  destruct w; simpl in Hs.
  - unfold producer_step in Hs. destruct Hp as [Hp | Hp]; rewrite Hp in Hs.
    + rewrite Hf in Hs. inversion Hs; subst; clear Hs. simpl. tauto.
    + destruct (_prefetch_count s <? prefetch + 1)%nat eqn:Hlt; [|discriminate].
      apply Nat.ltb_lt in Hlt. lia.
  - unfold consumer_step in Hs.
    destruct (consumer s) eqn:Hpc; try discriminate; try contradiction.
    + rewrite Hf in Hs. inversion Hs; subst; clear Hs. simpl. tauto.
    + destruct (_prefetch_queue s) as [|[|outcome] rest]; [discriminate| |].
      * simpl in Hq. discriminate.
      * simpl in Hc. lia.
    + lia.
  - unfold caller_step in Hs.
    destruct (caller s) eqn:Hpc; try discriminate; try contradiction.
    + rewrite Hf in Hs. inversion Hs; subst; clear Hs. simpl. tauto.
    + destruct (_batch_queue s) as [|[b|] rest]; [discriminate| |].
      * simpl in Hc. lia.
      * simpl in Hbq. discriminate.
    + lia.
Qed.

Lemma run_starved (more : list worker) (s : state) :
  Tokens s → Wired s → dropped s = (prefetch + 1)%nat →
  producer s = PTop ∨ producer s = PToken →
  yielded (run more s) = yielded s ∧ source (run more s) = source s
  ∧ (producer (run more s) = PTop ∨ producer (run more s) = PToken).
Proof.
  revert s. induction more as [|w rest IH]; intros s Ht Hw Hd Hp; simpl; [tauto|].
  destruct (step w s) as [s'|] eqn:E; simpl; [|apply IH; assumption].
  destruct (step_starved w s s' Ht Hw Hd Hp E) as (Hd' & Hp' & Hy & Hsrc).
  destruct (IH s' (step_tokens w s s' Ht E) (step_wired w s s' Hw E) Hd' Hp')
    as (? & ? & ?).
  repeat split; [congruence|congruence|assumption].
Qed.

(** X20: every unit the consumer drops keeps its token. Once prefetch + 1
    units have been dropped while the producer is still in its loop, the
    producer blocks for ever on the token queue: however the workers are
    scheduled from then on, no further unit is pulled from the source, no
    further batch is yielded and the generator loop never ends. *)
Theorem dropped_units_starve (gen_batch : list Raw) (schedule more : list worker) :
  dropped (run schedule (start gen_batch)) = (prefetch + 1)%nat →
  producer (run schedule (start gen_batch)) = PTop
  ∨ producer (run schedule (start gen_batch)) = PToken →
  yielded (run more (run schedule (start gen_batch)))
  = yielded (run schedule (start gen_batch))
  ∧ source (run more (run schedule (start gen_batch)))
    = source (run schedule (start gen_batch))
  ∧ caller (run more (run schedule (start gen_batch))) ≠ GDone.
Proof.
  intros Hd Hp.
  pose proof (run_tokens schedule _ (start_tokens gen_batch)) as Ht.
  pose proof (run_wired schedule _ (start_wired gen_batch)) as Hw.
  destruct (run_starved more _ Ht Hw Hd Hp) as (Hy & Hs & Hp').
  pose proof (run_wired more _ Hw) as [Ho Hl].
  assert (Hin : in_loop (producer (run more (run schedule (start gen_batch)))) = true)
    by (destruct Hp' as [-> | ->]; reflexivity).
  destruct (Hl Hin) as (_ & _ & Hnd). destruct (Ho Hnd) as (_ & _ & Hg).
  repeat split; assumption.
Qed.

(** *** A first unit that fails *)

Record Failing (e : exn) (s : state) : Prop := {
  failing_yielded : yielded s = [];
  failing_queue : _batch_queue s = [];
  failing_flag : _stop_flag s = false;
  failing_caller : caller s = GTop ∨ caller s = GGet;
  failing_consumer :
    ((consumer s = CTop ∨ consumer s = CGet)
     ∧ batch s = None ∧ skip_batch s = false
     ∧ hd_error (map of_handle (_prefetch_queue s) ++ upstream s)
       = Some (Some (Raise e)))
    ∨ ∃ e', consumer s = CDied e' }.

Lemma step_failing (e : exn) (w : worker) (s s' : state) :
  is_skip e = false → Failing e s → step w s = Some s' → Failing e s'.
Proof.
  intros He [Hy Hq Hf Hg Hc] Hs.
  destruct w; simpl in Hs.
  - assert (Hsame : map of_handle (_prefetch_queue s') ++ upstream s'
                    = map of_handle (_prefetch_queue s) ++ upstream s
                    ∧ yielded s' = yielded s ∧ _batch_queue s' = _batch_queue s
                    ∧ _stop_flag s' = _stop_flag s ∧ caller s' = caller s
                    ∧ consumer s' = consumer s ∧ batch s' = batch s
                    ∧ skip_batch s' = skip_batch s).
    { unfold producer_step in Hs. unfold upstream.
      destruct (producer s) eqn:Hpc.
      - rewrite Hf in Hs. inversion Hs; subst; clear Hs. simpl. rewrite ?Hpc. repeat split; congruence.
      - destruct (_prefetch_count s <? prefetch + 1)%nat; [|discriminate].
        inversion Hs; subst; clear Hs. simpl. rewrite ?Hpc. repeat split; congruence.
      - destruct (source s) eqn:Hsrc; inversion Hs; subst; clear Hs; simpl;
          rewrite ?Hpc; repeat split; congruence.
      - destruct (length (_prefetch_queue s) <? prefetch)%nat; [|discriminate].
        inversion Hs; subst; clear Hs. simpl. rewrite ?Hpc.
        rewrite map_app, <- app_assoc. simpl. repeat split; congruence.
      - destruct (length (_prefetch_queue s) <? prefetch)%nat; [|discriminate].
        inversion Hs; subst; clear Hs. simpl. rewrite ?Hpc.
        rewrite map_app, <- app_assoc. simpl. repeat split; congruence.
      - discriminate. }
    destruct Hsame as (Hst & Hy' & Hq' & Hf' & Hg' & Hc' & Hb' & Hk').
    split; try congruence.
    rewrite Hc', Hb', Hk', Hst. exact Hc.
  - unfold consumer_step in Hs.
    destruct Hc as [([Hc | Hc] & Hb & Hk & Hh) | [e' Hc]]; rewrite Hc in Hs.
    + rewrite Hf in Hs. inversion Hs; subst; clear Hs.
      split; simpl; try assumption; try reflexivity.
      left. repeat split; try assumption. right. reflexivity.
    + destruct (_prefetch_queue s) as [|h rest] eqn:Hpq; [discriminate|].
      simpl in Hh. inversion Hh as [Hh']. destruct h as [|outcome]; [discriminate|].
      simpl in Hh'. inversion Hh'; subst outcome.
      rewrite He, Hk, Hb in Hs. inversion Hs; subst; clear Hs.
      split; simpl; try assumption; try reflexivity. right. eexists. reflexivity.
    + discriminate.
  - unfold caller_step in Hs.
    destruct Hg as [Hg | Hg]; rewrite Hg in Hs.
    + rewrite Hf in Hs. inversion Hs; subst; clear Hs.
      split; simpl; try assumption; try reflexivity. right. reflexivity.
    + rewrite Hq in Hs. discriminate.
Qed.

Lemma run_failing (e : exn) (schedule : list worker) (s : state) :
  is_skip e = false → Failing e s → Failing e (run schedule s).
Proof.
  intros He. revert s.
  induction schedule as [|w rest IH]; intros s Hs; simpl; [exact Hs|].
  apply IH. destruct (step w s) as [s'|] eqn:E; simpl; [|exact Hs].
  eapply step_failing; eauto.
Qed.

(** X21: when the future of the first unit raises an exception other than
    SkipBatchException, nothing is ever yielded and the generator loop never
    ends, however the three workers are scheduled: the consumer either has
    not reached that unit yet or has died on it. *)
Theorem first_unit_failure_hangs (raw : Raw) (rest : list Raw) (e : exn)
    (schedule : list worker) :
  exec raw = Raise e → is_skip e = false →
  yielded (run schedule (start (raw :: rest))) = []
  ∧ caller (run schedule (start (raw :: rest))) ≠ GDone
  ∧ consumer (run schedule (start (raw :: rest))) ≠ CDone.
Proof.
  intros Hx He.
  assert (H0 : Failing e (start (raw :: rest))).
  { split; simpl; try reflexivity; [left; reflexivity|].
    left. repeat split; try reflexivity; [left; reflexivity|].
    unfold upstream. simpl. unfold of_raw. rewrite Hx. reflexivity. }
  destruct (run_failing e schedule _ He H0) as [Hy _ _ Hg Hc].
  split; [exact Hy|]. split.
  - destruct Hg as [-> | ->]; discriminate.
  - destruct Hc as [([-> | ->] & _) | [e' ->]]; discriminate.
Qed.

(** *** Without prefetch: the loop of [gen_batch] over the source *)

(** The batches that the generator yields, and the exception that ends it, if
    one does. *)
Fixpoint sequential (gen_batch : list Raw) : list Batch * option exn :=
  match gen_batch with
  | [] => ([], None)
  | raw :: rest =>
      match exec raw with
      | Return batch_res =>
          let '(ys, e) := sequential rest in (batch_res :: ys, e)
      | Raise e => if is_skip e then sequential rest else ([], Some e)
      end
  end.

Definition returned (raw : Raw) : option Batch :=
  match exec raw with Return b => Some b | Raise _ => None end.

Lemma sequential_skipping (l : list Raw) :
  (∀ raw e, In raw l → exec raw = Raise e → is_skip e = true) →
  sequential l = (omap returned l, None).
Proof.
  induction l as [|raw l IH]; intros Hl; simpl; [reflexivity|].
  unfold returned at 1.
  destruct (exec raw) as [b|e] eqn:He.
  - rewrite IH; [reflexivity|]. intros r e' Hr. apply Hl. right. exact Hr.
  - rewrite (Hl raw e (or_introl eq_refl) He).
    apply IH. intros r e' Hr. apply Hl. right. exact Hr.
Qed.

Lemma sequential_app (l1 l2 : list Raw) :
  (∀ raw e, In raw l1 → exec raw = Raise e → is_skip e = true) →
  sequential (l1 ++ l2)
  = (omap returned l1 ++ (sequential l2).1, (sequential l2).2).
Proof.
  induction l1 as [|raw l1 IH]; intros Hl; simpl.
  - by destruct (sequential l2).
  - unfold returned at 1.
    destruct (exec raw) as [b|e] eqn:He.
    + rewrite IH; [reflexivity|]. intros r e' Hr. apply Hl. right. exact Hr.
    + rewrite (Hl raw e (or_introl eq_refl) He).
      apply IH. intros r e' Hr. apply Hl. right. exact Hr.
Qed.

(** X27.  Without prefetch a unit that raises SkipBatchException is left
    out and all the others are still yielded; the first unit that raises
    another exception ends the generator with that exception, after the
    results of all earlier units that returned have been yielded, and no
    later unit is run. *)
Theorem sequential_stops_at_first_failure (l1 l2 : list Raw) (raw : Raw) (e : exn) :
  (∀ r e', In r l1 → exec r = Raise e' → is_skip e' = true) →
  exec raw = Raise e → is_skip e = false →
  sequential (l1 ++ raw :: l2) = (omap returned l1, Some e)
  ∧ sequential l1 = (omap returned l1, None).
Proof.
  intros Hl He Hs. split; [|by apply sequential_skipping].
  rewrite sequential_app by exact Hl. simpl. rewrite He, Hs. simpl.
  by rewrite app_nil_r.
Qed.

(** X28.  When every unit returns, the scheduler with prefetch and the plain
    loop yield the same batches: whenever the generator loop has ended, in
    whatever interleaving, the batches yielded are exactly those of the loop
    without prefetch, which ends without an exception. *)
Theorem prefetch_agrees_with_sequential (gen_batch : list Raw) (schedule : list worker) :
  (∀ raw, In raw gen_batch → ∃ b, exec raw = Return b) →
  caller (run schedule (start gen_batch)) = GDone →
  sequential gen_batch = (yielded (run schedule (start gen_batch)), None).
Proof.
  intros Hall Hg.
  destruct (run_ordered gen_batch Hall schedule _ (start_ordered gen_batch))
    as [Hst _ Hdn _].
  unfold stream in Hst. rewrite (Hdn Hg) in Hst.
  rewrite expected_units in Hst.
  assert (Hy : map of_batch (yielded (run schedule (start gen_batch)))
               = map Some (map Return (yielded (run schedule (start gen_batch))))).
  { unfold of_batch. rewrite map_map. reflexivity. }
  rewrite Hy in Hst. simpl in Hst. apply end_is_last in Hst as [Hst _].
  apply map_Some_inj in Hst.
  rewrite sequential_skipping.
  2: { intros raw e Hraw He. destruct (Hall raw Hraw) as [b Hb]. congruence. }
  f_equal. revert Hst. generalize (yielded (run schedule (start gen_batch))).
  clear -Hall. induction gen_batch as [|raw l IH]; intros ys Hys.
  - destruct ys; [reflexivity|discriminate].
  - destruct ys as [|y ys]; [discriminate|]. simpl in Hys.
    injection Hys as Hy Hys'. simpl. unfold returned at 1. rewrite <- Hy.
    f_equal. apply IH; [|exact Hys'].
    intros r Hr. apply Hall. right. exact Hr.
Qed.

End Machine.

(** Units are numbers; [doubling] always returns, [failing_first] raises an
    ordinary exception on unit 0 and [skipping_first] a SkipBatchException. *)
Definition doubling (raw : nat) : result nat := Return (2 * raw)%nat.

Definition failing_first (raw : nat) : result nat :=
  match raw with O => Raise (OtherError 0) | S _ => Return raw end.

Definition skipping_first (raw : nat) : result nat :=
  match raw with O => Raise SkipBatchException | S _ => Return raw end.

Definition eager : list worker :=
  [Producer; Producer; Producer; Producer; Consumer; Consumer; Consumer;
   Producer; Producer; Producer; Producer; Caller; Caller].

Definition until_death : list worker :=
  [Producer; Producer; Producer; Producer; Consumer; Consumer].

Definition until_starved : list worker :=
  [Producer; Producer; Producer; Producer; Consumer; Consumer;
   Producer; Producer; Producer; Producer; Consumer; Consumer;
   Producer].

Lemma prefetch_keeps_order_witness :
  yielded (run doubling 1 eager (start [1; 2; 3]%nat)) = [2%nat]
  ∧ ∃ rest, map doubling [1; 2; 3]%nat
            = map Return (yielded (run doubling 1 eager (start [1; 2; 3]%nat))) ++ rest.
Proof.
  split; [reflexivity|].
  apply (prefetch_keeps_order doubling 1 [1; 2; 3]%nat).
  intros raw _. exists (2 * raw)%nat. reflexivity.
Defined.

Lemma prefetch_delivers_all_witness :
  caller (run doubling 1 (round_robin [1; 2; 3]%nat) (start [1; 2; 3]%nat)) = GDone
  ∧ map Return (yielded (run doubling 1 (round_robin [1; 2; 3]%nat)
                           (start [1; 2; 3]%nat)))
    = map doubling [1; 2; 3]%nat.
Proof.
  apply (prefetch_delivers_all doubling 1 [1; 2; 3]%nat).
  - lia.
  - intros raw _. exists (2 * raw)%nat. reflexivity.
Defined.

Lemma dead_consumer_never_ends_witness :
  consumer (run failing_first 1 until_death (start [0; 1; 2]%nat))
  = CDied (UnboundLocalError "batch")
  ∧ caller (run failing_first 1 eager
              (run failing_first 1 until_death (start [0; 1; 2]%nat))) ≠ GDone.
Proof.
  split; [reflexivity|].
  apply (dead_consumer_never_ends failing_first 1 [0; 1; 2]%nat until_death eager
           (UnboundLocalError "batch")).
  reflexivity.
Defined.

Lemma dropped_units_starve_witness :
  dropped (run skipping_first 1 until_starved (start [0; 1; 2; 3]%nat)) = 2%nat
  ∧ source (run skipping_first 1 eager
              (run skipping_first 1 until_starved (start [0; 1; 2; 3]%nat)))
    = [2; 3]%nat.
Proof.
  split; [reflexivity|].
  destruct (dropped_units_starve skipping_first 1 [0; 1; 2; 3]%nat until_starved eager)
    as (_ & Hs & _).
  - reflexivity.
  - right. reflexivity.
  - rewrite Hs. reflexivity.
Defined.

Lemma first_unit_failure_hangs_witness :
  yielded (run failing_first 1 (round_robin [0; 1; 2]%nat) (start [0; 1; 2]%nat)) = []
  ∧ caller (run failing_first 1 (round_robin [0; 1; 2]%nat) (start [0; 1; 2]%nat))
    ≠ GDone.
Proof.
  destruct (first_unit_failure_hangs failing_first 1 0%nat [1; 2]%nat (OtherError 0)
              (round_robin [0; 1; 2]%nat) eq_refl eq_refl) as (Hy & Hg & _).
  split; [exact Hy|exact Hg].
Defined.


Lemma sequential_stops_at_first_failure_witness :
  sequential skipping_first ([1; 0; 2]%nat ++ 0%nat :: [3%nat]) = ([1; 2; 3]%nat, None)
  ∧ sequential failing_first ([1; 2]%nat ++ 0%nat :: [3%nat])
    = ([1; 2]%nat, Some (OtherError 0)).
Proof.
  split; [reflexivity|].
  apply (sequential_stops_at_first_failure failing_first [1; 2]%nat [3%nat] 0%nat
           (OtherError 0)).
  - intros r e' [<- | [<- | []]]; discriminate.
  - reflexivity.
  - reflexivity.
Defined.

Lemma prefetch_agrees_with_sequential_witness :
  sequential doubling [1; 2; 3]%nat
  = (yielded (run doubling 1 (round_robin [1; 2; 3]%nat) (start [1; 2; 3]%nat)), None).
Proof.
  apply (prefetch_agrees_with_sequential doubling 1 [1; 2; 3]%nat
           (round_robin [1; 2; 3]%nat)).
  - intros raw _. exists (2 * raw)%nat. reflexivity.
  - vm_compute. reflexivity.
Defined.

End Prefetch.

(** ** Actions that take a lock ([action], [_make_action_wrapper]) *)

Module Action.

(** What a pipeline variable holds, as far as the wrapper can tell: a
    [threading.Lock] object, by identity, [None], or anything else. *)
Inductive value :=
| LockObject (id : nat)
| NoneObject
| OtherObject (tag : nat).

Inductive outcome (A : Type) :=
| Finished (r : result A)
| Blocked.
Arguments Finished {A} r.
Arguments Blocked {A}.

Section Wrapper.
Context {Model Args Res Init : Type}.

(** Calling the [init] callable of a variable, and the attribute of the batch
    with a given name: none, one that is not marked with [@model], or a model
    method, with what calling it gives. *)
Variable call : Init → result value.
Variable attribute : string → option (option (result Model)).

(** The variables of [action_self.pipeline], if the batch has a pipeline, and
    the locks created so far, each held or not. *)
Record world := World {
  pipeline : option (@Variables.state value Init);
  locks : gmap nat bool }.

(** [lock.acquire()] by a thread that finds nobody to release the lock, and
    [lock.release()]. *)
Definition acquire (v : value) (w : world) : outcome unit * world :=
  match v with
  | LockObject id =>
      match locks w !! id with
      | Some true => (Blocked, w)
      | _ => (Finished (Return ()), World (pipeline w) (<[id := true]> (locks w)))
      end
  | _ => (Finished (Raise (AttributeError "acquire")), w)
  end.

Definition release (v : value) (w : world) : result unit * world :=
  match v with
  | LockObject id =>
      match locks w !! id with
      | Some true => (Return (), World (pipeline w) (<[id := false]> (locks w)))
      | _ => (Raise (RuntimeError "release unlocked lock"), w)
      end
  | _ => (Raise (AttributeError "release"), w)
  end.

(** The first [if _use_lock is not None] block. *)
Definition enter (_use_lock : option string) (w : world) : outcome unit * world :=
  match _use_lock with
  | Some name =>
      match pipeline w with
      | Some vars =>
          let '(r, vars, locks) :=
            if Variables.has_variable name vars then (Return (), vars, locks w)
            else
              let id := fresh (dom (locks w)) in
              let '(r, vars) :=
                Variables.init_variable call name (LockObject id) None false vars in
              (r, vars, <[id := false]> (locks w)) in
          match r with
          | Raise e => (Finished (Raise e), World (Some vars) locks)
          | Return _ =>
              match Variables.get_variable call name NoneObject None false vars with
              | (Raise e, vars) => (Finished (Raise e), World (Some vars) locks)
              | (Return v, vars) => acquire v (World (Some vars) locks)
              end
          end
      | None => (Finished (Return ()), w)
      end
  | None => (Finished (Return ()), w)
  end.

(** The middle block: the action method, called with the model when the
    action names one. *)
Definition body (action_method : option Model → Args → result Res)
    (_model_name : option string) (args : Args) : result Res :=
  match _model_name with
  | None => action_method None args
  | Some m =>
      match attribute m with
      | None => Raise (ValueError "There is no such method")
      | Some None => Raise (ValueError "The method is not marked with @model")
      | Some (Some (Raise e)) => Raise e
      | Some (Some (Return _model_spec)) => action_method (Some _model_spec) args
      end
  end.

(** The last [if _use_lock is not None] block. *)
Definition leave (_use_lock : option string) (w : world) : result unit * world :=
  match _use_lock with
  | Some name =>
      match pipeline w with
      | Some vars =>
          match Variables.get_variable call name NoneObject None false vars with
          | (Raise e, vars) => (Raise e, World (Some vars) (locks w))
          | (Return v, vars) => release v (World (Some vars) (locks w))
          end
      | None => (Return (), w)
      end
  | None => (Return (), w)
  end.

Definition _action_wrapper (action_method : option Model → Args → result Res)
    (_use_lock _model_name : option string) (args : Args) (w : world)
  : outcome Res * world :=
  match enter _use_lock w with
  | (Blocked, w) => (Blocked, w)
  | (Finished (Raise e), w) => (Finished (Raise e), w)
  | (Finished (Return _), w) =>
      match body action_method _model_name args with
      | Raise e => (Finished (Raise e), w)
      | Return _res =>
          match leave _use_lock w with
          | (Raise e, w) => (Finished (Raise e), w)
          | (Return _, w) => (Finished (Return _res), w)
          end
      end
  end.

(** Whether the lock that the variable [name] holds is held. *)
Definition lock_state (name : string) (w : world) : option bool :=
  vars ← pipeline w;
  var ← Variables._variables vars !! name;
  match Variables.var_value var with
  | Some (LockObject id) => locks w !! id
  | _ => None
  end.

(** The lock is there and free, or the variable is not declared yet. *)
Definition ready (name : string) (w : world) : Prop :=
  lock_state name w = Some false
  ∨ ∃ vars, pipeline w = Some vars ∧ Variables._variables vars !! name = None.

Lemma get_lock name vars var id :
  Variables._variables vars !! name = Some var →
  Variables.var_value var = Some (LockObject id) →
  Variables.get_variable call name NoneObject None false vars
  = (Return (LockObject id), vars).
Proof.
  intros Hv Hval. unfold Variables.get_variable.
  rewrite (Variables.has_variable_true _ _ _ Hv), Hv, Hval. done.
Qed.

Lemma enter_ready name w :
  ready name w →
  ∃ vars var id,
    enter (Some name) w
    = (Finished (Return ()), World (Some vars) (<[id := true]> (locks w)))
    ∧ Variables._variables vars !! name = Some var
    ∧ Variables.var_value var = Some (LockObject id).
Proof.
  intros [Hfree | (vars & Hp & Hnone)].
  - unfold lock_state in Hfree. destruct (pipeline w) as [vars|] eqn:Hp; [|done].
    simpl in Hfree.
    destruct (Variables._variables vars !! name) as [var|] eqn:Hv; [|done].
    simpl in Hfree.
    destruct (Variables.var_value var) as [[id| |]|] eqn:Hval; try done.
    exists vars, var, id. unfold enter. rewrite Hp.
    rewrite (Variables.has_variable_true _ _ _ Hv), (get_lock _ _ _ _ Hv Hval).
    unfold acquire. simpl. rewrite Hfree. done.
  - set (id := fresh (dom (locks w))).
    set (var := Variables.Var (LockObject id) (None : option Init) false
                              (Some (LockObject id))).
    set (vars' := Variables.State (<[name := var]> (Variables._variables vars))
                                  (Variables.warnings vars)).
    assert (Hinit : Variables.init_variable call name (LockObject id) None false vars
                    = (Return (), vars')).
    { unfold Variables.init_variable.
      rewrite (Variables.has_variable_false _ _ Hnone). simpl.
      erewrite Variables.set_variable_declared by (simpl; apply lookup_insert_eq).
      simpl. unfold vars', var. by rewrite insert_insert_eq. }
    assert (Hv : Variables._variables vars' !! name = Some var)
      by (simpl; apply lookup_insert_eq).
    exists vars', var, id. unfold enter. rewrite Hp.
    rewrite (Variables.has_variable_false _ _ Hnone). fold id.
    rewrite Hinit, (get_lock _ _ _ _ Hv eq_refl).
    unfold acquire. simpl. rewrite lookup_insert_eq.
    split; [|done]. by rewrite insert_insert_eq.
Qed.

(** X25.  For an action with [use_lock], on a batch of a pipeline whose lock
    variable is not declared yet or holds a free lock: when the action method
    (and the model method, if any) returns, the wrapper returns the same
    result, and afterwards the variable holds a lock that is free. *)
Theorem locked_action_releases action_method name _model_name args w _res :
  ready name w →
  body action_method _model_name args = Return _res →
  ∃ w', _action_wrapper action_method (Some name) _model_name args w
        = (Finished (Return _res), w')
        ∧ lock_state name w' = Some false.
Proof.
  intros Hready Hbody.
  destruct (enter_ready name w Hready) as (vars & var & id & Hent & Hv & Hval).
  unfold _action_wrapper. rewrite Hent, Hbody.
  unfold leave. simpl. rewrite (get_lock _ _ _ _ Hv Hval).
  unfold release. simpl. rewrite lookup_insert_eq.
  eexists. split; [done|].
  unfold lock_state. simpl. rewrite Hv. simpl. rewrite Hval.
  apply lookup_insert_eq.
Qed.

(** X26.  The lock is not released when the action fails: under the same
    conditions, when the action method raises, or the model named by the
    action is missing, unmarked or raises, the wrapper raises the same
    exception and leaves the lock held; every later call of an action with
    that lock on a batch of this pipeline then blocks in [acquire] and
    changes nothing. *)
Theorem failed_action_keeps_lock action_method name _model_name args w e :
  ready name w →
  body action_method _model_name args = Raise e →
  ∃ w', _action_wrapper action_method (Some name) _model_name args w
        = (Finished (Raise e), w')
        ∧ lock_state name w' = Some true
        ∧ ∀ other_method other_model other_args,
            _action_wrapper other_method (Some name) other_model other_args w'
            = (Blocked, w').
Proof.
  intros Hready Hbody.
  destruct (enter_ready name w Hready) as (vars & var & id & Hent & Hv & Hval).
  unfold _action_wrapper at 1. rewrite Hent, Hbody.
  eexists. split; [done|].
  assert (Hheld : lock_state name (World (Some vars) (<[id := true]> (locks w)))
                  = Some true).
  { unfold lock_state. simpl. rewrite Hv. simpl. rewrite Hval.
    apply lookup_insert_eq. }
  split; [exact Hheld|].
  intros other_method other_model other_args.
  unfold _action_wrapper, enter. simpl.
  rewrite (Variables.has_variable_true _ _ _ Hv), (get_lock _ _ _ _ Hv Hval).
  unfold acquire. simpl. rewrite lookup_insert_eq. done.
Qed.

End Wrapper.

(** A pipeline without variables, no lock created yet; an action that fails
    on 0 and returns its argument otherwise. *)
Definition no_init (_ : unit) : result value := Return NoneObject.

Definition no_attribute (_ : string) : option (option (result unit)) := None.

Definition bare : @world unit := World (Some (Variables.State ∅ [])) ∅.

Definition picky (_ : option unit) (n : nat) : result nat :=
  match n with O => Raise (OtherError 1) | S _ => Return n end.

Lemma bare_ready : ready "lock" bare.
Proof. right. eexists. split; [reflexivity|apply lookup_empty]. Qed.

Lemma locked_action_releases_witness :
  ∃ w', _action_wrapper no_init no_attribute picky (Some "lock") None 5 bare
        = (Finished (Return 5), w')
        ∧ lock_state "lock" w' = Some false.
Proof.
  apply (locked_action_releases no_init no_attribute picky "lock" None 5 bare 5).
  - exact bare_ready.
  - reflexivity.
Defined.

Lemma failed_action_keeps_lock_witness :
  ∃ w', _action_wrapper no_init no_attribute picky (Some "lock") None 0 bare
        = (Finished (Raise (OtherError 1)), w')
        ∧ _action_wrapper no_init no_attribute picky (Some "lock") None 5 w'
          = (Blocked, w').
Proof.
  destruct (failed_action_keeps_lock no_init no_attribute picky "lock" None 0 bare
              (OtherError 1) bare_ready eq_refl) as (w' & Hrun & _ & Hnext).
  exists w'. split; [exact Hrun|apply Hnext].
Defined.

End Action.

(** ** Executing a pipeline on a batch ([Pipeline._exec],
       [Pipeline._exec_all_actions], [Pipeline._exec_nested_pipeline]) *)

Module Interp.
Import Chain Exec.

Definition JOIN_ID : string := "#_join".
Definition MERGE_ID : string := "#_merge".
Definition REBATCH_ID : string := "#_rebatch".
Definition IMPORT_MODEL_ID : string := "#_import_model".
Definition INIT_MODEL_ID : string := "#_init_model".

(** A call either comes back, with a batch or an exception, or nests calls
    of [_exec_all_actions] deeper than the recursion limit. *)
Inductive outcome (A : Type) :=
| Done (r : result A)
| TooDeep.
Arguments Done {A} r.
Arguments TooDeep {A}.

Section Interpreter.
Context {Dataset Config Batch Args Kwargs Proba Rng : Type}.

Variable binomial : Z → Proba → Rng → Z * Rng.
Variable _get_action_method : Batch → string → result (Args → Kwargs → result Batch).
Variable set_pipeline : Batch → Batch.

(** The branches that call into datasets, batches, the model directory and
    tensorflow: the join and merge branch gives the batch and [join_batches]
    to go on with; [with_joined] puts the joined batches in front of the
    arguments. *)
Variable join_or_merge :
  @action Args Kwargs Proba → Batch → @world Batch Proba Rng →
  result (Batch * option (list Batch)) * @world Batch Proba Rng.
Variable import_model :
  @action Args Kwargs Proba → loc → @world Batch Proba Rng →
  result unit * @world Batch Proba Rng.
Variable with_joined : list Batch → Args → Args.
Variable has_tf_queue : @action Args Kwargs Proba → bool.
Variable _put_batch_into_tf_queue :
  Batch → @action Args Kwargs Proba → @world Batch Proba Rng →
  result unit * @world Batch Proba Rng.

(** The store of pipelines, lists and action dictionaries, which execution
    only reads. *)
Variable h : @heap Dataset Config Args Kwargs Proba.

Local Abbreviation world := (@world Batch Proba Rng).
Local Abbreviation action := (@action Args Kwargs Proba).

(** [_exec_nested_pipeline], with [self._exec_all_actions] as [rec]. *)
Definition _exec_nested_pipeline
    (rec : Batch → list nat → world → outcome Batch * world)
    (batch : Batch) (act : action) (w : world) : outcome Batch * world :=
  match _needs_exec binomial act w with
  | (Raise e, w) => (Done (Raise e), w)
  | (Return false, w) => (Done (Return batch), w)
  | (Return true, w) =>
      match repeat act with
      | None => (Done (Raise (KeyError "repeat")), w)
      | Some r =>
          (fix again (n : nat) (batch : Batch) (w : world) :=
             match n with
             | O => (Done (Return batch), w)
             | S n =>
                 match pipeline act with
                 | None => (Done (Raise (KeyError "pipeline")), w)
                 | Some q =>
                     match actions_of h q with
                     | None => (Done (Raise (AttributeError "_action_list")), w)
                     | Some nested =>
                         match rec batch nested w with
                         | (Done (Return batch), w) => again n batch w
                         | other => other
                         end
                     end
                 end
             end) (Z.to_nat (repeat_or_1 r)) batch w
      end
  end.

(** The loop of [_exec_all_actions] over the action dictionaries. *)
Fixpoint loop (rec : Batch → list nat → world → outcome Batch * world)
    (self : loc) (l : list nat) (batch : Batch) (join_batches : option (list Batch))
    (w : world) : outcome Batch * world :=
  match l with
  | [] => (Done (Return batch), w)
  | d :: rest =>
      match dicts h !! d with
      | None => (Done (Raise (KeyError "name")), w)
      | Some _action =>
          if bool_decide (name _action ∈ [JOIN_ID; MERGE_ID]) then
            match join_or_merge _action batch w with
            | (Raise e, w) => (Done (Raise e), w)
            | (Return (batch, join_batches), w) => loop rec self rest batch join_batches w
            end
          else if bool_decide (name _action = REBATCH_ID) then
            loop rec self rest batch join_batches w
          else if bool_decide (name _action = PIPELINE_ID) then
            match _exec_nested_pipeline rec batch _action w with
            | (Done (Return batch), w) => loop rec self rest batch join_batches w
            | other => other
            end
          else if bool_decide (name _action = IMPORT_MODEL_ID) then
            match import_model _action self w with
            | (Raise e, w) => (Done (Raise e), w)
            | (Return _, w) => loop rec self rest batch join_batches w
            end
          else if bool_decide (name _action = INIT_MODEL_ID) then
            loop rec self rest batch join_batches w
          else
            match args _action with
            | None => (Done (Raise (KeyError "args")), w)
            | Some a =>
                let _action_args :=
                  match join_batches with
                  | None => a
                  | Some joined => with_joined joined a
                  end in
                match kwargs _action with
                | None => (Done (Raise (KeyError "kwargs")), w)
                | Some k =>
                    match _exec_one_action binomial _get_action_method set_pipeline
                                           batch _action _action_args k w with
                    | (Raise e, w) => (Done (Raise e), w)
                    | (Return batch, w) =>
                        if has_tf_queue _action then
                          match _put_batch_into_tf_queue batch _action w with
                          | (Raise e, w) => (Done (Raise e), w)
                          | (Return _, w) => loop rec self rest batch None w
                          end
                        else loop rec self rest batch None w
                    end
                end
            end
      end
  end.

(** [_exec_all_actions(batch, action_list)], nested at most [depth] calls
    deep; an empty list stands for [None] as well, since
    [action_list or self._action_list] treats both alike. *)
Fixpoint _exec_all_actions (depth : nat) (self : loc) (batch : Batch)
    (action_list : list nat) (w : world) : outcome Batch * world :=
  match depth with
  | O => (TooDeep, w)
  | S depth =>
      match (match action_list with
             | [] => actions_of h self
             | _ => Some action_list
             end) with
      | None => (Done (Raise (AttributeError "_action_list")), w)
      | Some action_list =>
          loop (λ batch nested w, _exec_all_actions depth self batch nested w)
               self action_list batch None w
      end
  end.

(** [_exec(batch)]; the event loop that [new_loop] sets is left out. *)
Definition _exec (depth : nat) (self : loc) (batch : Batch) (w : world)
  : outcome Batch * world :=
  match _exec_all_actions depth self (set_pipeline batch) [] w with
  | (Done (Return batch_res), w) => (Done (Return (set_pipeline batch_res)), w)
  | other => other
  end.

Lemma pipeline_branch (act : action) :
  name act = PIPELINE_ID →
  bool_decide (name act ∈ [JOIN_ID; MERGE_ID]) = false
  ∧ bool_decide (name act = REBATCH_ID) = false
  ∧ bool_decide (name act = PIPELINE_ID) = true.
Proof. intros ->. repeat split. Qed.

Lemma empty_nested_too_deep self p d act r q :
  pipes h !! self = Some p → lists h !! _action_list p = Some [d] →
  dicts h !! d = Some act → name act = PIPELINE_ID →
  proba act = Some None → repeat act = Some r → (0 < repeat_or_1 r)%Z →
  pipeline act = Some q → actions_of h q = Some [] →
  ∀ depth batch w, _exec_all_actions depth self batch [] w = (TooDeep, w).
Proof.
  intros Hp Hl Hd Hname Hproba Hrep Hpos Hq Hnested.
  assert (Hown : actions_of h self = Some [d]).
  { unfold actions_of. rewrite Hp. simpl. exact Hl. }
  destruct (pipeline_branch act Hname) as (Hj & Hr & Hn).
  induction depth as [|depth IH]; intros batch w; [reflexivity|].
  cbn [_exec_all_actions]. rewrite Hown. cbn [loop]. rewrite Hd, Hj, Hr, Hn.
  unfold _exec_nested_pipeline. rewrite (needs_exec_always _ _ _ Hproba), Hrep.
  destruct (Z.to_nat (repeat_or_1 r)) as [|n] eqn:Hn'; [lia|].
  rewrite Hq, Hnested, IH. reflexivity.
Qed.

(** X29.  A pipeline whose only action is a nested pipeline with an empty
    action list (what [pipeline * n] builds from a pipeline without actions)
    can never be executed: the empty list is replaced by
    the executing pipeline's own list, so the nested call runs the same
    nested record again, and the calls nest deeper than any recursion
    limit. *)
Theorem empty_nested_never_returns self p d act r q :
  pipes h !! self = Some p → lists h !! _action_list p = Some [d] →
  dicts h !! d = Some act → name act = PIPELINE_ID →
  proba act = Some None → repeat act = Some r → (0 < repeat_or_1 r)%Z →
  pipeline act = Some q → actions_of h q = Some [] →
  ∀ depth batch w, _exec depth self batch w = (TooDeep, w).
Proof.
  intros Hp Hl Hd Hname Hproba Hrep Hpos Hq Hnested depth batch w.
  unfold _exec.
  by rewrite (empty_nested_too_deep self p d act r q Hp Hl Hd Hname Hproba Hrep
                Hpos Hq Hnested).
Qed.

(** An action that is stored and is no join, merge or nested pipeline. *)
Definition flat (d : nat) : bool :=
  match dicts h !! d with
  | Some act => negb (bool_decide (name act ∈ [JOIN_ID; MERGE_ID; PIPELINE_ID]))
  | None => false
  end.

Lemma flat_branch d :
  flat d = true →
  ∃ act, dicts h !! d = Some act
         ∧ bool_decide (name act ∈ [JOIN_ID; MERGE_ID]) = false
         ∧ bool_decide (name act = PIPELINE_ID) = false.
Proof.
  unfold flat. destruct (dicts h !! d) as [act|]; [|done]. intros Hf.
  apply negb_true_iff, bool_decide_eq_false in Hf.
  exists act. split; [done|]. split; apply bool_decide_eq_false; intros H; apply Hf.
  - apply elem_of_cons in H as [->|H]; [left|].
    apply elem_of_cons in H as [->|H]; [right; left|by apply elem_of_nil in H].
  - rewrite H. right. right. left.
Qed.

(** Through flat actions, with no joined batches pending, the loop does not
    call back into [_exec_all_actions] and leaves no joined batches. *)
Lemma loop_flat rec rec' self l rest batch w :
  forallb flat l = true →
  loop rec self (l ++ rest) batch None w
  = match loop rec' self l batch None w with
    | (Done (Return b), w') => loop rec self rest b None w'
    | other => other
    end.
Proof.
  revert batch w. induction l as [|d l IH]; intros batch w Hl; [done|].
  simpl in Hl. apply andb_true_iff in Hl as [Hd Hl].
  destruct (flat_branch d Hd) as (act & Hact & Hj & Hn).
  simpl. rewrite Hact, Hj, Hn.
  destruct (bool_decide (name act = REBATCH_ID)); [by apply IH|].
  destruct (bool_decide (name act = IMPORT_MODEL_ID)).
  { destruct (import_model act self w) as [[[]|e] w']; [by apply IH|done]. }
  destruct (bool_decide (name act = INIT_MODEL_ID)); [by apply IH|].
  destruct (args act) as [a|]; [|done].
  destruct (kwargs act) as [k|]; [|done].
  destruct (_exec_one_action _ _ _ batch act a k w) as [[b|e] w']; [|done].
  destruct (has_tf_queue act); [|by apply IH].
  destruct (_put_batch_into_tf_queue b act w') as [[[]|e] w'']; [by apply IH|done].
Qed.

(** X30.  A nested pipeline of flat actions (at least one, and no join,
    merge or nested pipeline among them), without probability and with a
    repeat count of [None], 1 or 0, is executed exactly as if its actions
    stood in its place, wherever in an action list no joined batches are
    pending, in particular at the head of the list: the same result, trials
    and method invocations, by the same executing pipeline, for the rest of
    the list as well. *)
Theorem nested_once_is_inline d act r q nested rest self depth batch w :
  dicts h !! d = Some act → name act = PIPELINE_ID →
  proba act = Some None → repeat act = Some r → repeat_or_1 r = 1%Z →
  pipeline act = Some q → actions_of h q = Some nested → nested ≠ [] →
  forallb flat nested = true →
  let rec := λ batch nested w, _exec_all_actions (S depth) self batch nested w in
  loop rec self (d :: rest) batch None w = loop rec self (nested ++ rest) batch None w
  ∧ _exec_all_actions (S (S depth)) self batch (d :: rest) w
    = _exec_all_actions (S (S depth)) self batch (nested ++ rest) w.
Proof.
  intros Hd Hname Hproba Hrep Hone Hq Hnested Hne Hflat rec.
  destruct (pipeline_branch act Hname) as (Hj & Hr & Hn).
  assert (loop rec self (d :: rest) batch None w
          = loop rec self (nested ++ rest) batch None w) as Hloop.
  { rewrite (loop_flat rec (λ batch nested w, _exec_all_actions depth self batch nested w)
               self nested rest batch w Hflat).
    cbn [loop]. rewrite Hd, Hj, Hr, Hn.
    unfold _exec_nested_pipeline.
    rewrite (needs_exec_always _ _ _ Hproba), Hrep, Hone.
    change (Z.to_nat 1) with 1%nat. rewrite Hq, Hnested.
    unfold rec at 1. destruct nested as [|d' nested']; [done|].
    cbn [_exec_all_actions].
    by destruct (loop _ self (d' :: nested') batch None w) as [[[b|e]|] w']. }
  split; [exact Hloop|].
  destruct nested as [|d' nested']; [done|].
  exact Hloop.
Qed.

End Interpreter.

(** The store that [pipeline * 3] builds from the pipeline without actions;
    no joins, model imports or tensorflow queues. *)
Definition product_of_empty : @heap nat unit (list Z) unit QArith_base.Q :=
  (__mul__ QArith_base.Qmult 2 3%Z sample_heap).2.

Definition no_join (_ : @action (list Z) unit QArith_base.Q) (b : nat)
    (w : @world nat QArith_base.Q (list Z))
  : result (nat * option (list nat)) * @world nat QArith_base.Q (list Z) :=
  (Return (b, None), w).

Definition no_import (_ : @action (list Z) unit QArith_base.Q) (_ : loc)
    (w : @world nat QArith_base.Q (list Z))
  : result unit * @world nat QArith_base.Q (list Z) :=
  (Return (), w).

Definition plain_args (_ : list nat) (a : list Z) : list Z := a.

Definition no_queue (_ : @action (list Z) unit QArith_base.Q) : bool := false.

Definition no_put (_ : nat) (_ : @action (list Z) unit QArith_base.Q)
    (w : @world nat QArith_base.Q (list Z))
  : result unit * @world nat QArith_base.Q (list Z) :=
  (Return (), w).

Lemma empty_nested_never_returns_witness :
  _exec replay counter_methods id no_join no_import plain_args no_queue no_put
        product_of_empty 1000 3 0 fresh_world
  = (TooDeep, fresh_world).
Proof.
  apply (empty_nested_never_returns replay counter_methods id no_join no_import
           plain_args no_queue no_put product_of_empty 3 (Pipeline None None 3) 3
           (Action PIPELINE_ID None None (Some None) (Some (Some 3%Z)) (Some 2))
           (Some 3%Z) 2); try reflexivity.
Defined.

(** Pipeline 0 with two [bump] actions, and pipeline 1 whose only action is
    pipeline 0 nested with a repeat count of 1. *)
Definition bump_heap : @heap nat unit (list Z) unit QArith_base.Q :=
  Heap (<[0 := [0; 1]]> {[1 := [2]]})
       (<[0 := bump None]>
          (<[1 := bump None]>
             {[2 := Action PIPELINE_ID None None (Some None) (Some (Some 1%Z)) (Some 0)]}))
       (<[0 := Pipeline None None 0]> {[1 := Pipeline None None 1]}).

Lemma nested_once_is_inline_witness :
  _exec_all_actions replay counter_methods id no_join no_import plain_args no_queue
                    no_put bump_heap 2 1 0 [2] fresh_world
  = (Done (Return 2), World [] [] [("bump", 0); ("bump", 1)]).
Proof.
  rewrite (proj2 (nested_once_is_inline replay counter_methods id no_join no_import
                    plain_args no_queue no_put bump_heap 2
                    (Action PIPELINE_ID None None (Some None) (Some (Some 1%Z)) (Some 0))
                    (Some 1%Z) 0 [0; 1] [] 1 0 0 fresh_world
                    eq_refl eq_refl eq_refl eq_refl eq_refl eq_refl eq_refl
                    ltac:(discriminate) eq_refl)).
  reflexivity.
Defined.

End Interp.
